(** * A shallow embedding of the single-user spreadsheet of [main.go]

    The sheet is a matrix of cells; a cell holds an integer value, an
    optional formula text and the set of identifiers of the cells that
    depend on it.  The two operations are [SetCellValue] and
    [GetCellValue].

    Conventions of the embedding:
    - Go's [int] is the 64-bit two's complement integer, modelled as [Z]
      with the wrap-around written out ([wrap]);
    - a Go [string] is a sequence of bytes, modelled as [string] (one
      [ascii] per byte);
    - a Go function returning [(..., error)] returns its tuple here too,
      with [option error] for the [error] ([None] is [nil]);
    - a run-time panic (index out of range, ...) and a loop that never
      ends are explicit outcomes ([Panic]);
    - the methods of [*SpreadSheet] mutate the sheet in place: they are
      state transformers that also give the sheet as it is when the call
      returns or panics;
    - [map[string]interface{}] used as a set of keys is a [gset string];
      the order in which [range] visits it is not fixed by Go, so it is a
      parameter ([visit]) of [SetCellValue];
    - [fmt.Println] of the error messages is not modelled, and neither are
      the limits of memory. *)


From Stdlib Require Import ZArith String Ascii List Lia Bool.
From stdpp Require Import base option list gmap sets strings.

Open Scope string_scope.
Open Scope list_scope.
Open Scope Z_scope.

(** * The program *)

(** ** Machine integers and bytes *)

Definition min_int : Z := - 2 ^ 63.
Definition max_int : Z := 2 ^ 63 - 1.

(** The value of an [int] expression whose mathematical value is [z]. *)
Definition wrap (z : Z) : Z := (z + 2 ^ 63) mod 2 ^ 64 - 2 ^ 63.

Definition add_int (a b : Z) : Z := wrap (a + b).
Definition sub_int (a b : Z) : Z := wrap (a - b).

(** The numeric value of a byte of a string. *)
Definition byte (a : ascii) : Z := Z.of_N (N_of_ascii a).

(** [x - y] on [uint8]. *)
Definition sub_uint8 (x y : Z) : Z := (x - y) mod 256.

(** ** Outcomes of a call *)

(** The four errors the program creates with [errors.New]. *)
Inductive error : Type :=
  | InvalidCol
  | InvalidRow
  | RowOutOfBounds
  | ColOutOfBounds.

Definition errMsg (e : error) : string :=
  match e with
  | InvalidCol => "Invalid col number in cellId"
  | InvalidRow => "Invalid row number in cellId"
  | RowOutOfBounds => "Row number out of bounds in cellId"
  | ColOutOfBounds => "Column value out of bounds in cellId"
  end.

(** The spec's error kinds, as sets of the program's errors. *)
Definition InvalidCellId (e : error) : Prop := e = InvalidCol ∨ e = InvalidRow.
Definition OutOfBounds (e : error) : Prop := e = RowOutOfBounds ∨ e = ColOutOfBounds.

(** The ways a call can fail to return. *)
Inductive fault : Type :=
  | IndexOutOfRange   (* s[i], s[i:] or a[i] outside the bounds *)
  | MakeLenOutOfRange (* make with a negative length *)
  | NoTermination.    (* a loop whose condition never becomes false *)

Inductive outcome (A : Type) : Type :=
  | Ret (a : A)
  | Panic (f : fault).
Arguments Ret {A} a.
Arguments Panic {A} f.

#[global] Instance outcome_ret : MRet outcome := λ A a, Ret a.
#[global] Instance outcome_bind : MBind outcome := λ A B k o,
  match o with
  | Ret a => k a
  | Panic f => Panic f
  end.

(** ** The library functions the program calls *)

Definition digit (a : ascii) : option Z :=
  let n := byte a in
  if (48 <=? n) && (n <=? 57) then Some (n - 48) else None.

Fixpoint digits (s : string) (acc : Z) : option Z :=
  match s with
  | EmptyString => Some acc
  | String a r =>
      match digit a with
      | Some d => digits r (10 * acc + d)
      | None => None
      end
  end.

(** [strconv.Atoi]: an optional sign, then one or more decimal digits; the
    value has to fit in an [int].  [None] stands for a non-nil error. *)
Definition Atoi (s : string) : option Z :=
  let '(neg, body) :=
    match s with
    | String "-" r => (true, r)
    | String "+" r => (false, r)
    | _ => (false, s)
    end in
  match body with
  | EmptyString => None
  | _ =>
      match digits body 0 with
      | None => None
      | Some n =>
          let v := if neg then - n else n in
          if (min_int <=? v) && (v <=? max_int) then Some v else None
      end
  end.

(** [len(strings.TrimSpace(s)) == 0]: every rune of [s] is white space in
    the sense of [unicode.IsSpace].  The runes are decoded from UTF-8; a
    byte that starts no valid encoding of a white space rune is not white
    space. *)
Fixpoint blank (s : string) : bool :=
  match s with
  | EmptyString => true
  | String a r =>
      let x := byte a in
      if (x =? 9) || (x =? 10) || (x =? 11) || (x =? 12) || (x =? 13) || (x =? 32)
      then blank r
      else
        match r with
        | EmptyString => false
        | String b r1 =>
            let y := byte b in
            if x =? 194 (* U+0085, U+00A0 *)
            then ((y =? 133) || (y =? 160)) && blank r1
            else
              match r1 with
              | EmptyString => false
              | String c r2 =>
                  let z := byte c in
                  if (x =? 225) && (y =? 154) && (z =? 128) (* U+1680 *)
                  then blank r2
                  else if (x =? 226) && (y =? 128) &&
                          (((128 <=? z) && (z <=? 138)) (* U+2000..U+200A *)
                           || (z =? 168) || (z =? 169) (* U+2028, U+2029 *)
                           || (z =? 175)) (* U+202F *)
                  then blank r2
                  else if (x =? 226) && (y =? 129) && (z =? 159) (* U+205F *)
                  then blank r2
                  else if (x =? 227) && (y =? 128) && (z =? 128) (* U+3000 *)
                  then blank r2
                  else false
              end
        end
  end.

(** [strings.Contains(s, ":")]. *)
Fixpoint containsColon (s : string) : bool :=
  match s with
  | EmptyString => false
  | String a r => Ascii.eqb a ":" || containsColon r
  end.

(** [strings.Split(s, ":")], with [cur] the piece read so far. *)
Fixpoint splitColon (s cur : string) : list string :=
  match s with
  | EmptyString => [cur]
  | String a r =>
      if Ascii.eqb a ":" then cur :: splitColon r ""
      else splitColon r (cur +:+ String a "")
  end.

(** ** The data of the program *)

Record Cell : Type := mkCell {
  (* identifiers of the cells that depend on this cell *)
  dependentCells : gset string;
  (* [value *int]: set at creation and by every write, never nil *)
  value : Z;
  (* [formula *string]: [None] is nil *)
  formula : option string
}.

Record SpreadSheet : Type := mkSheet {
  cells : list (list Cell)
}.

Record CellId : Type := mkCellId {
  row : Z;
  col : Z;
  sign : string;
  val : option Z
}.

Definition set_value (v : Z) (c : Cell) : Cell :=
  mkCell (dependentCells c) v (formula c).
Definition set_formula (f : option string) (c : Cell) : Cell :=
  mkCell (dependentCells c) (value c) f.
Definition set_dependentCells (d : gset string) (c : Cell) : Cell :=
  mkCell d (value c) (formula c).

(** [l[i]] on a slice. *)
Definition index {A : Type} (l : list A) (i : Z) : outcome A :=
  if (0 <=? i) && (i <? Z.of_nat (length l)) then
    match l !! Z.to_nat i with
    | Some a => Ret a
    | None => Panic IndexOutOfRange
    end
  else Panic IndexOutOfRange.

(** ** Operations on a sheet: state transformers *)

Definition M (A : Type) : Type := SpreadSheet → outcome A * SpreadSheet.

#[global] Instance M_ret : MRet M := λ A a s, (Ret a, s).
#[global] Instance M_bind : MBind M := λ A B k m s,
  match m s with
  | (Ret a, s') => k a s'
  | (Panic f, s') => (Panic f, s')
  end.

(** A call of a function that does not touch the sheet. *)
Definition lift {A : Type} (o : outcome A) : M A := λ s, (o, s).

(** The sheet itself, for [len(sheet.cells)]. *)
Definition theSheet : M SpreadSheet := λ s, (Ret s, s).

(** Reading [sheet.cells[row][col]]. *)
Definition cellAt (r c : Z) : M Cell := λ s,
  (rw ← index (cells s) r; index rw c, s).

(** Writing a field of [sheet.cells[row][col]]. *)
Definition updCell (r c : Z) (f : Cell → Cell) : M unit := λ s,
  match rw ← index (cells s) r; x ← index rw c; mret (rw, x) with
  | Ret (rw, x) =>
      (Ret (), mkSheet (<[Z.to_nat r := <[Z.to_nat c := f x]> rw]> (cells s)))
  | Panic p => (Panic p, s)
  end.

Fixpoint forEach {A : Type} (l : list A) (body : A → M unit) : M unit :=
  match l with
  | [] => mret ()
  | x :: l' => body x;; forEach l' body
  end.

(** ** The functions of the program *)

Definition newCell : Cell := mkCell ∅ 0 None.

(** [make([][]*Cell, numRows)] panics on a negative length, and so does
    [make([]*Cell, numCols)], which is reached when there is a row.  The
    two loops fill a fresh slice of length [n] with new cells: they build
    [replicate n newCell], every [new(Cell)] being a cell of its own. *)
Definition CreateSpreadSheet (numRows numCols : Z) : outcome SpreadSheet :=
  if numRows <? 0 then Panic MakeLenOutOfRange
  else
    let numCols := if numCols >? 26 then 26 else numCols in
    if (0 <? numRows) && (numCols <? 0) then Panic MakeLenOutOfRange
    else
      Ret (mkSheet (replicate (Z.to_nat numRows)
                      (replicate (Z.to_nat numCols) newCell))).

(** Returns row, col and nil if the cell ID is valid, else -1, -1 and an
    error.  [cellId[0]] panics on the empty string. *)
Definition getCellRowCol (cellId : string) : outcome (Z * Z * option error) :=
  match cellId with
  | EmptyString => Panic IndexOutOfRange
  | String c0 rest =>
      let col := sub_uint8 (byte c0) (byte "A") in
      if (col <? 0) || (col >=? 26) then Ret (-1, -1, Some InvalidCol)
      else
        match Atoi rest with
        | None => Ret (-1, -1, Some InvalidRow)
        | Some row => Ret (sub_int row 1, col, None)
        end
  end.

(** [for i := lo; i <= hi; i++ { ids = append(ids, body(i)...) }], run for
    at most [fuel] iterations. *)
Fixpoint forRange (fuel : nat) (i hi : Z) (body : Z → list CellId) : list CellId :=
  match fuel with
  | O => []
  | S fuel' =>
      if i <=? hi then body i ++ forRange fuel' (add_int i 1) hi body
      else []
  end.

(** The number of iterations of [for i := lo; i <= hi; i++] when [hi] is
    not the largest [int]; when it is, [i <= hi] holds for ever. *)
Definition iterations (lo hi : Z) : outcome nat :=
  if hi =? max_int then Panic NoTermination
  else Ret (Z.to_nat (hi - lo + 1)).

(** The cell IDs of a range, or the one term of a token without [":"].
    The errors of [getCellRowCol] are dropped, as in the source.  The two
    nested loops are [forRange] with the fuel given by [iterations]. *)
Definition getCellIdsFromRange (rangeStr sign : string) : outcome (list CellId) :=
  if negb (containsColon rangeStr) then
    match Atoi rangeStr with
    | Some v => Ret [mkCellId 0 0 sign (Some v)]
    | None =>
        '(r, c, _) ← getCellRowCol rangeStr;
        Ret [mkCellId r c sign None]
    end
  else
    let cells := splitColon rangeStr "" in
    c0 ← index cells 0;
    '(topRow, leftCol, _) ← getCellRowCol c0;
    c1 ← index cells 1;
    '(bottomRow, rightCol, _) ← getCellRowCol c1;
    nr ← iterations topRow bottomRow;
    nc ← iterations leftCol rightCol;
    Ret (forRange nr topRow bottomRow (λ r,
           forRange nc leftCol rightCol (λ c, [mkCellId r c sign None]))).

(** The loop of [getCellIdsFromFormula] over the text that follows the
    leading ["="]: [tok] is [formula[start:i]]. *)
Fixpoint scanFormula (rest tok sign : string) : outcome (list CellId) :=
  match rest with
  | EmptyString => getCellIdsFromRange tok sign
  | String ch rest' =>
      if negb (Ascii.eqb ch "+") && negb (Ascii.eqb ch "-")
      then scanFormula rest' (tok +:+ String ch "") sign
      else
        ids ← getCellIdsFromRange tok sign;
        more ← scanFormula rest' "" (String ch "");
        Ret (ids ++ more)
  end.

(** All the cell IDs of a formula.  [formula[1:]] panics on the empty
    string. *)
Definition getCellIdsFromFormula (formula : string) : outcome (list CellId) :=
  match formula with
  | EmptyString => Panic IndexOutOfRange
  | String _ formula => scanFormula formula "" "+"
  end.

(** Deletes [cellId] from the dependents of each cell ID of the formula. *)
Definition deleteDependees (cellId formula : string) : M unit :=
  cellIds ← lift (getCellIdsFromFormula formula);
  forEach cellIds (λ id,
    updCell (row id) (col id)
      (λ c, set_dependentCells (dependentCells c ∖ {[cellId]}) c)).

(** Adds [cellId] to the dependents of each cell ID of the formula. *)
Definition addDependees (cellId formula : string) : M unit :=
  cellIds ← lift (getCellIdsFromFormula formula);
  forEach cellIds (λ id,
    updCell (row id) (col id)
      (λ c, set_dependentCells (dependentCells c ∪ {[cellId]}) c)).

(** One iteration of the loop of [computeCellValue]: the new content of
    the local variable [value], here [acc]. *)
Definition term (acc : Z) (id : CellId) : M Z :=
  if String.eqb (sign id) "+" then
    match val id with
    | Some v => mret (add_int acc v)
    | None => c ← cellAt (row id) (col id); mret (add_int acc (value c))
    end
  else if String.eqb (sign id) "-" then
    match val id with
    | Some v => mret (sub_int acc v)
    | None => c ← cellAt (row id) (col id); mret (sub_int acc (value c))
    end
  else mret acc.

Fixpoint terms (acc : Z) (cellIds : list CellId) : M Z :=
  match cellIds with
  | [] => mret acc
  | id :: cellIds' => acc' ← term acc id; terms acc' cellIds'
  end.

(** Computes the value of a cell from its formula. *)
Definition computeCellValue (cellId : string) : M unit :=
  '(row, col, err) ← lift (getCellRowCol cellId);
  match err with
  | Some _ => mret ()
  | None =>
      c ← cellAt row col;
      match formula c with
      | None => updCell row col (set_value 0)
      | Some formula =>
          cellIds ← lift (getCellIdsFromFormula formula);
          value ← terms 0 cellIds;
          updCell row col (set_value value)
      end
  end.

(** Sets the content of a cell and recomputes its dependents.  [visit]
    is the order in which [range] yields the keys of the dependents. *)
Definition SetCellValue (visit : gset string → list string)
    (cellId value : string) : M (option error) :=
  '(row, col, err) ← lift (getCellRowCol cellId);
  match err with
  | Some e => mret (Some e)
  | None =>
      let value := if blank value then "0" else value in
      (* Remove dependees. *)
      c ← cellAt row col;
      match formula c with
      | Some f => deleteDependees cellId f
      | None => mret ()
      end;;
      match Atoi value with
      | Some valueInt =>
          updCell row col (set_value valueInt);;
          updCell row col (set_formula None)
      | None =>
          updCell row col (set_formula (Some value));;
          computeCellValue cellId
      end;;
      (* Add dependees. *)
      c ← cellAt row col;
      match formula c with
      | Some f => addDependees cellId f
      | None => mret ()
      end;;
      (* Recompute dependents value. *)
      c ← cellAt row col;
      forEach (visit (dependentCells c)) computeCellValue;;
      mret None
  end.

(** Returns the value of the cell. *)
Definition GetCellValue (cellId : string) : M (Z * option error) :=
  '(row, col, err) ← lift (getCellRowCol cellId);
  match err with
  | Some e => mret (0, Some e)
  | None =>
      s ← theSheet;
      if row >=? Z.of_nat (length (cells s)) then mret (0, Some RowOutOfBounds)
      else
        row0 ← lift (index (cells s) 0);
        if col >=? Z.of_nat (length row0) then mret (0, Some ColOutOfBounds)
        else
          c ← cellAt row col;
          mret (value c, None)
  end.

(** * Notions used in the statements *)

(** An order in which [range] may visit the keys of a map: each key once. *)
Definition range_order (visit : gset string → list string) : Prop :=
  ∀ m, visit m ≡ₚ elements m.

(** A sequence of [SetCellValue] calls, each of which returns nil. *)
Inductive runs (visit : gset string → list string) :
    list (string * string) → SpreadSheet → SpreadSheet → Prop :=
  | runs_nil s : runs visit [] s s
  | runs_cons cellId value calls s s1 s2 :
      SetCellValue visit cellId value s = (Ret None, s1) →
      runs visit calls s1 s2 →
      runs visit ((cellId, value) :: calls) s s2.

(** The cell at a position, if the position is in the sheet. *)
Definition lookupCell (s : SpreadSheet) (r c : Z) : option Cell :=
  match cellAt r c s with
  | (Ret x, _) => Some x
  | (Panic _, _) => None
  end.

(** The position an identifier names. *)
Definition names (k : string) (r c : Z) : Prop :=
  getCellRowCol k = Ret (r, c, None).

(** The cell an identifier names. *)
Definition cell (s : SpreadSheet) (cellId : string) : option Cell :=
  match getCellRowCol cellId with
  | Ret (r, c, None) => lookupCell s r c
  | _ => None
  end.

(** The stored value of a cell, 0 outside the sheet. *)
Definition valueAt (s : SpreadSheet) (r c : Z) : Z :=
  match cellAt r c s with
  | (Ret x, _) => value x
  | _ => 0
  end.

Definition sumValues (s : SpreadSheet) (ids : list CellId) : Z :=
  foldr (λ id acc, valueAt s (row id) (col id) + acc) 0 ids.

(** A term that adds the value of a cell of the sheet. *)
Definition plusRef (s : SpreadSheet) (id : CellId) : Prop :=
  sign id = "+" ∧ val id = None ∧ ∃ x, cellAt (row id) (col id) s = (Ret x, s).

(** The cells of the inclusive rectangle, row by row, as terms of one sign:
    what the spec asks of a range token. *)
Definition rectangle (top left bottom right : Z) (sign : string) : list CellId :=
  r ← seqZ top (bottom - top + 1);
  c ← seqZ left (right - left + 1);
  [mkCellId r c sign None].

(** No ['+'] and no ['-'] in the text. *)
Fixpoint unsigned (s : string) : bool :=
  match s with
  | EmptyString => true
  | String ch r => negb (Ascii.eqb ch "+") && negb (Ascii.eqb ch "-") && unsigned r
  end.

(** The sheet as [SetCellValue] finds it when it reaches its last loop:
    the call with a [range] that visits nothing. *)
Definition atLoop (cellId value : string) (s : SpreadSheet) : SpreadSheet :=
  snd (SetCellValue (λ _, []) cellId value s).

(** The keys the last loop of [SetCellValue] ranges over. *)
Definition loopKeys (cellId value : string) (s : SpreadSheet) : gset string :=
  match getCellRowCol cellId with
  | Ret (row, col, None) =>
      match cellAt row col (atLoop cellId value s) with
      | (Ret c, _) => dependentCells c
      | _ => ∅
      end
  | _ => ∅
  end.

(** The positions whose value [SetCellValue] may write for [cellId] on
    [s]: the cell of [cellId] and the cells named by its dependents. *)
Definition written (s : SpreadSheet) (cellId : string) (r' c' : Z) : Prop :=
  ∃ k, names k r' c'
     ∧ (k = cellId
        ∨ ∃ r c x, names cellId r c ∧ lookupCell s r c = Some x
                 ∧ k ∈ dependentCells x).

Definition nowhere (r c : Z) : Prop := False.

(** How a sheet may change: the shape stays; in the dependents sets only
    the keys of [K] come or go; values change only at the positions [W]
    and formulas only at the positions [F]. *)
Definition evolves (K : gset string) (W F : Z → Z → Prop) (s s' : SpreadSheet) : Prop :=
  ∀ r c,
    match lookupCell s r c with
    | None => lookupCell s' r c = None
    | Some x =>
        ∃ x', lookupCell s' r c = Some x'
            ∧ (∀ k, k ∉ K → k ∈ dependentCells x' ↔ k ∈ dependentCells x)
            ∧ (¬ W r c → value x' = value x)
            ∧ (¬ F r c → formula x' = formula x)
    end.

Definition preserves {A : Type} (R : SpreadSheet → SpreadSheet → Prop) (m : M A) : Prop :=
  ∀ s o s', m s = (o, s') → R s s'.

(** The claim on cycles, on a given sheet. *)
Definition cycle_rejected (visit : gset string → list string) (s : SpreadSheet) : Prop :=
  ∀ s1, SetCellValue visit "A1" "=B1" s = (Ret None, s1) →
  ∃ e s2, SetCellValue visit "B1" "=A1" s1 = (Ret (Some e), s2)
        ∧ cell s2 "B1" = cell s1 "B1".

(** The sheet of [main]: [CreateSpreadSheet(3,3)]. *)
Definition sheet33 : SpreadSheet :=
  mkSheet (replicate 3 (replicate 3 newCell)).

(** A sheet with a column D: [CreateSpreadSheet(3,4)]. *)
Definition sheet34 : SpreadSheet :=
  mkSheet (replicate 3 (replicate 4 newCell)).

(** The sheet of [main] after [A1 = 10] and [C3 = "=A1:C2"]. *)
Definition sheetC3 : SpreadSheet :=
  snd (SetCellValue elements "C3" "=A1:C2"
         (snd (SetCellValue elements "A1" "10" sheet33))).

(** ** Notions for the further properties *)

(** The position is in the sheet. *)
Definition inSheet (s : SpreadSheet) (r c : Z) : Prop :=
  is_Some (lookupCell s r c).

(** The integer a term stands for: its literal, or the stored value of
    the cell at its coordinates. *)
Definition operand (s : SpreadSheet) (id : CellId) : Z :=
  match val id with
  | Some v => v
  | None => valueAt s (row id) (col id)
  end.

(** What a term adds to the value of its formula. *)
Definition contribution (s : SpreadSheet) (id : CellId) : Z :=
  if String.eqb (sign id) "+" then operand s id
  else if String.eqb (sign id) "-" then - operand s id
  else 0.

Definition signedSum (s : SpreadSheet) (ids : list CellId) : Z :=
  foldr (λ id acc, contribution s id + acc) 0 ids.

(** A term whose evaluation indexes the sheet within its bounds. *)
Definition readable (s : SpreadSheet) (id : CellId) : Prop :=
  val id = None → inSheet s (row id) (col id).

(** Some term of the list has the coordinates [(r, c)]. *)
Definition termAt (ids : list CellId) (r c : Z) : Prop :=
  ∃ id, id ∈ ids ∧ row id = r ∧ col id = c.

(** A sheet of [nr] rows of [nc] cells each. *)
Definition dims (s : SpreadSheet) (nr nc : nat) : Prop :=
  length (cells s) = nr ∧ Forall (λ rw, length rw = nc) (cells s).

(** The rows keep their lengths. *)
Definition sameShape (s s' : SpreadSheet) : Prop :=
  length <$> cells s' = length <$> cells s.

(** Every stored formula parses, and all its terms have coordinates in
    the sheet. *)
Definition formulasResolve (s : SpreadSheet) : Prop :=
  ∀ r c x f, lookupCell s r c = Some x → formula x = Some f →
    ∃ ids, getCellIdsFromFormula f = Ret ids
         ∧ ∀ id, id ∈ ids → inSheet s (row id) (col id).

(** Every key of every dependents set names a cell of the sheet. *)
Definition keysResolve (s : SpreadSheet) : Prop :=
  ∀ r c x k, lookupCell s r c = Some x → k ∈ dependentCells x →
    ∃ r' c', names k r' c' ∧ inSheet s r' c'.

Definition wellFormed (s : SpreadSheet) : Prop :=
  formulasResolve s ∧ keysResolve s.

(** The only way the call fails to return is an index out of range. *)
Definition only_index {A : Type} (m : M A) : Prop :=
  ∀ s p s', m s = (Panic p, s') → p = IndexOutOfRange.

(** The key [cellId] was among the dependents at [(r', c')] and the
    formula of the cell [x] has no term there: [deleteDependees] leaves
    the key. *)
Definition keyLeft (cellId : string) (s : SpreadSheet) (x : Cell) (r' c' : Z) : Prop :=
  (∃ y, lookupCell s r' c' = Some y ∧ cellId ∈ dependentCells y)
  ∧ ∀ f ids, formula x = Some f → getCellIdsFromFormula f = Ret ids →
      ¬ termAt ids r' c'.

(** A set of identifiers no two of which name the same cell. *)
Definition unambiguous (S : string → Prop) : Prop :=
  ∀ k1 k2 r c, S k1 → S k2 → names k1 r c → names k2 r c → k1 = k2.

(** Every key of a dependents set is an identifier of [S], and the cell
    it names has a formula with a term at the coordinates of the cell that
    holds the key. *)
Definition edgesSound (S : string → Prop) (s : SpreadSheet) : Prop :=
  ∀ r c x k, lookupCell s r c = Some x → k ∈ dependentCells x →
    S k ∧ ∃ rk ck xk f ids,
            names k rk ck ∧ lookupCell s rk ck = Some xk
            ∧ formula xk = Some f ∧ getCellIdsFromFormula f = Ret ids
            ∧ termAt ids r c.

(** Every cell with a formula has an identifier of [S] that is a key of
    the dependents at the coordinates of every term of the formula. *)
Definition edgesComplete (S : string → Prop) (s : SpreadSheet) : Prop :=
  ∀ rk ck xk f ids, lookupCell s rk ck = Some xk → formula xk = Some f →
    getCellIdsFromFormula f = Ret ids →
    ∃ k, S k ∧ names k rk ck
       ∧ ∀ r c, termAt ids r c →
           ∃ x, lookupCell s r c = Some x ∧ k ∈ dependentCells x.

(** The sheets reached from a fresh sheet by calls of [SetCellValue] that
    return nil and take their identifiers in [S]. *)
Definition reached (S : string → Prop) (visit : gset string → list string)
    (s : SpreadSheet) : Prop :=
  ∃ numRows numCols s0 calls,
    CreateSpreadSheet numRows numCols = Ret s0
    ∧ Forall (λ call, S call.1) calls
    ∧ runs visit calls s0 s.

(** The identifiers of the first row of the sheet of [main]. *)
Definition firstRow (k : string) : Prop := k = "A1" ∨ k = "B1" ∨ k = "C1".

(** The text of a formula after its first byte: a first token, then
    operators each followed by a token. *)
Definition formulaText (first : string) (more : list (ascii * string)) : string :=
  first +:+ foldr (λ ot acc, String ot.1 (ot.2 +:+ acc)) "" more.

(** The terms of the tokens that follow the first one, each with the
    operator before it as its sign. *)
Fixpoint expandTokens (more : list (ascii * string)) : outcome (list CellId) :=
  match more with
  | [] => Ret []
  | ot :: more' =>
      ids ← getCellIdsFromRange ot.2 (String ot.1 "");
      rest ← expandTokens more';
      Ret (ids ++ rest)
  end.

(** * Properties *)

(** ** Tactics for the state transformers *)

Ltac run_bind :=
  repeat match goal with
  | |- context [mbind ?f ?m ?s] =>
      change (mbind f m s) with
        (match m s with (Ret a, s') => f a s' | (Panic p, s') => (Panic p, s') end)
  end.

Ltac head_case :=
  run_bind;
  match goal with
  | |- match ?x with _ => _ end = _ => destruct x as [[?|?] ?]; try reflexivity
  end.

(** ** Machine arithmetic and the library functions *)

Lemma wrap_range (z : Z) : min_int ≤ wrap z ≤ max_int.
Proof.
  unfold wrap, min_int, max_int.
  pose proof (Z.mod_pos_bound (z + 2 ^ 63) (2 ^ 64)). lia.
Qed.

Lemma wrap_id (z : Z) : min_int ≤ z ≤ max_int → wrap z = z.
Proof.
  unfold wrap, min_int, max_int. intros Hz.
  rewrite Z.mod_small; lia.
Qed.

Lemma wrap_add_l (a b : Z) : wrap (wrap a + b) = wrap (a + b).
Proof.
  unfold wrap. f_equal.
  replace ((a + 2 ^ 63) mod 2 ^ 64 - 2 ^ 63 + b + 2 ^ 63)
    with ((a + 2 ^ 63) mod 2 ^ 64 + b) by lia.
  rewrite Zplus_mod_idemp_l. f_equal. lia.
Qed.

Lemma Atoi_range (s : string) (n : Z) :
  Atoi s = Some n → min_int ≤ n ≤ max_int.
Proof.
  unfold Atoi.
  destruct (match s with
            | String "-" r => (true, r)
            | String "+" r => (false, r)
            | _ => (false, s)
            end) as [neg body].
  destruct body; [done|].
  destruct (digits _ 0) as [m|]; [|done].
  destruct (_ && _) eqn:Hb; [|done].
  intros [= <-]. apply andb_true_iff in Hb as [?%Z.leb_le ?%Z.leb_le]. lia.
Qed.

Lemma digit_range (a : ascii) (d : Z) : digit a = Some d → 48 ≤ byte a ≤ 57.
Proof.
  unfold digit. destruct (_ && _) eqn:Hb; [|done]. intros _.
  apply andb_true_iff in Hb as [?%Z.leb_le ?%Z.leb_le]. done.
Qed.

Lemma blank_visible (a : ascii) (r : string) :
  33 ≤ byte a ≤ 127 → blank (String a r) = false.
Proof.
  intros Ha. cbn [blank].
  assert (∀ k, k < 33 ∨ 127 < k → (byte a =? k) = false) as Hne.
  { intros k Hk. apply Z.eqb_neq. lia. }
  rewrite !Hne by lia. cbn.
  destruct r as [|b [|c r2]]; reflexivity.
Qed.

Lemma Atoi_not_blank (s : string) (n : Z) : Atoi s = Some n → blank s = false.
Proof.
  destruct s as [|a r]; [done|]. intros H. apply blank_visible.
  destruct (decide (a = "-"%char)) as [->|?]; [by vm_compute|].
  destruct (decide (a = "+"%char)) as [->|?]; [by vm_compute|].
  assert (∃ d, digit a = Some d) as [d Hd%digit_range]; [|lia].
  unfold Atoi in H.
  assert (match String a r with
          | String "-" r => (true, r)
          | String "+" r => (false, r)
          | _ => (false, String a r)
          end = (false, String a r)) as Hs.
  { destruct a as [[] [] [] [] [] [] [] []]; done. }
  rewrite Hs in H. cbn [digits] in H.
  destruct (digit a); [eauto|done].
Qed.

Lemma digits_no_colon (s : string) (acc n : Z) :
  digits s acc = Some n → containsColon s = false.
Proof.
  revert acc. induction s as [|a s IH]; intros acc; cbn [digits containsColon]; [done|].
  destruct (digit a) as [d|] eqn:Hd; [|done]. intros H.
  rewrite (IH _ H), orb_false_r. apply digit_range in Hd.
  destruct (Ascii.eqb_spec a ":") as [->|]; [|done].
  change (byte ":") with 58 in Hd. lia.
Qed.

Lemma Atoi_no_colon (s : string) (n : Z) : Atoi s = Some n → containsColon s = false.
Proof.
  unfold Atoi.
  destruct s as [|a r]; [done|].
  destruct (decide (a = "-"%char)) as [->|?].
  { cbn. destruct r; [done|]. destruct (digits _ 0) eqn:Hd; [|done].
    intros _. by eapply digits_no_colon. }
  destruct (decide (a = "+"%char)) as [->|?].
  { cbn. destruct r; [done|]. destruct (digits _ 0) eqn:Hd; [|done].
    intros _. by eapply digits_no_colon. }
  assert (match String a r with
          | String "-" r => (true, r)
          | String "+" r => (false, r)
          | _ => (false, String a r)
          end = (false, String a r)) as ->.
  { destruct a as [[] [] [] [] [] [] [] []]; done. }
  destruct (digits _ 0) eqn:Hd; [|done]. intros _. by eapply digits_no_colon.
Qed.

Lemma append_snoc (tok : string) (ch : ascii) (rest : string) :
  (tok +:+ String ch "") +:+ rest = tok +:+ String ch rest.
Proof.
  induction tok as [|a tok IH]; [done|].
  change (String a ((tok +:+ String ch "") +:+ rest) = String a (tok +:+ String ch rest)).
  by rewrite IH.
Qed.

Lemma append_empty (s : string) : s +:+ "" = s.
Proof.
  induction s as [|a s IH]; [done|].
  change (String a (s +:+ "") = String a s). by rewrite IH.
Qed.

Lemma splitColon_no_colon (s cur : string) :
  containsColon s = false → splitColon s cur = [cur +:+ s].
Proof.
  revert cur. induction s as [|a s IH]; intros cur; cbn [splitColon containsColon].
  - intros _. by rewrite append_empty.
  - intros [Ha Hs]%orb_false_iff. rewrite Ha, IH by done.
    by rewrite append_snoc.
Qed.

(** ** Indexing and cells *)

Lemma index_Some {A : Type} (l : list A) (i : Z) (a : A) :
  0 ≤ i → l !! Z.to_nat i = Some a → index l i = Ret a.
Proof.
  intros Hi Hl. unfold index.
  assert (Z.to_nat i < length l)%nat by (by eapply lookup_lt_Some).
  replace ((0 <=? i) && (i <? Z.of_nat (length l))) with true.
  - by rewrite Hl.
  - symmetry. apply andb_true_iff. split; [apply Z.leb_le|apply Z.ltb_lt]; lia.
Qed.

Lemma index_out {A : Type} (l : list A) (i : Z) :
  i < 0 ∨ Z.of_nat (length l) ≤ i → index l i = Panic IndexOutOfRange.
Proof.
  intros Hi. unfold index.
  replace ((0 <=? i) && (i <? Z.of_nat (length l))) with false; [done|].
  symmetry. apply andb_false_iff.
  destruct Hi; [left; apply Z.leb_gt|right; apply Z.ltb_ge]; lia.
Qed.

Lemma index_replicate {A : Type} (n : nat) (x : A) (i : Z) :
  0 ≤ i < Z.of_nat n → index (replicate n x) i = Ret x.
Proof.
  intros Hi. apply index_Some; [lia|].
  apply lookup_replicate_2. lia.
Qed.

Lemma index_head {A : Type} (x : A) (l : list A) : index (x :: l) 0 = Ret x.
Proof. by apply index_Some. Qed.

Lemma index_second {A : Type} (x y : A) (l : list A) : index (x :: y :: l) 1 = Ret y.
Proof. by apply index_Some. Qed.

Lemma index_inv {A : Type} (l : list A) (i : Z) (a : A) :
  index l i = Ret a → 0 ≤ i ∧ l !! Z.to_nat i = Some a.
Proof.
  unfold index. destruct (_ && _) eqn:Hb; [|done].
  apply andb_true_iff in Hb as [?%Z.leb_le _].
  destruct (l !! Z.to_nat i); [|done]. by intros [= ->].
Qed.

Lemma cellAt_inv (r c : Z) (s s' : SpreadSheet) (x : Cell) :
  cellAt r c s = (Ret x, s') →
  s' = s ∧ 0 ≤ r ∧ 0 ≤ c ∧
  ∃ rw, cells s !! Z.to_nat r = Some rw ∧ rw !! Z.to_nat c = Some x.
Proof.
  unfold cellAt. intros [= Hx <-].
  destruct (index (cells s) r) as [rw|] eqn:Hr; [|done]. cbn in Hx.
  apply index_inv in Hr as [? ?], Hx as [? ?]. eauto 10.
Qed.

Lemma cellAt_lookup (r c : Z) (s : SpreadSheet) (rw : list Cell) (x : Cell) :
  0 ≤ r → 0 ≤ c →
  cells s !! Z.to_nat r = Some rw → rw !! Z.to_nat c = Some x →
  cellAt r c s = (Ret x, s).
Proof.
  intros Hr0 Hc0 Hr Hc. unfold cellAt.
  rewrite (index_Some _ _ _ Hr0 Hr). cbn. by rewrite (index_Some _ _ _ Hc0 Hc).
Qed.

Lemma updCell_cellAt (r c : Z) (f : Cell → Cell) (s : SpreadSheet) (x : Cell) :
  cellAt r c s = (Ret x, s) →
  ∃ s', updCell r c f s = (Ret (), s') ∧ cellAt r c s' = (Ret (f x), s').
Proof.
  intros (_ & Hr & Hc & rw & Hrw & Hx)%cellAt_inv.
  unfold updCell.
  rewrite (index_Some _ _ _ Hr Hrw). cbn. rewrite (index_Some _ _ _ Hc Hx). cbn.
  eexists. split; [done|].
  eapply cellAt_lookup; [done..| |]; cbn [cells].
  - apply list_lookup_insert_eq. by eapply lookup_lt_Some.
  - apply list_lookup_insert_eq. by eapply lookup_lt_Some.
Qed.

Lemma lookupCell_Some s r c x :
  lookupCell s r c = Some x ↔ cellAt r c s = (Ret x, s).
Proof.
  unfold lookupCell. split.
  - destruct (cellAt r c s) as [[y|p] s'] eqn:H; [|done].
    intros [= ->]. by apply cellAt_inv in H as H'; destruct H' as [-> _].
  - by intros ->.
Qed.

Lemma lookupCell_None s r c :
  lookupCell s r c = None ↔ cellAt r c s = (Panic IndexOutOfRange, s).
Proof.
  split; [|unfold lookupCell; by intros ->].
  unfold lookupCell, cellAt.
  destruct (index (cells s) r) as [rw|p] eqn:Hr; cbn.
  - destruct (index rw c) as [x|p] eqn:Hc; [done|].
    unfold index in Hc. repeat case_match; by simplify_eq.
  - unfold index in Hr. repeat case_match; by simplify_eq.
Qed.

Lemma lookupCell_nat s r c :
  lookupCell s r c =
  if decide (0 ≤ r ∧ 0 ≤ c)
  then rw ← cells s !! Z.to_nat r; rw !! Z.to_nat c
  else None.
Proof.
  unfold lookupCell, cellAt, index.
  destruct (decide (0 ≤ r ∧ 0 ≤ c)) as [[Hr Hc]|Hn].
  - destruct (Z.leb_spec 0 r); [|lia]. destruct (Z.leb_spec 0 c); [|lia].
    destruct (cells s !! Z.to_nat r) as [rw|] eqn:Hrw; cbn.
    + apply lookup_lt_Some in Hrw as Hlt.
      destruct (Z.ltb_spec r (Z.of_nat (length (cells s)))); [|lia]. cbn.
      destruct (rw !! Z.to_nat c) as [x|] eqn:Hx; cbn.
      * apply lookup_lt_Some in Hx as Hlt'.
        by destruct (Z.ltb_spec c (Z.of_nat (length rw))); [|lia].
      * by destruct (Z.ltb_spec c (Z.of_nat (length rw))).
    + by destruct (Z.ltb_spec r (Z.of_nat (length (cells s)))).
  - destruct (Z.leb_spec 0 r); cbn; [|done].
    destruct (Z.ltb_spec r (Z.of_nat (length (cells s)))); cbn; [|done].
    destruct (cells s !! Z.to_nat r) as [rw|]; cbn; [|done].
    destruct (Z.leb_spec 0 c); [lia|done].
Qed.

Lemma updCell_spec r c f s o s' :
  updCell r c f s = (o, s') →
  (o = Panic IndexOutOfRange ∧ s' = s ∧ lookupCell s r c = None)
  ∨ (∃ x, o = Ret () ∧ lookupCell s r c = Some x
        ∧ ∀ r' c', lookupCell s' r' c' =
                   if decide (r' = r ∧ c' = c) then Some (f x)
                   else lookupCell s r' c').
Proof.
  destruct (lookupCell s r c) as [x|] eqn:Hx.
  - apply lookupCell_Some in Hx as Hx'.
    apply cellAt_inv in Hx' as (_ & Hr & Hc & rw & Hrw & Hrx).
    unfold updCell.
    rewrite (index_Some _ _ _ Hr Hrw). cbn -[lookupCell].
    rewrite (index_Some _ _ _ Hc Hrx). cbn -[lookupCell].
    intros [= <- <-]. right. exists x. split_and!; [done..|].
    intros r' c'. rewrite !lookupCell_nat. cbn [cells].
    apply lookup_lt_Some in Hrw as Hlt. apply lookup_lt_Some in Hrx as Hlt'.
    destruct (decide (0 ≤ r' ∧ 0 ≤ c')) as [[Hr' Hc']|Hn].
    + destruct (decide (r' = r)) as [->|Hne].
      * rewrite list_lookup_insert_eq by done. cbn. rewrite Hrw. cbn.
        destruct (decide (c' = c)) as [->|Hne'].
        -- rewrite list_lookup_insert_eq by done.
           by rewrite decide_True.
        -- rewrite list_lookup_insert_ne by lia.
           by rewrite decide_False by tauto.
      * rewrite list_lookup_insert_ne by lia.
        by rewrite decide_False by tauto.
    + rewrite decide_False; [done|]. intros [-> ->]. tauto.
  - apply lookupCell_None in Hx as Hx'. unfold cellAt in Hx'.
    unfold updCell.
    destruct (index (cells s) r) as [rw|p]; cbn in *.
    + destruct (index rw c) as [y|p]; cbn in *; [done|].
      intros [= <- <-]. left. by simplify_eq.
    + intros [= <- <-]. left. by simplify_eq.
Qed.

Lemma bind_Ret_inv {A B : Type} (m : M A) (f : A → M B) (s s' : SpreadSheet) (b : B) :
  (m ≫= f) s = (Ret b, s') →
  ∃ a s1, m s = (Ret a, s1) ∧ f a s1 = (Ret b, s').
Proof.
  unfold mbind, M_bind. destruct (m s) as [[a|p] s1]; [eauto|done].
Qed.

Lemma cellAt_Ret_inv (r c : Z) (s s' : SpreadSheet) (x : Cell) :
  cellAt r c s = (Ret x, s') → s' = s ∧ lookupCell s r c = Some x.
Proof.
  intros H. assert (s' = s) as -> by (unfold cellAt in H; congruence).
  split; [done|]. by apply lookupCell_Some.
Qed.

(** ** The order of the last loop *)

Lemma short_permutation (l1 l2 : list string) :
  l1 ≡ₚ l2 → (length l2 ≤ 1)%nat → l1 = l2.
Proof.
  intros Hp Hl.
  destruct l2 as [|x [|y l2]]; simpl in Hl; try lia.
  - by apply Permutation_nil_r in Hp.
  - by apply Permutation_singleton_r in Hp.
Qed.

Lemma SetCellValue_loop visit cellId value s :
  SetCellValue visit cellId value s =
  match getCellRowCol cellId with
  | Ret (row, col, None) =>
      match SetCellValue (λ _, []) cellId value s with
      | (Ret _, s') =>
          match cellAt row col s' with
          | (Ret c, _) =>
              (forEach (visit (dependentCells c)) computeCellValue;; mret None) s'
          | (Panic p, s'') => (Panic p, s'')
          end
      | (Panic p, s') => (Panic p, s')
      end
  | _ => SetCellValue (λ _, []) cellId value s
  end.
Proof.
  unfold SetCellValue. run_bind. unfold lift.
  destruct (getCellRowCol cellId) as [[[r c] [e|]]|]; try reflexivity.
  do 5 head_case.
  run_bind.
  match goal with
  | |- match ?x with _ => _ end = _ => destruct x as [[c1|p] s5] eqn:Hc
  end; [|reflexivity].
  assert (s5 = s4) as -> by (unfold cellAt in Hc; congruence).
  cbv [forEach mbind M_bind mret M_ret]. by rewrite Hc.
Qed.

Lemma SetCellValue_order visit cellId value s :
  range_order visit →
  (size (loopKeys cellId value s) ≤ 1)%nat →
  SetCellValue visit cellId value s = SetCellValue elements cellId value s.
Proof.
  intros Hv Hk.
  rewrite (SetCellValue_loop visit), (SetCellValue_loop elements).
  unfold loopKeys, atLoop in Hk.
  destruct (getCellRowCol cellId) as [[[r c] [e|]]|]; try reflexivity.
  destruct (SetCellValue _ cellId value s) as [[o|p] s']; [|reflexivity].
  cbn [snd] in Hk.
  destruct (cellAt r c s') as [[c1|p] s'']; [|reflexivity].
  f_equal. f_equal. apply short_permutation; [apply Hv|].
  exact Hk.
Qed.

Ltac run_call :=
  lazymatch goal with
  | |- runs ?visit ((?c, ?v) :: _) ?s _ =>
      apply (runs_cons visit c v _ s (snd (SetCellValue elements c v s)));
      [ rewrite SetCellValue_order by (try assumption; vm_compute; lia);
        vm_compute; reflexivity | ]
  end.

Ltac one_call :=
  rewrite SetCellValue_order by (try assumption; vm_compute; lia);
  vm_compute; reflexivity.

(** ** Sheet creation *)

(** C9: the column count is clamped to 26 and every cell starts with value
    0, no formula and no dependents; no other cell can be indexed. *)
Theorem CreateSpreadSheet_clamps (numRows numCols : Z) :
  0 ≤ numRows → 0 ≤ numCols →
  ∃ s, CreateSpreadSheet numRows numCols = Ret s
    ∧ Z.of_nat (length (cells s)) = numRows
    ∧ (∀ rw, rw ∈ cells s → Z.of_nat (length rw) = Z.min numCols 26)
    ∧ (∀ i j, 0 ≤ i < numRows → 0 ≤ j < Z.min numCols 26 →
         cellAt i j s = (Ret (mkCell ∅ 0 None), s))
    ∧ (∀ i j, ¬ (0 ≤ i < numRows ∧ 0 ≤ j < Z.min numCols 26) →
         cellAt i j s = (Panic IndexOutOfRange, s)).
Proof.
  intros Hr Hc. unfold CreateSpreadSheet.
  destruct (Z.ltb_spec numRows 0) as [?|_]; [lia|].
  set (n := if numCols >? 26 then 26 else numCols).
  assert (n = Z.min numCols 26) as Hn.
  { unfold n. destruct (Z.gtb_spec numCols 26); lia. }
  destruct (Z.ltb_spec n 0) as [?|_]; [lia|].
  rewrite andb_false_r. eexists. split; [reflexivity|]. cbn [cells].
  rewrite <- Hn. split_and!.
  - rewrite length_replicate. lia.
  - intros rw [-> _]%elem_of_replicate. rewrite length_replicate. lia.
  - intros i j Hi Hj. unfold cellAt. cbn [cells].
    rewrite index_replicate by lia. cbn.
    by rewrite index_replicate by lia.
  - intros i j Hij. unfold cellAt. cbn [cells].
    destruct (decide (0 ≤ i < numRows)) as [Hi|Hi].
    + rewrite index_replicate by lia. cbn.
      rewrite index_out; [done|]. rewrite length_replicate. lia.
    + rewrite index_out; [done|]. rewrite length_replicate. lia.
Qed.

Lemma CreateSpreadSheet_clamps_witness :
  ∃ s, CreateSpreadSheet 3 30 = Ret s
    ∧ Z.of_nat (length (cells s)) = 3
    ∧ (∀ rw, rw ∈ cells s → Z.of_nat (length rw) = Z.min 30 26)
    ∧ (∀ i j, 0 ≤ i < 3 → 0 ≤ j < Z.min 30 26 →
         cellAt i j s = (Ret (mkCell ∅ 0 None), s))
    ∧ (∀ i j, ¬ (0 ≤ i < 3 ∧ 0 ≤ j < Z.min 30 26) →
         cellAt i j s = (Panic IndexOutOfRange, s)).
Proof. apply (CreateSpreadSheet_clamps 3 30); lia. Defined.

Lemma CreateSpreadSheet_3_3 :
  CreateSpreadSheet 3 3 = Ret sheet33 ∧ CreateSpreadSheet 3 4 = Ret sheet34.
Proof. split; reflexivity. Qed.

(** ** Cell identifiers *)

Lemma getCellRowCol_letter (c0 : ascii) (rest : string) (n : Z) :
  byte "A" ≤ byte c0 ≤ byte "Z" → Atoi rest = Some n →
  getCellRowCol (String c0 rest) = Ret (sub_int n 1, byte c0 - byte "A", None).
Proof.
  intros Hc Hn. unfold getCellRowCol. rewrite Hn.
  change (byte "A") with 65 in *. change (byte "Z") with 90 in *.
  unfold sub_uint8. rewrite Z.mod_small by lia.
  destruct (Z.ltb_spec (byte c0 - 65) 0); [lia|].
  destruct (Z.geb_spec (byte c0 - 65) 26); [lia|]. done.
Qed.

Lemma getCellRowCol_range (cellId : string) (r c : Z) (e : option error) :
  getCellRowCol cellId = Ret (r, c, e) →
  min_int ≤ r ≤ max_int ∧ -1 ≤ c ≤ 25.
Proof.
  unfold getCellRowCol. destruct cellId as [|c0 rest]; [done|].
  assert (min_int ≤ -1 ≤ max_int) by (unfold min_int, max_int; lia).
  destruct (_ || _) eqn:Hb.
  { intros [= <- <- <-]. lia. }
  apply orb_false_iff in Hb as [_ Hb].
  destruct (Z.geb_spec (sub_uint8 (byte c0) (byte "A")) 26); [done|].
  assert (0 ≤ sub_uint8 (byte c0) (byte "A")).
  { unfold sub_uint8. apply Z.mod_pos_bound. lia. }
  destruct (Atoi rest); intros [= <- <- <-]; [|lia].
  split; [apply wrap_range|lia].
Qed.

Lemma getCellRowCol_error (cellId : string) (r c : Z) (e : error) :
  getCellRowCol cellId = Ret (r, c, Some e) →
  r = -1 ∧ c = -1 ∧ InvalidCellId e.
Proof.
  unfold getCellRowCol, InvalidCellId. destruct cellId as [|c0 rest]; [done|].
  destruct (_ || _); [intros [= <- <- <-]; auto|].
  destruct (Atoi rest); [done|]. intros [= <- <- <-]; auto.
Qed.

Lemma SetCellValue_row_out visit cellId value s r c :
  getCellRowCol cellId = Ret (r, c, None) →
  r < 0 ∨ Z.of_nat (length (cells s)) ≤ r →
  SetCellValue visit cellId value s = (Panic IndexOutOfRange, s).
Proof.
  intros Hid Hr. unfold SetCellValue. run_bind. unfold lift. rewrite Hid.
  run_bind. unfold cellAt. by rewrite index_out.
Qed.

(** C5: an identifier made of a capital letter and the text of an integer
    [n] resolves to row [n - 1] without error whatever [n] is, and
    [SetCellValue] indexes the grid with that row unchecked: when [n <= 0]
    or [n - 1] is not below the number of rows, the call panics with an
    index out of range and returns no error. *)
Theorem SetCellValue_no_bounds_check (c0 : ascii) (rest : string) (n : Z) :
  byte "A" ≤ byte c0 ≤ byte "Z" → Atoi rest = Some n →
  getCellRowCol (String c0 rest) = Ret (sub_int n 1, byte c0 - byte "A", None)
  ∧ (min_int < n → sub_int n 1 = n - 1)
  ∧ ∀ visit value s,
      Z.of_nat (length (cells s)) ≤ max_int →
      n ≤ 0 ∨ Z.of_nat (length (cells s)) ≤ n - 1 →
      SetCellValue visit (String c0 rest) value s = (Panic IndexOutOfRange, s).
Proof.
  intros Hc Hn. pose proof (Atoi_range _ _ Hn) as Hr.
  assert (min_int < n → sub_int n 1 = n - 1) as Hsub.
  { intros ?. unfold sub_int. apply wrap_id. lia. }
  split_and!; [by apply getCellRowCol_letter|done|].
  intros visit value s Hlen Hout.
  eapply SetCellValue_row_out; [by apply getCellRowCol_letter|].
  destruct (decide (n = min_int)) as [->|?].
  - right. by change (sub_int min_int 1) with max_int.
  - rewrite Hsub by lia. lia.
Qed.

Lemma SetCellValue_no_bounds_check_witness :
  getCellRowCol "A0" = Ret (-1, 0, None)
  ∧ SetCellValue elements "A0" "5" sheet33 = (Panic IndexOutOfRange, sheet33)
  ∧ getCellRowCol "A9" = Ret (8, 0, None)
  ∧ SetCellValue elements "A9" "5" sheet33 = (Panic IndexOutOfRange, sheet33).
Proof.
  assert (byte "A" ≤ byte "A" ≤ byte "Z") as Hc by (vm_compute; split; discriminate).
  destruct (SetCellValue_no_bounds_check "A" "0" 0 Hc eq_refl) as (H0 & _ & P0).
  destruct (SetCellValue_no_bounds_check "A" "9" 9 Hc eq_refl) as (H9 & _ & P9).
  split_and!.
  - exact H0.
  - apply P0; [vm_compute; discriminate|lia].
  - exact H9.
  - apply P9; [vm_compute; discriminate|vm_compute; right; discriminate].
Defined.

(** ** Ranges *)

Lemma forRange_seqZ (fuel : nat) (i hi : Z) (body : Z → list CellId) :
  min_int ≤ i → hi < max_int → (Z.to_nat (hi - i + 1) ≤ fuel)%nat →
  forRange fuel i hi body = seqZ i (hi - i + 1) ≫= body.
Proof.
  revert i. induction fuel as [|fuel IH]; intros i Hi Hhi Hf; cbn [forRange].
  - by rewrite seqZ_nil by lia.
  - destruct (Z.leb_spec i hi) as [Hle|Hgt].
    + rewrite seqZ_cons, bind_cons by lia. f_equal.
      assert (add_int i 1 = i + 1) as ->.
      { apply wrap_id. lia. }
      rewrite IH by lia. do 2 f_equal; lia.
    + by rewrite seqZ_nil by lia.
Qed.

Lemma bind_blocks_length {A B : Type} (f : A → list B) (l : list A) (w : nat) :
  (∀ x, x ∈ l → length (f x) = w) →
  length (l ≫= f) = (length l * w)%nat.
Proof.
  induction l as [|x l IH]; intros Hw; [done|].
  rewrite bind_cons, length_app, IH, Hw; [done|set_solver..].
Qed.

Lemma bind_blocks_lookup {A B : Type} (f : A → list B) (l : list A) (w i j : nat) (a : A) :
  (∀ x, x ∈ l → length (f x) = w) →
  l !! i = Some a → (j < w)%nat →
  (l ≫= f) !! (i * w + j)%nat = f a !! j.
Proof.
  revert i. induction l as [|x l IH]; intros i Hw Hi Hj; [done|].
  rewrite bind_cons. destruct i as [|i]; simplify_eq/=.
  - rewrite lookup_app_l; [done|]. rewrite Hw; [done|set_solver].
  - rewrite lookup_app_r; rewrite Hw by set_solver; [|lia].
    replace (w + i * w + j - w)%nat with (i * w + j)%nat by lia.
    apply IH; [set_solver|done..].
Qed.

Lemma rectangle_length (top left bottom right : Z) (sign : string) :
  length (rectangle top left bottom right sign) =
  (Z.to_nat (bottom - top + 1) * Z.to_nat (right - left + 1))%nat.
Proof.
  unfold rectangle.
  rewrite (bind_blocks_length _ _ (Z.to_nat (right - left + 1))).
  - by rewrite length_seqZ.
  - intros r _. rewrite (bind_blocks_length _ _ 1%nat) by done.
    rewrite length_seqZ. lia.
Qed.

Lemma rectangle_row_major (top left bottom right : Z) (sign : string) (i j : Z) :
  0 ≤ i < bottom - top + 1 → 0 ≤ j < right - left + 1 →
  rectangle top left bottom right sign !! Z.to_nat (i * (right - left + 1) + j)
  = Some (mkCellId (top + i) (left + j) sign None).
Proof.
  intros Hi Hj. unfold rectangle.
  replace (Z.to_nat (i * (right - left + 1) + j))
    with (Z.to_nat i * Z.to_nat (right - left + 1) + Z.to_nat j)%nat by nia.
  rewrite (bind_blocks_lookup _ _ (Z.to_nat (right - left + 1)) _ _ (top + i)).
  - replace (Z.to_nat j) with (Z.to_nat j * 1 + 0)%nat by lia.
    rewrite (bind_blocks_lookup _ _ 1%nat _ _ (left + j)); [done|done| |lia].
    apply lookup_seqZ. lia.
  - intros r _. rewrite (bind_blocks_length _ _ 1%nat) by done.
    rewrite length_seqZ. lia.
  - apply lookup_seqZ. lia.
  - lia.
Qed.

Lemma elem_of_rectangle (top left bottom right : Z) (sign : string) (id : CellId) :
  id ∈ rectangle top left bottom right sign ↔
  ∃ r c, id = mkCellId r c sign None ∧ top ≤ r ≤ bottom ∧ left ≤ c ≤ right.
Proof.
  unfold rectangle. rewrite list_elem_of_bind. split.
  - intros (r & (c & ->%list_elem_of_singleton & Hc%elem_of_seqZ)%list_elem_of_bind
              & Hr%elem_of_seqZ).
    exists r, c. split; [done|lia].
  - intros (r & c & -> & Hr & Hc). exists r. split; [|apply elem_of_seqZ; lia].
    apply list_elem_of_bind. exists c.
    split; [apply list_elem_of_singleton; reflexivity|apply elem_of_seqZ; lia].
Qed.

Lemma getCellIdsFromRange_rectangle
    (rangeStr sign c0 c1 : string) (rest : list string)
    (top left bottom right : Z) (e0 e1 : option error) :
  splitColon rangeStr "" = c0 :: c1 :: rest →
  getCellRowCol c0 = Ret (top, left, e0) →
  getCellRowCol c1 = Ret (bottom, right, e1) →
  bottom ≠ max_int →
  getCellIdsFromRange rangeStr sign = Ret (rectangle top left bottom right sign).
Proof.
  intros Hsplit H0 H1 Hb. unfold getCellIdsFromRange.
  destruct (containsColon rangeStr) eqn:Hc; cbn [negb].
  2: { by rewrite splitColon_no_colon in Hsplit. }
  rewrite Hsplit, index_head, index_second. cbn. rewrite H0. cbn. rewrite H1. cbn.
  apply getCellRowCol_range in H0 as [Ht Hl], H1 as [Hbt Hr].
  unfold iterations.
  destruct (Z.eqb_spec bottom max_int) as [?|_]; [done|].
  destruct (Z.eqb_spec right max_int) as [Hm|_].
  { unfold max_int in Hm. lia. }
  cbn. f_equal. rewrite forRange_seqZ by lia.
  unfold rectangle. apply list_bind_ext; [|done].
  intros r. apply forRange_seqZ; unfold min_int, max_int; lia.
Qed.

(** A literal term has the coordinates of A1. *)
Lemma getCellIdsFromRange_literal (tok sign : string) (n : Z) :
  Atoi tok = Some n →
  getCellIdsFromRange tok sign = Ret [mkCellId 0 0 sign (Some n)].
Proof.
  intros Hn. unfold getCellIdsFromRange.
  by rewrite (Atoi_no_colon _ _ Hn), Hn.
Qed.

Lemma scanFormula_unsigned (rest tok sign : string) :
  unsigned rest = true →
  scanFormula rest tok sign = getCellIdsFromRange (tok +:+ rest) sign.
Proof.
  revert tok. induction rest as [|ch rest IH]; intros tok; cbn [scanFormula unsigned].
  - intros _. by rewrite append_empty.
  - intros [Hch Hr]%andb_true_iff. rewrite Hch, IH by done.
    by rewrite append_snoc.
Qed.

(** ** Evaluation *)

Lemma terms_plusRefs (s : SpreadSheet) (ids : list CellId) (v : Z) :
  min_int ≤ v ≤ max_int →
  Forall (plusRef s) ids →
  terms v ids s = (Ret (wrap (v + sumValues s ids)), s).
Proof.
  intros Hv Hids. revert v Hv.
  induction Hids as [|id ids (Hs & Hval & x & Hx) _ IH]; intros v Hv;
    unfold sumValues; cbn [terms foldr].
  - by rewrite Z.add_0_r, wrap_id.
  - run_bind. unfold term. rewrite Hs, Hval, String.eqb_refl.
    run_bind. rewrite Hx. cbv [mret M_ret].
    rewrite IH by apply wrap_range.
    unfold sumValues, valueAt at 2, add_int. rewrite Hx, wrap_add_l.
    do 3 f_equal. lia.
Qed.

Lemma computeCellValue_plusRefs
    (cellId f : string) (s : SpreadSheet) (r c : Z) (x : Cell) (ids : list CellId) :
  getCellRowCol cellId = Ret (r, c, None) →
  cellAt r c s = (Ret x, s) →
  formula x = Some f →
  getCellIdsFromFormula f = Ret ids →
  Forall (plusRef s) ids →
  ∃ s', computeCellValue cellId s = (Ret (), s')
      ∧ cellAt r c s' = (Ret (set_value (wrap (sumValues s ids)) x), s').
Proof.
  intros Hid Hx Hf Hids Hrefs. unfold computeCellValue.
  run_bind. unfold lift. rewrite Hid. run_bind. rewrite Hx, Hf.
  run_bind. rewrite Hids. run_bind.
  rewrite terms_plusRefs by (done || unfold min_int, max_int; lia).
  rewrite Z.add_0_l. by apply updCell_cellAt.
Qed.

(** C8: a range token is split on [":"], its two end points are resolved
    and it expands into one cell reference per cell of the inclusive
    rectangle, row by row, each with the sign of the range; evaluating a
    formula made of one range adds up the stored values of those cells;
    on the fresh 3x3 sheet with A1 = 10, C3 = "=A1:C2" reads 10. *)
Theorem range_expands_and_sums :
  (∀ (rangeStr sign c0 c1 : string) (rest : list string)
     (top left bottom right : Z) (e0 e1 : option error),
     splitColon rangeStr "" = c0 :: c1 :: rest →
     getCellRowCol c0 = Ret (top, left, e0) →
     getCellRowCol c1 = Ret (bottom, right, e1) →
     bottom ≠ max_int →
     getCellIdsFromRange rangeStr sign = Ret (rectangle top left bottom right sign)
     ∧ length (rectangle top left bottom right sign)
       = (Z.to_nat (bottom - top + 1) * Z.to_nat (right - left + 1))%nat
     ∧ ∀ i j, 0 ≤ i < bottom - top + 1 → 0 ≤ j < right - left + 1 →
         rectangle top left bottom right sign
           !! Z.to_nat (i * (right - left + 1) + j)
         = Some (mkCellId (top + i) (left + j) sign None))
  ∧ (∀ (rangeStr cellId c0 c1 : string) (rest : list string) (eq : ascii)
       (top left bottom right : Z) (e0 e1 : option error)
       (s : SpreadSheet) (r c : Z) (x : Cell),
       splitColon rangeStr "" = c0 :: c1 :: rest →
       getCellRowCol c0 = Ret (top, left, e0) →
       getCellRowCol c1 = Ret (bottom, right, e1) →
       bottom ≠ max_int →
       unsigned rangeStr = true →
       (∀ i j, top ≤ i ≤ bottom → left ≤ j ≤ right →
          ∃ y, cellAt i j s = (Ret y, s)) →
       getCellRowCol cellId = Ret (r, c, None) →
       cellAt r c s = (Ret x, s) →
       formula x = Some (String eq rangeStr) →
       ∃ s', computeCellValue cellId s = (Ret (), s')
           ∧ cellAt r c s'
             = (Ret (set_value
                       (wrap (sumValues s (rectangle top left bottom right "+"))) x),
                s'))
  ∧ (∀ visit, range_order visit →
       ∃ s2, runs visit [("A1", "10"); ("C3", "=A1:C2")] sheet33 s2
           ∧ GetCellValue "C3" s2 = (Ret (10, None), s2)).
Proof.
  split_and!.
  - intros * Hsplit H0 H1 Hb. split_and!.
    + by eapply getCellIdsFromRange_rectangle.
    + apply rectangle_length.
    + intros i j. apply rectangle_row_major.
  - intros * Hsplit H0 H1 Hb Hu Hin Hid Hx Hf.
    eapply computeCellValue_plusRefs; [done..| |].
    + unfold getCellIdsFromFormula. rewrite scanFormula_unsigned by done.
      by eapply getCellIdsFromRange_rectangle.
    + apply Forall_forall. intros id (i & j & -> & Hi & Hj)%elem_of_rectangle.
      split_and!; [done..|]. by apply Hin.
  - intros visit Hv. eexists. split.
    + do 2 run_call. apply runs_nil.
    + vm_compute. reflexivity.
Qed.

Lemma range_expands_and_sums_witness :
  getCellIdsFromRange "A1:C2" "+" = Ret (rectangle 0 0 1 2 "+")
  ∧ rectangle 0 0 1 2 "+" !! 4%nat = Some (mkCellId 1 1 "+" None)
  ∧ (∃ s', computeCellValue "C3" sheetC3 = (Ret (), s')
         ∧ cellAt 2 2 s' = (Ret (mkCell ∅ 10 (Some "=A1:C2")), s'))
  ∧ ∃ s2, runs elements [("A1", "10"); ("C3", "=A1:C2")] sheet33 s2
        ∧ GetCellValue "C3" s2 = (Ret (10, None), s2).
Proof.
  destruct range_expands_and_sums as (Hexp & Hsum & Hex).
  destruct (Hexp "A1:C2" "+" "A1" "C2" [] 0 0 1 2 None None) as (Hids & _ & Hnth);
    [reflexivity|reflexivity|reflexivity|discriminate|].
  split_and!.
  - exact Hids.
  - apply (Hnth 1 1); lia.
  - apply (Hsum "A1:C2" "C3" "A1" "C2" [] "="%char 0 0 1 2 None None sheetC3 2 2
             (mkCell ∅ 10 (Some "=A1:C2")));
      [reflexivity|reflexivity|reflexivity|discriminate|reflexivity| |
       reflexivity|vm_compute; reflexivity|reflexivity].
    intros i j Hi Hj.
    assert (i = 0 ∨ i = 1) as [-> | ->] by lia;
      (assert (j = 0 ∨ j = 1 ∨ j = 2) as [-> | [-> | ->]] by lia);
      eexists; vm_compute; reflexivity.
  - apply Hex. intros m. reflexivity.
Defined.

(** ** What a call may change *)

Section Evolves.
Context (K : gset string) (W F : Z → Z → Prop).

#[global] Instance evolves_refl : Reflexive (evolves K W F).
Proof.
  intros s r c. destruct (lookupCell s r c) as [x|]; [|done].
  exists x. done.
Qed.

#[global] Instance evolves_trans : Transitive (evolves K W F).
Proof.
  intros s1 s2 s3 H12 H23 r c. specialize (H12 r c). specialize (H23 r c).
  destruct (lookupCell s1 r c) as [x1|].
  - destruct H12 as (x2 & Hx2 & Hd2 & Hv2 & Hf2). rewrite Hx2 in H23.
    destruct H23 as (x3 & Hx3 & Hd3 & Hv3 & Hf3). exists x3.
    split_and!; [done|..].
    + intros k Hk. by rewrite Hd3, Hd2.
    + intros HW. by rewrite Hv3, Hv2.
    + intros HF. by rewrite Hf3, Hf2.
  - by rewrite H12 in H23.
Qed.

Lemma preserves_ret {A : Type} (a : A) : preserves (evolves K W F) (mret a).
Proof. intros s o s' [= <- <-]. reflexivity. Qed.

Lemma preserves_lift {A : Type} (o : outcome A) : preserves (evolves K W F) (lift o).
Proof. intros s o' s' [= <- <-]. reflexivity. Qed.

Lemma preserves_bind {A B : Type} (m : M A) (f : A → M B) :
  preserves (evolves K W F) m →
  (∀ a, preserves (evolves K W F) (f a)) →
  preserves (evolves K W F) (m ≫= f).
Proof.
  intros Hm Hf s o s'. unfold mbind, M_bind.
  destruct (m s) as [[a|p] s1] eqn:H1.
  - intros H2. etrans; [by eapply Hm|by eapply Hf].
  - intros [= <- <-]. by eapply Hm.
Qed.

Lemma preserves_bind_lift {A B : Type} (o : outcome A) (f : A → M B) :
  (∀ a, o = Ret a → preserves (evolves K W F) (f a)) →
  preserves (evolves K W F) (lift o ≫= f).
Proof.
  intros Hf s o' s'. unfold mbind, M_bind, lift.
  destruct o as [a|p]; [by apply Hf|]. intros [= <- <-]. reflexivity.
Qed.

Lemma preserves_cellAt (r c : Z) : preserves (evolves K W F) (cellAt r c).
Proof. intros s o s' [= _ <-]. reflexivity. Qed.

Lemma preserves_forEach {A : Type} (l : list A) (body : A → M unit) :
  (∀ x, x ∈ l → preserves (evolves K W F) (body x)) →
  preserves (evolves K W F) (forEach l body).
Proof.
  induction l as [|x l IH]; intros Hb; cbn [forEach].
  - apply preserves_ret.
  - apply preserves_bind; [apply Hb, list_elem_of_here|].
    intros _. apply IH. intros y Hy. by apply Hb, list_elem_of_further.
Qed.

(** A write to one cell that respects [K], [W] and [F] there. *)
Lemma preserves_updCell (r c : Z) (f : Cell → Cell) :
  (∀ x k, k ∉ K → k ∈ dependentCells (f x) ↔ k ∈ dependentCells x) →
  (∀ x, ¬ W r c → value (f x) = value x) →
  (∀ x, ¬ F r c → formula (f x) = formula x) →
  preserves (evolves K W F) (updCell r c f).
Proof.
  intros Hd Hv Hf s o s' [(_ & -> & _)|(x & _ & Hx & Hs')]%updCell_spec;
    [reflexivity|].
  intros r' c'. rewrite Hs'.
  destruct (decide (r' = r ∧ c' = c)) as [[-> ->]|Hne].
  - rewrite Hx. exists (f x). auto.
  - destruct (lookupCell s r' c') as [y|]; [|done]. exists y. done.
Qed.

Lemma preserves_deleteDependees (cellId f : string) :
  cellId ∈ K →
  preserves (evolves K W F) (deleteDependees cellId f).
Proof.
  intros HK. unfold deleteDependees. apply preserves_bind; [apply preserves_lift|].
  intros ids. apply preserves_forEach. intros id _.
  apply preserves_updCell; [|done..].
  intros x k Hk. cbn. rewrite elem_of_difference, elem_of_singleton.
  split; [tauto|]. intros ?. split; [done|]. by intros ->.
Qed.

Lemma preserves_addDependees (cellId f : string) :
  cellId ∈ K →
  preserves (evolves K W F) (addDependees cellId f).
Proof.
  intros HK. unfold addDependees. apply preserves_bind; [apply preserves_lift|].
  intros ids. apply preserves_forEach. intros id _.
  apply preserves_updCell; [|done..].
  intros x k Hk. cbn. rewrite elem_of_union, elem_of_singleton.
  split; [|tauto]. intros [?| ->]; done.
Qed.

Lemma preserves_term (acc : Z) (id : CellId) :
  preserves (evolves K W F) (term acc id).
Proof.
  unfold term.
  repeat case_match;
    repeat (apply preserves_bind; [|intros ?]);
    apply preserves_ret || apply preserves_cellAt.
Qed.

Lemma preserves_terms (acc : Z) (ids : list CellId) :
  preserves (evolves K W F) (terms acc ids).
Proof.
  revert acc. induction ids as [|id ids IH]; intros acc; cbn [terms].
  - apply preserves_ret.
  - apply preserves_bind; [apply preserves_term|done].
Qed.

(** A cell is recomputed only where its identifier points, and keeps
    its formula and its dependents. *)
Lemma preserves_computeCellValue (k : string) :
  (∀ r c, names k r c → W r c) →
  preserves (evolves K W F) (computeCellValue k).
Proof.
  intros HW. unfold computeCellValue.
  apply preserves_bind_lift. intros [[r c] [e|]] Hk; [apply preserves_ret|].
  apply preserves_bind; [apply preserves_cellAt|]. intros x.
  assert (∀ v, preserves (evolves K W F) (updCell r c (set_value v))) as Hset.
  { intros v. apply preserves_updCell; [done| |done].
    intros y Hn. destruct Hn. by apply HW. }
  destruct (formula x) as [f|]; [|apply Hset].
  apply preserves_bind; [apply preserves_lift|]. intros ids.
  apply preserves_bind; [apply preserves_terms|]. intros v. apply Hset.
Qed.

(** [SetCellValue] up to its last loop writes the target cell only. *)
Lemma preserves_SetCellValue_prefix (cellId value : string) :
  cellId ∈ K →
  (∀ r c, names cellId r c → W r c ∧ F r c) →
  preserves (evolves K W F) (SetCellValue (λ _, []) cellId value).
Proof.
  intros HK HW. unfold SetCellValue.
  apply preserves_bind_lift. intros [[r c] [e|]] Hk; [apply preserves_ret|].
  destruct (HW r c Hk) as [HWrc HFrc].
  apply preserves_bind; [apply preserves_cellAt|]. intros x.
  apply preserves_bind.
  { destruct (formula x); [by apply preserves_deleteDependees|apply preserves_ret]. }
  intros _. apply preserves_bind.
  { destruct (Atoi _).
    - apply preserves_bind; [|intros _]; apply preserves_updCell;
        try done; intros y Hneg; by destruct Hneg.
    - apply preserves_bind; [|intros _].
      + apply preserves_updCell; try done; intros y Hneg; by destruct Hneg.
      + apply preserves_computeCellValue. intros r' c' Hk'. by apply HW. }
  intros _. apply preserves_bind; [apply preserves_cellAt|]. intros x1.
  apply preserves_bind.
  { destruct (formula x1); [by apply preserves_addDependees|apply preserves_ret]. }
  intros _. apply preserves_bind; [apply preserves_cellAt|]. intros x2.
  apply preserves_bind; [|intros _; apply preserves_ret].
  apply preserves_ret.
Qed.
End Evolves.

Lemma evolves_prefix (cellId value : string) (s s1 : SpreadSheet)
    (o : outcome (option error)) :
  SetCellValue (λ _, []) cellId value s = (o, s1) →
  evolves {[cellId]} (written s cellId) (names cellId) s s1.
Proof.
  apply preserves_SetCellValue_prefix; [by apply elem_of_singleton|].
  intros r c Hk. split; [|done]. exists cellId. auto.
Qed.

(** Frame: a call changes the formula of no cell but the target, the
    value of no cell but the target and the cells its dependents name,
    and in the dependents sets only the key [cellId]; it keeps the shape
    of the sheet.  This holds also when the call panics. *)
Theorem SetCellValue_frame visit (cellId value : string) (s s' : SpreadSheet)
    (o : outcome (option error)) :
  range_order visit →
  SetCellValue visit cellId value s = (o, s') →
  evolves {[cellId]} (written s cellId) (names cellId) s s'.
Proof.
  intros Hv. rewrite SetCellValue_loop.
  destruct (getCellRowCol cellId) as [[[r c] [e|]]|p] eqn:Hk;
    [apply evolves_prefix| |apply evolves_prefix].
  destruct (SetCellValue _ cellId value s) as [[o1|p] s1] eqn:H1;
    [|intros [= <- <-]; by eapply evolves_prefix].
  apply evolves_prefix in H1.
  destruct (cellAt r c s1) as [[x1|p] s2] eqn:Hx1.
  2: { intros [= <- <-]. unfold cellAt in Hx1. by simplify_eq. }
  assert (s2 = s1) as -> by (unfold cellAt in Hx1; congruence).
  intros Hloop. etrans; [exact H1|].
  revert Hloop. apply preserves_bind; [|intros _; apply preserves_ret].
  apply preserves_forEach. intros k Hkin.
  apply preserves_computeCellValue. intros r' c' Hk'.
  exists k. split; [done|].
  rewrite (Hv (dependentCells x1)) in Hkin. apply elem_of_elements in Hkin.
  apply lookupCell_Some in Hx1.
  specialize (H1 r c). destruct (lookupCell s r c) as [x|] eqn:Hx; [|congruence].
  destruct H1 as (x1' & Hx1' & Hsub & _).
  assert (x1' = x1) as -> by congruence.
  destruct (decide (k = cellId)) as [->|Hne]; [by left|right].
  exists r, c, x. split_and!; [done..|].
  apply Hsub; [|done]. by rewrite elem_of_singleton.
Qed.

(** The last loop recomputes the cells its keys name, and nothing else. *)
Lemma loop_evolves (keys : list string) (s s' : SpreadSheet)
    (o : outcome (option error)) :
  (forEach keys computeCellValue;; mret None) s = (o, s') →
  evolves ∅ (λ r c, ∃ k, k ∈ keys ∧ names k r c) nowhere s s'.
Proof.
  apply preserves_bind; [|intros _; apply preserves_ret].
  apply preserves_forEach. intros k Hk.
  apply preserves_computeCellValue. eauto.
Qed.

(** ** Errors of [SetCellValue] *)

Lemma forEach_unit {A : Type} (l : list A) (body : A → M unit) (s s' : SpreadSheet)
    (e : error) :
  (forEach l body;; mret None) s ≠ (Ret (Some e), s').
Proof.
  run_bind. destruct (forEach l body s) as [[[]|p] s'']; [|done].
  cbv [mret M_ret]. congruence.
Qed.

Lemma SetCellValue_error visit (cellId value : string) (s s' : SpreadSheet) (e : error) :
  SetCellValue visit cellId value s = (Ret (Some e), s') →
  getCellRowCol cellId = Ret (-1, -1, Some e) ∧ InvalidCellId e ∧ s' = s.
Proof.
  rewrite SetCellValue_loop.
  destruct (getCellRowCol cellId) as [[[r c] [e'|]]|] eqn:Hid.
  - unfold SetCellValue. run_bind. unfold lift. rewrite Hid.
    cbv [mret M_ret]. intros [= -> ->].
    by apply getCellRowCol_error in Hid as (-> & -> & ?).
  - destruct (SetCellValue _ cellId value s) as [[o|p] s1]; [|done].
    destruct (cellAt r c s1) as [[x|p] s2]; [|done].
    intros H. by apply forEach_unit in H.
  - unfold SetCellValue. run_bind. unfold lift. by rewrite Hid.
Qed.

(** ** Literals and edges *)

(** The writes of a literal: the sheet before them, [sB], and at the last
    loop, [s1]. *)
Lemma SetCellValue_literal_prefix (cellId v : string) (n r c : Z) (s s1 : SpreadSheet)
    (o : option error) :
  names cellId r c →
  Atoi v = Some n →
  SetCellValue (λ _, []) cellId v s = (Ret o, s1) →
  ∃ x sB xB,
    lookupCell s r c = Some x
    ∧ match formula x with
      | Some f => deleteDependees cellId f s = (Ret (), sB)
      | None => sB = s
      end
    ∧ lookupCell sB r c = Some xB
    ∧ lookupCell s1 r c = Some (mkCell (dependentCells xB) n None)
    ∧ evolves ∅ (names cellId) (names cellId) sB s1.
Proof.
  intros Hk Hn H. unfold SetCellValue in H.
  apply bind_Ret_inv in H as ([[r0 c0] e0] & s0 & Hk0 & H).
  unfold lift in Hk0. rewrite Hk in Hk0. injection Hk0 as <- <- <- <-.
  apply bind_Ret_inv in H as (x & s0 & [-> Hx]%cellAt_Ret_inv & H).
  apply bind_Ret_inv in H as ([] & sB & Hdel & H).
  rewrite (Atoi_not_blank _ _ Hn), Hn in H.
  apply bind_Ret_inv in H as ([] & sC & Hw & H).
  assert (evolves ∅ (names cellId) (names cellId) sB sC) as Hev.
  { revert Hw. apply preserves_bind; [|intros _]; apply preserves_updCell;
      try done; intros y Hneg; by destruct Hneg. }
  apply bind_Ret_inv in Hw as ([] & sB1 & Hw1 & Hw2).
  apply updCell_spec in Hw1 as [(? & _)|(xB & _ & HxB & Hs1)]; [done|].
  apply updCell_spec in Hw2 as [(? & _)|(xB1 & _ & HxB1 & Hs2)]; [done|].
  rewrite Hs1, decide_True in HxB1 by done. injection HxB1 as <-.
  assert (lookupCell sC r c = Some (mkCell (dependentCells xB) n None)) as HxC.
  { by rewrite Hs2, decide_True. }
  apply bind_Ret_inv in H as (x1 & s2 & [-> Hx1]%cellAt_Ret_inv & H).
  rewrite HxC in Hx1. injection Hx1 as <-. cbn [formula] in H.
  apply bind_Ret_inv in H as ([] & s2 & [= <-] & H).
  apply bind_Ret_inv in H as (x2 & s2 & [-> Hx2]%cellAt_Ret_inv & H).
  apply bind_Ret_inv in H as ([] & s2 & [= <-] & [= <- <-]).
  exists x, sB, xB. split_and!; [done| |done..].
  destruct (formula x); [done|]. by injection Hdel.
Qed.

(** The literal round trip, where it holds: when none of the dependents
    the last loop visits names the target cell itself, a call with the
    text of an integer [n] that returns leaves [n] and no formula in the
    cell. *)
Theorem SetCellValue_literal visit (cellId v : string) (n r c : Z) (s s' : SpreadSheet)
    (o : option error) :
  range_order visit →
  names cellId r c →
  Atoi v = Some n →
  SetCellValue visit cellId v s = (Ret o, s') →
  (∀ k, k ∈ loopKeys cellId v s → ¬ names k r c) →
  ∃ x', lookupCell s' r c = Some x' ∧ value x' = n ∧ formula x' = None.
Proof.
  intros Hv Hk Hn H Hself. unfold loopKeys, atLoop in Hself.
  rewrite SetCellValue_loop in H. rewrite Hk in H, Hself.
  destruct (SetCellValue _ cellId v s) as [[o1|p] s1] eqn:H1; [|done].
  apply (SetCellValue_literal_prefix _ _ n r c) in H1
    as (x & sB & xB & _ & _ & _ & Hx1 & _); [|done..].
  cbn [snd] in Hself. apply lookupCell_Some in Hx1 as Hc. rewrite Hc in H, Hself.
  apply loop_evolves in H. specialize (H r c). rewrite Hx1 in H.
  destruct H as (x' & Hx' & _ & Hval & Hfor). exists x'.
  split_and!; [done| |apply Hfor; by intros []].
  apply Hval. intros (k & Hkin & Hkk).
  rewrite (Hv _) in Hkin. apply elem_of_elements in Hkin.
  by eapply Hself.
Qed.

(** A loop of writes [f] over the terms of a formula: what [f] sets up
    holds afterwards at the cell of each term. *)
Lemma forEach_updCell_keeps (P : Cell → Prop) (f : Cell → Cell)
    (ids : list CellId) (s s' : SpreadSheet) (r c : Z) :
  (∀ x, P x → P (f x)) →
  forEach ids (λ id, updCell (row id) (col id) f) s = (Ret (), s') →
  (∃ y, lookupCell s r c = Some y ∧ P y) →
  ∃ y, lookupCell s' r c = Some y ∧ P y.
Proof.
  intros HP. revert s. induction ids as [|id ids IH]; intros s H Hy; cbn [forEach] in H.
  { by injection H as <-. }
  apply bind_Ret_inv in H as ([] & s1 & Hu & H). apply (IH s1 H).
  apply updCell_spec in Hu as [(? & _)|(x & _ & Hx & Hs1)]; [done|].
  rewrite Hs1. destruct Hy as (y & Hy & HPy).
  destruct (decide (r = row id ∧ c = col id)) as [[-> ->]|Hne]; [|eauto].
  rewrite Hx in Hy. injection Hy as ->. eauto.
Qed.

Lemma forEach_updCell_sets (P : Cell → Prop) (f : Cell → Cell)
    (ids : list CellId) (s s' : SpreadSheet) (id : CellId) :
  (∀ x, P (f x)) →
  forEach ids (λ id, updCell (row id) (col id) f) s = (Ret (), s') →
  id ∈ ids →
  ∃ y, lookupCell s' (row id) (col id) = Some y ∧ P y.
Proof.
  intros HP. revert s. induction ids as [|id' ids IH]; intros s H Hin.
  { by apply elem_of_nil in Hin. }
  cbn [forEach] in H. apply bind_Ret_inv in H as ([] & s1 & Hu & H).
  apply elem_of_cons in Hin as [->|Hin]; [|by eapply IH].
  apply (forEach_updCell_keeps P f ids s1); [auto|done|].
  apply updCell_spec in Hu as [(? & _)|(x & _ & Hx & Hs1)]; [done|].
  rewrite Hs1, decide_True by done. eauto.
Qed.

Lemma deleteDependees_removes (cellId f : string) (s s' : SpreadSheet)
    (ids : list CellId) (id : CellId) :
  deleteDependees cellId f s = (Ret (), s') →
  getCellIdsFromFormula f = Ret ids →
  id ∈ ids →
  ∃ y, lookupCell s' (row id) (col id) = Some y ∧ cellId ∉ dependentCells y.
Proof.
  unfold deleteDependees. intros H Hids.
  apply bind_Ret_inv in H as (ids' & s0 & Hl & H).
  unfold lift in Hl. rewrite Hids in Hl. injection Hl as <- <-.
  revert H. apply forEach_updCell_sets.
  intros x. cbn. rewrite elem_of_difference, elem_of_singleton. tauto.
Qed.

Lemma addDependees_adds (cellId f : string) (s s' : SpreadSheet)
    (ids : list CellId) (id : CellId) :
  addDependees cellId f s = (Ret (), s') →
  getCellIdsFromFormula f = Ret ids →
  id ∈ ids →
  ∃ y, lookupCell s' (row id) (col id) = Some y ∧ cellId ∈ dependentCells y.
Proof.
  unfold addDependees. intros H Hids.
  apply bind_Ret_inv in H as (ids' & s0 & Hl & H).
  unfold lift in Hl. rewrite Hids in Hl. injection Hl as <- <-.
  revert H. apply forEach_updCell_sets.
  intros x. cbn. rewrite elem_of_union, elem_of_singleton. tauto.
Qed.

(** Replacing a formula by a literal through the identifier [cellId]
    removes the key [cellId] from the dependents of every cell the old
    formula has a term for. *)
Theorem replacement_removes_edges visit (cellId f v : string) (n r c : Z)
    (s s' : SpreadSheet) (x : Cell) (ids : list CellId) (id : CellId)
    (o : option error) :
  range_order visit →
  names cellId r c →
  lookupCell s r c = Some x →
  formula x = Some f →
  getCellIdsFromFormula f = Ret ids →
  Atoi v = Some n →
  SetCellValue visit cellId v s = (Ret o, s') →
  id ∈ ids →
  ∃ y, lookupCell s' (row id) (col id) = Some y ∧ cellId ∉ dependentCells y.
Proof.
  intros Hv Hk Hx Hf Hids Hn H Hin.
  rewrite SetCellValue_loop in H. rewrite Hk in H.
  destruct (SetCellValue _ cellId v s) as [[o1|p] s1] eqn:H1; [|done].
  apply (SetCellValue_literal_prefix _ _ n r c) in H1
    as (x0 & sB & xB & Hx0 & Hdel & _ & Hx1 & Hev1); [|done..].
  rewrite Hx in Hx0. injection Hx0 as <-. rewrite Hf in Hdel.
  destruct (deleteDependees_removes _ _ _ _ _ _ Hdel Hids Hin) as (y & Hy & Hny).
  apply lookupCell_Some in Hx1. rewrite Hx1 in H. apply loop_evolves in H.
  specialize (Hev1 (row id) (col id)). rewrite Hy in Hev1.
  destruct Hev1 as (y1 & Hy1 & Hsub1 & _).
  specialize (H (row id) (col id)). rewrite Hy1 in H.
  destruct H as (y2 & Hy2 & Hsub2 & _). exists y2. split; [done|].
  rewrite Hsub2, Hsub1 by apply not_elem_of_empty. done.
Qed.

(** The writes of a formula: the sheet [sC] before its edges are added. *)
Lemma SetCellValue_formula_prefix (cellId v : string) (r c : Z) (s s1 : SpreadSheet)
    (o : option error) :
  names cellId r c →
  blank v = false →
  Atoi v = None →
  SetCellValue (λ _, []) cellId v s = (Ret o, s1) →
  ∃ sC, addDependees cellId v sC = (Ret (), s1).
Proof.
  intros Hk Hb Hn H. unfold SetCellValue in H.
  apply bind_Ret_inv in H as ([[r0 c0] e0] & s0 & Hk0 & H).
  unfold lift in Hk0. rewrite Hk in Hk0. injection Hk0 as <- <- <- <-.
  apply bind_Ret_inv in H as (x & s0 & [-> Hx]%cellAt_Ret_inv & H).
  apply bind_Ret_inv in H as ([] & sB & Hdel & H).
  rewrite Hb, Hn in H.
  apply bind_Ret_inv in H as ([] & sC & Hw & H).
  apply bind_Ret_inv in Hw as ([] & sB1 & Hw1 & Hw2).
  apply updCell_spec in Hw1 as [(? & _)|(xB & _ & HxB & Hs1)]; [done|].
  assert (evolves ∅ (names cellId) nowhere sB1 sC) as Hev.
  { revert Hw2. by apply preserves_computeCellValue. }
  specialize (Hev r c). rewrite Hs1, decide_True in Hev by done.
  destruct Hev as (xC & HxC & _ & _ & Hfor).
  apply bind_Ret_inv in H as (x1 & s2 & [-> Hx1]%cellAt_Ret_inv & H).
  rewrite HxC in Hx1. injection Hx1 as <-.
  rewrite Hfor in H by (by intros []). cbn [formula set_formula] in H.
  apply bind_Ret_inv in H as ([] & sD & Hadd & H).
  apply bind_Ret_inv in H as (x2 & s2 & [-> Hx2]%cellAt_Ret_inv & H).
  apply bind_Ret_inv in H as ([] & s2 & [= <-] & [= <- <-]).
  eauto.
Qed.

(** Installing a formula through [cellId] puts the key [cellId] in the
    dependents of the cell at the coordinates of every term, literal
    terms included. *)
Theorem formula_adds_edge_per_term visit (cellId v : string) (r c : Z)
    (s s' : SpreadSheet) (ids : list CellId) (id : CellId) (o : option error) :
  range_order visit →
  names cellId r c →
  blank v = false →
  Atoi v = None →
  getCellIdsFromFormula v = Ret ids →
  SetCellValue visit cellId v s = (Ret o, s') →
  id ∈ ids →
  ∃ y, lookupCell s' (row id) (col id) = Some y ∧ cellId ∈ dependentCells y.
Proof.
  intros Hv Hk Hb Hn Hids H Hin.
  rewrite SetCellValue_loop in H. rewrite Hk in H.
  destruct (SetCellValue _ cellId v s) as [[o1|p] s1] eqn:H1; [|done].
  apply (SetCellValue_formula_prefix _ _ r c) in H1 as (sC & Hadd); [|done..].
  destruct (addDependees_adds _ _ _ _ _ _ Hadd Hids Hin) as (y & Hy & Hiny).
  destruct (cellAt r c s1) as [[x1|p] s2]; [|done].
  apply loop_evolves in H. specialize (H (row id) (col id)). rewrite Hy in H.
  destruct H as (y2 & Hy2 & Hsub2 & _). exists y2. split; [done|].
  by rewrite Hsub2 by apply not_elem_of_empty.
Qed.

(** A formula replaced through the spelling that installed it: after
    A1 = "=B1" and A1 = "5" on the fresh sheet, B1 has no dependents, and
    whatever is then written to B1, A1 keeps the value 5 and no formula. *)
Lemma replaced_formula_example visit (v : string) :
  range_order visit →
  ∃ s2, runs visit [("A1", "=B1"); ("A1", "5")] sheet33 s2
      ∧ lookupCell s2 0 1 = Some (mkCell ∅ 0 None)
      ∧ ∀ o s3, SetCellValue visit "B1" v s2 = (o, s3) →
          ∃ x, lookupCell s3 0 0 = Some x ∧ value x = 5 ∧ formula x = None.
Proof.
  intros Hv. eexists. split; [do 2 run_call; apply runs_nil|].
  split; [vm_compute; reflexivity|].
  intros o s3 H. apply (SetCellValue_frame _ _ _ _ _ _ Hv) in H.
  specialize (H 0 0).
  match type of H with
  | match ?l with _ => _ end =>
      change l with (Some (mkCell ∅ 5 None)) in H
  end.
  destruct H as (x & Hx & _ & Hval & Hfor). exists x. split_and!; [done| |].
  - apply Hval. intros (k & Hk & [->|(r & c & y & Hid & Hy & Hin)]).
    + discriminate Hk.
    + injection Hid as <- <-. vm_compute in Hy. injection Hy as <-.
      by apply elem_of_empty in Hin.
  - apply Hfor. intros Hk. discriminate Hk.
Qed.

(** ** Reading a value *)

(** [GetCellValue] only reads. *)
Lemma GetCellValue_reads (cellId : string) (s : SpreadSheet) :
  snd (GetCellValue cellId s) = s.
Proof.
  unfold GetCellValue. run_bind. unfold lift.
  destruct (getCellRowCol cellId) as [[[r c] [e|]]|p]; [done| |done].
  run_bind. unfold theSheet.
  destruct (r >=? _); [done|]. run_bind. unfold lift.
  destruct (index (cells s) 0) as [row0|p]; [|done].
  destruct (c >=? _); [done|]. run_bind. unfold cellAt.
  by destruct (_ ≫= _).
Qed.

(** What [GetCellValue] returns when the identifier resolves and the row
    is not negative. *)
Lemma GetCellValue_checked (cellId : string) (s : SpreadSheet) (r c : Z)
    (e : option error) (row0 : list Cell) :
  getCellRowCol cellId = Ret (r, c, e) →
  cells s !! 0%nat = Some row0 →
  GetCellValue cellId s =
  match e with
  | Some e => (Ret (0, Some e), s)
  | None =>
      if r >=? Z.of_nat (length (cells s)) then (Ret (0, Some RowOutOfBounds), s)
      else if c >=? Z.of_nat (length row0) then (Ret (0, Some ColOutOfBounds), s)
      else match lookupCell s r c with
           | Some x => (Ret (value x, None), s)
           | None => (Panic IndexOutOfRange, s)
           end
  end.
Proof.
  intros Hk H0. unfold GetCellValue. run_bind. unfold lift. rewrite Hk.
  destruct e as [e|]; [done|]. run_bind. unfold theSheet.
  destruct (r >=? _); [done|]. run_bind. unfold lift.
  rewrite (index_Some _ 0 row0) by done.
  destruct (c >=? _); [done|]. run_bind.
  destruct (lookupCell s r c) as [x|] eqn:Hx.
  - apply lookupCell_Some in Hx. by rewrite Hx.
  - apply lookupCell_None in Hx. by rewrite Hx.
Qed.

(** ** Scenarios *)

Lemma cycle_not_rejected : ¬ cycle_rejected elements sheet33.
Proof.
  intros H.
  destruct (H (snd (SetCellValue elements "A1" "=B1" sheet33)))
    as (e & s2 & He & _); [vm_compute; reflexivity|].
  vm_compute in He. discriminate He.
Qed.

Section Scenarios.

Context (visit : gset string → list string) (Hvisit : range_order visit).

(** The outputs [main] prints, as its comments give them:
    10, 0, 10, 20, 10, 50 and 25. *)
Lemma main_prints :
  ∃ s1 s2 s3 s4 s5,
    runs visit [("A1", "10")] sheet33 s1
    ∧ GetCellValue "A1" s1 = (Ret (10, None), s1)
    ∧ GetCellValue "C3" s1 = (Ret (0, None), s1)
    ∧ runs visit [("C3", "=A1:C2")] s1 s2
    ∧ GetCellValue "C3" s2 = (Ret (10, None), s2)
    ∧ runs visit [("C2", "=A1")] s2 s3
    ∧ GetCellValue "C3" s3 = (Ret (20, None), s3)
    ∧ runs visit [("A2", "5"); ("B2", "=A1+A2"); ("C1", "=A1-A2+5")] s3 s4
    ∧ GetCellValue "C1" s4 = (Ret (10, None), s4)
    ∧ GetCellValue "C3" s4 = (Ret (50, None), s4)
    ∧ runs visit [("C3", "25")] s4 s5
    ∧ GetCellValue "C3" s5 = (Ret (25, None), s5).
Proof.
  eexists _, _, _, _, _. split_and!;
    try (repeat run_call; apply runs_nil); vm_compute; reflexivity.
Qed.

(** C1 (the program departs from it): only the direct dependents of the
    changed cell are recomputed.  With B1 = "=A1" and C1 = "=B1", setting
    A1 = 99 updates B1 and leaves C1 at 0, whatever the order of the last
    loop; computing C1 again would give 99.  With D1 = "=C2+1" and
    C2 = "=A1", D1 is among the dependents of A1 only because of its
    literal term, and whether it ends up fresh (100) or stale (1) depends
    on the order in which the two dependents of A1 are visited.  In
    general a call writes no value but those of the target cell and of the
    cells that the target's own dependents name. *)
Theorem dependents_of_dependents_left_stale :
  (∃ s3, runs visit [("B1", "=A1"); ("C1", "=B1"); ("A1", "99")] sheet33 s3
       ∧ GetCellValue "A1" s3 = (Ret (99, None), s3)
       ∧ GetCellValue "B1" s3 = (Ret (99, None), s3)
       ∧ cell s3 "C1" = Some (mkCell ∅ 0 (Some "=B1"))
       ∧ GetCellValue "C1" s3 = (Ret (0, None), s3)
       ∧ ∃ s4, computeCellValue "C1" s3 = (Ret (), s4)
             ∧ GetCellValue "C1" s4 = (Ret (99, None), s4))
  ∧ (∃ s2, runs visit [("D1", "=C2+1"); ("C2", "=A1")] sheet34 s2
         ∧ dependentCells <$> cell s2 "A1" = Some {["C2"; "D1"]}
         ∧ (∃ s3, SetCellValue elements "A1" "99" s2 = (Ret None, s3)
                ∧ GetCellValue "C2" s3 = (Ret (99, None), s3)
                ∧ GetCellValue "D1" s3 = (Ret (100, None), s3))
         ∧ (∃ s3, SetCellValue (reverse ∘ elements) "A1" "99" s2 = (Ret None, s3)
                ∧ GetCellValue "C2" s3 = (Ret (99, None), s3)
                ∧ GetCellValue "D1" s3 = (Ret (1, None), s3)))
  ∧ range_order (reverse ∘ elements)
  ∧ (∀ cellId value s o s',
       SetCellValue visit cellId value s = (o, s') →
       evolves {[cellId]} (written s cellId) (names cellId) s s').
Proof.
  split_and!.
  - eexists. split; [do 3 run_call; apply runs_nil|].
    split_and!; try (vm_compute; reflexivity).
    eexists. split; vm_compute; reflexivity.
  - eexists. split; [do 2 run_call; apply runs_nil|].
    split_and!; [vm_compute; reflexivity|..];
      (eexists; split_and!; vm_compute; reflexivity).
  - intros m. apply reverse_Permutation.
  - intros *. by apply SetCellValue_frame.
Qed.

(** C2, as the program has it: a formula that closes a cycle is installed
    like any other.  After A1 = "=B1", setting B1 = "=A1" returns no
    error; B1 then holds the formula "=A1" and the value 0, and A1 and B1
    are in each other's dependents.  The only errors [SetCellValue]
    returns are those of resolving [cellId], and then the sheet is
    untouched. *)
Theorem cycle_installed :
  (∃ s1 s2, SetCellValue visit "A1" "=B1" sheet33 = (Ret None, s1)
          ∧ cell s1 "B1" = Some (mkCell {["A1"]} 0 None)
          ∧ SetCellValue visit "B1" "=A1" s1 = (Ret None, s2)
          ∧ cell s2 "B1" = Some (mkCell {["A1"]} 0 (Some "=A1"))
          ∧ cell s2 "A1" = Some (mkCell {["B1"]} 0 (Some "=B1")))
  ∧ (∀ cellId value s s' e,
       SetCellValue visit cellId value s = (Ret (Some e), s') →
       getCellRowCol cellId = Ret (-1, -1, Some e) ∧ InvalidCellId e ∧ s' = s).
Proof.
  split.
  - eexists _, _. split_and!; try one_call; vm_compute; reflexivity.
  - intros *. apply SetCellValue_error.
Qed.

(** C3 (the program departs from it): a token that is neither an integer
    nor a cell identifier gets the coordinates (-1, -1), the error of
    [getCellRowCol] being dropped; [SetCellValue] then panics on the index
    -1, after the formula text has been stored, and returns no error.  A
    range whose second end point does not resolve expands to nothing, and
    the call succeeds with the text stored and the value 0.  No error that
    [SetCellValue] returns comes from the value. *)
Theorem unresolved_token_not_reported :
  getCellRowCol "foo" = Ret (-1, -1, Some InvalidCol)
  ∧ getCellIdsFromFormula "=foo" = Ret [mkCellId (-1) (-1) "+" None]
  ∧ (∃ s', SetCellValue visit "A1" "=foo" sheet33 = (Panic IndexOutOfRange, s')
         ∧ cell s' "A1" = Some (mkCell ∅ 0 (Some "=foo")))
  ∧ getCellIdsFromFormula "=A1:zz" = Ret []
  ∧ (∃ s', SetCellValue visit "B1" "=A1:zz" sheet33 = (Ret None, s')
         ∧ cell s' "B1" = Some (mkCell ∅ 0 (Some "=A1:zz")))
  ∧ (∀ cellId value s s' e,
       SetCellValue visit cellId value s = (Ret (Some e), s') →
       getCellRowCol cellId = Ret (-1, -1, Some e)).
Proof.
  split_and!; try reflexivity.
  - eexists. split; [one_call|vm_compute; reflexivity].
  - eexists. split; [one_call|vm_compute; reflexivity].
  - intros * H. by apply SetCellValue_error in H as (? & _).
Qed.

(** C4 (the program departs from it): a literal term is a [CellId] with
    row 0 and column 0, and [addDependees] does not tell it from a
    reference: a call that installs a formula puts its cell among the
    dependents of the cell at the coordinates of every term, so a formula
    with a literal term makes its cell a dependent of A1.  Installing
    "=A2+10" in B1, or "=1+2" in C1, does so although neither formula
    mentions A1. *)
Theorem literal_term_adds_edge_to_A1 :
  (∀ tok sign n,
     Atoi tok = Some n →
     getCellIdsFromRange tok sign = Ret [mkCellId 0 0 sign (Some n)])
  ∧ (∀ cellId v r c s s' ids id o,
       names cellId r c → blank v = false → Atoi v = None →
       getCellIdsFromFormula v = Ret ids →
       SetCellValue visit cellId v s = (Ret o, s') →
       id ∈ ids →
       ∃ y, lookupCell s' (row id) (col id) = Some y ∧ cellId ∈ dependentCells y)
  ∧ getCellIdsFromFormula "=A2+10"
    = Ret [mkCellId 1 0 "+" None; mkCellId 0 0 "+" (Some 10)]
  ∧ (∃ s1, runs visit [("B1", "=A2+10")] sheet33 s1
         ∧ dependentCells <$> cell s1 "A2" = Some {["B1"]}
         ∧ dependentCells <$> cell s1 "A1" = Some {["B1"]})
  ∧ getCellIdsFromFormula "=1+2"
    = Ret [mkCellId 0 0 "+" (Some 1); mkCellId 0 0 "+" (Some 2)]
  ∧ (∃ s1, runs visit [("C1", "=1+2")] sheet33 s1
         ∧ dependentCells <$> cell s1 "A1" = Some {["C1"]}).
Proof.
  split_and!; try reflexivity.
  - intros *. apply getCellIdsFromRange_literal.
  - intros *. by apply formula_adds_edge_per_term.
  - eexists. split; [run_call; apply runs_nil|].
    split; vm_compute; reflexivity.
  - eexists. split; [run_call; apply runs_nil|]. vm_compute; reflexivity.
Qed.

(** C6 (the program departs from it): the dependents are keyed by the
    identifier text of the call, and "A01" names the cell A1.  After
    A01 = "=B1", replacing the formula through A1 = "5" deletes the key
    "A1", so the edge "A01" stays in the dependents of B1; setting B1 then
    recomputes A1, which has no formula, and A1 becomes 0. *)
Theorem edge_survives_under_other_spelling :
  getCellRowCol "A01" = getCellRowCol "A1"
  ∧ ∃ s2 s3, runs visit [("A01", "=B1"); ("A1", "5")] sheet33 s2
           ∧ cell s2 "A1" = Some (mkCell ∅ 5 None)
           ∧ dependentCells <$> cell s2 "B1" = Some {["A01"]}
           ∧ runs visit [("B1", "7")] s2 s3
           ∧ GetCellValue "A1" s3 = (Ret (0, None), s3).
Proof.
  split; [reflexivity|]. eexists _, _. split_and!.
  - do 2 run_call. apply runs_nil.
  - vm_compute. reflexivity.
  - vm_compute. reflexivity.
  - run_call. apply runs_nil.
  - vm_compute. reflexivity.
Qed.

(** C10 (the program departs from it): after A01 = "=A1" the cell A1 is
    its own dependent under the key "A01".  Setting A1 = "7" stores 7 and
    clears the formula, then the last loop recomputes A1, which has no
    formula any more, and sets it to 0: the read that follows returns 0. *)
Theorem literal_lost_under_other_spelling :
  Atoi "7" = Some 7
  ∧ ∃ s1 s2, runs visit [("A01", "=A1")] sheet33 s1
           ∧ GetCellValue "A1" s1 = (Ret (0, None), s1)
           ∧ SetCellValue visit "A1" "7" s1 = (Ret None, s2)
           ∧ cell s2 "A1" = Some (mkCell {["A01"]} 0 None)
           ∧ GetCellValue "A1" s2 = (Ret (0, None), s2).
Proof.
  split; [reflexivity|]. eexists _, _. split_and!.
  - run_call. apply runs_nil.
  - vm_compute. reflexivity.
  - one_call.
  - vm_compute. reflexivity.
  - vm_compute. reflexivity.
Qed.

End Scenarios.

(** C7 (the program departs from it): [GetCellValue] checks the row and
    the column against the upper bounds only.  "A0" resolves to row -1,
    passes both checks and the indexing panics; the empty identifier
    panics in [getCellRowCol]. *)
Theorem GetCellValue_panics :
  getCellRowCol "A0" = Ret (-1, 0, None)
  ∧ GetCellValue "A0" sheet33 = (Panic IndexOutOfRange, sheet33)
  ∧ GetCellValue "" sheet33 = (Panic IndexOutOfRange, sheet33).
Proof. split_and!; reflexivity. Qed.

(** ** The scenarios in the order of [elements] *)

Lemma dependents_of_dependents_left_stale_witness :
  ∃ s3, runs elements [("B1", "=A1"); ("C1", "=B1"); ("A1", "99")] sheet33 s3
      ∧ GetCellValue "B1" s3 = (Ret (99, None), s3)
      ∧ GetCellValue "C1" s3 = (Ret (0, None), s3).
Proof.
  destruct (dependents_of_dependents_left_stale elements)
    as ((s3 & Hruns & _ & HB & _ & HC & _) & _).
  - intros m. reflexivity.
  - exists s3. auto.
Defined.

Lemma cycle_installed_witness :
  (∃ s1 s2, SetCellValue elements "A1" "=B1" sheet33 = (Ret None, s1)
          ∧ cell s1 "B1" = Some (mkCell {["A1"]} 0 None)
          ∧ SetCellValue elements "B1" "=A1" s1 = (Ret None, s2)
          ∧ cell s2 "B1" = Some (mkCell {["A1"]} 0 (Some "=A1"))
          ∧ cell s2 "A1" = Some (mkCell {["B1"]} 0 (Some "=B1")))
  ∧ getCellRowCol "a1" = Ret (-1, -1, Some InvalidCol).
Proof.
  assert (range_order elements) as Hv by (intros m; reflexivity).
  split.
  - apply (proj1 (cycle_installed elements Hv)).
  - apply (proj2 (cycle_installed elements Hv) "a1" "5" sheet33 sheet33 InvalidCol).
    reflexivity.
Defined.

Lemma unresolved_token_not_reported_witness :
  ∃ s', SetCellValue elements "A1" "=foo" sheet33 = (Panic IndexOutOfRange, s')
      ∧ cell s' "A1" = Some (mkCell ∅ 0 (Some "=foo")).
Proof.
  destruct (unresolved_token_not_reported elements) as (_ & _ & H & _).
  - intros m. reflexivity.
  - exact H.
Defined.

Lemma literal_term_adds_edge_to_A1_witness :
  ∃ s1, runs elements [("B1", "=A2+10")] sheet33 s1
      ∧ dependentCells <$> cell s1 "A2" = Some {["B1"]}
      ∧ dependentCells <$> cell s1 "A1" = Some {["B1"]}.
Proof.
  destruct (literal_term_adds_edge_to_A1 elements) as (_ & _ & _ & H & _).
  - intros m. reflexivity.
  - exact H.
Defined.

Lemma edge_survives_under_other_spelling_witness :
  ∃ s2 s3, runs elements [("A01", "=B1"); ("A1", "5")] sheet33 s2
         ∧ cell s2 "A1" = Some (mkCell ∅ 5 None)
         ∧ dependentCells <$> cell s2 "B1" = Some {["A01"]}
         ∧ runs elements [("B1", "7")] s2 s3
         ∧ GetCellValue "A1" s3 = (Ret (0, None), s3).
Proof.
  apply (edge_survives_under_other_spelling elements). intros m. reflexivity.
Defined.

Lemma literal_lost_under_other_spelling_witness :
  ∃ s1 s2, runs elements [("A01", "=A1")] sheet33 s1
         ∧ GetCellValue "A1" s1 = (Ret (0, None), s1)
         ∧ SetCellValue elements "A1" "7" s1 = (Ret None, s2)
         ∧ cell s2 "A1" = Some (mkCell {["A01"]} 0 None)
         ∧ GetCellValue "A1" s2 = (Ret (0, None), s2).
Proof.
  apply (literal_lost_under_other_spelling elements). intros m. reflexivity.
Defined.

(** * Further properties *)

(** ** Cell identifiers, byte by byte *)

Lemma byte_range (a : ascii) : 0 ≤ byte a < 256.
Proof.
  unfold byte. pose proof (N_ascii_bounded a). lia.
Qed.

Lemma Atoi_body (a : ascii) (r : string) :
  a ≠ "-"%char → a ≠ "+"%char →
  Atoi (String a r) =
  match digits (String a r) 0 with
  | None => None
  | Some n => if (min_int <=? n) && (n <=? max_int) then Some n else None
  end.
Proof.
  intros Hm Hp. unfold Atoi.
  assert (match String a r with
          | String "-" r => (true, r)
          | String "+" r => (false, r)
          | _ => (false, String a r)
          end = (false, String a r)) as ->; [|done].
  destruct a as [[] [] [] [] [] [] [] []]; done.
Qed.

Lemma digit_not_sign (a : ascii) (d : Z) :
  digit a = Some d → a ≠ "-"%char ∧ a ≠ "+"%char.
Proof.
  intros Hd%digit_range. split; intros ->.
  - change (byte "-") with 45 in Hd. lia.
  - change (byte "+") with 43 in Hd. lia.
Qed.

Lemma digits_nonneg (s : string) (acc n : Z) :
  0 ≤ acc → digits s acc = Some n → 0 ≤ n.
Proof.
  revert acc. induction s as [|a s IH]; intros acc Hacc; cbn [digits].
  - by intros [= <-].
  - destruct (digit a) as [d|] eqn:Hd; [|done].
    apply IH. unfold digit in Hd. destruct (_ && _) eqn:Hb; [|done].
    apply andb_true_iff in Hb as [?%Z.leb_le ?%Z.leb_le]. injection Hd as <-. lia.
Qed.

(** X1: an identifier resolves without error exactly when its first byte
    is a capital letter and the rest is the text of an integer [n]; it
    then names row [n - 1] (on 64 bits) and the column of the letter.  Any
    other first byte gives (-1, -1) and the column error, a letter
    followed by anything else (-1, -1) and the row error, and the empty
    identifier panics. *)
Theorem getCellRowCol_capital_and_integer (c0 : ascii) (rest : string) :
  getCellRowCol (String c0 rest) =
  (if decide (byte "A" ≤ byte c0 ≤ byte "Z") then
     match Atoi rest with
     | Some n => Ret (sub_int n 1, byte c0 - byte "A", None)
     | None => Ret (-1, -1, Some InvalidRow)
     end
   else Ret (-1, -1, Some InvalidCol))
  ∧ getCellRowCol "" = Panic IndexOutOfRange.
Proof.
  split; [|done].
  destruct (decide _) as [Hc|Hc].
  - destruct (Atoi rest) as [n|] eqn:Hn; [by apply getCellRowCol_letter|].
    unfold getCellRowCol. rewrite Hn.
    change (byte "A") with 65 in *. change (byte "Z") with 90 in *.
    unfold sub_uint8. rewrite Z.mod_small by lia.
    destruct (Z.ltb_spec (byte c0 - 65) 0); [lia|].
    destruct (Z.geb_spec (byte c0 - 65) 26); [lia|]. done.
  - unfold getCellRowCol.
    change (byte "A") with 65 in *. change (byte "Z") with 90 in *.
    pose proof (byte_range c0) as Hb. unfold sub_uint8.
    destruct (Z.ltb_spec ((byte c0 - 65) mod 256) 0) as [|_]; [done|].
    destruct (Z.geb_spec ((byte c0 - 65) mod 256) 26) as [|Hlt]; [done|].
    exfalso. apply Hc.
    destruct (decide (65 ≤ byte c0)) as [?|?].
    + rewrite Z.mod_small in Hlt by lia. lia.
    + replace ((byte c0 - 65) mod 256) with (byte c0 - 65 + 256) in Hlt; [lia|].
      apply (Z.mod_unique _ _ (-1)); lia.
Qed.

(** X2: identifiers are not unique names.  A zero or a plus sign put in
    front of a row number that starts with a digit gives an identifier
    with the same outcome of [getCellRowCol]: the same cell, or the same
    error. *)
Theorem padded_identifier_same_cell (c0 a : ascii) (r : string) (d : Z) :
  digit a = Some d →
  getCellRowCol (String c0 (String "0" (String a r))) = getCellRowCol (String c0 (String a r))
  ∧ getCellRowCol (String c0 (String "+" (String a r))) = getCellRowCol (String c0 (String a r)).
Proof.
  intros Hd. destruct (digit_not_sign _ _ Hd) as [Hm Hp].
  assert (Atoi (String "0" (String a r)) = Atoi (String a r)) as H0.
  { rewrite !Atoi_body by done. reflexivity. }
  assert (Atoi (String "+" (String a r)) = Atoi (String a r)) as H1.
  { rewrite (Atoi_body a) by done. reflexivity. }
  unfold getCellRowCol. by rewrite H0, H1.
Qed.

Lemma padded_identifier_same_cell_witness :
  getCellRowCol "A01" = getCellRowCol "A1"
  ∧ getCellRowCol "A+1" = getCellRowCol "A1".
Proof. apply (padded_identifier_same_cell "A" "1" "" 1). reflexivity. Defined.

(** ** The terms of a formula *)

Lemma unsigned_append (s t : string) :
  unsigned (s +:+ t) = unsigned s && unsigned t.
Proof.
  induction s as [|a s IH]; [done|].
  change (unsigned (String a (s +:+ t)) = unsigned (String a s) && unsigned t).
  cbn [unsigned]. rewrite IH. by rewrite andb_assoc.
Qed.

Lemma splitColon_unsigned (s cur : string) :
  unsigned s = true → unsigned cur = true →
  Forall (λ p, unsigned p = true) (splitColon s cur).
Proof.
  revert cur. induction s as [|a s IH]; intros cur; cbn [splitColon unsigned].
  - intros _ Hc. by apply Forall_singleton.
  - intros [Ha Hs]%andb_true_iff Hc.
    destruct (Ascii.eqb a ":").
    + apply Forall_cons. split; [done|]. by apply IH.
    + apply IH; [done|]. rewrite unsigned_append, Hc. cbn [unsigned].
      by rewrite Ha.
Qed.

Lemma unsigned_head (a : ascii) (r : string) :
  unsigned (String a r) = true → a ≠ "-"%char ∧ a ≠ "+"%char ∧ unsigned r = true.
Proof.
  cbn [unsigned]. intros [[Hp Hm]%andb_true_iff Hr]%andb_true_iff.
  split_and!; [| |done]; intros ->; done.
Qed.

Lemma Atoi_unsigned_nonneg (s : string) (n : Z) :
  unsigned s = true → Atoi s = Some n → 0 ≤ n ≤ max_int.
Proof.
  intros Hu Hn. split; [|by apply Atoi_range in Hn as [_ ?]].
  destruct s as [|a r]; [done|].
  apply unsigned_head in Hu as (Hm & Hp & _).
  rewrite Atoi_body in Hn by done.
  destruct (digits _ 0) as [m|] eqn:Hd; [|done].
  apply digits_nonneg in Hd; [|done].
  destruct (_ && _); [|done]. by injection Hn as <-.
Qed.

(** The coordinates of an identifier without sign. *)
Lemma getCellRowCol_unsigned (k : string) (r c : Z) (e : option error) :
  unsigned k = true → getCellRowCol k = Ret (r, c, e) →
  -1 ≤ r < max_int ∧ -1 ≤ c ≤ 25.
Proof.
  intros Hu Hk. split; [|by apply getCellRowCol_range in Hk as [_ ?]].
  destruct k as [|c0 rest]; [done|].
  apply unsigned_head in Hu as (_ & _ & Hu).
  assert (-1 < max_int) by (unfold max_int; lia).
  unfold getCellRowCol in Hk. destruct (_ || _); [injection Hk as <- <- <-; lia|].
  destruct (Atoi rest) as [n|] eqn:Hn; [|injection Hk as <- <- <-; lia].
  apply Atoi_unsigned_nonneg in Hn; [|done].
  injection Hk as <- <- <-. unfold sub_int. rewrite wrap_id; unfold min_int; lia.
Qed.

Lemma outcome_bind_Ret_inv {A B : Type} (o : outcome A) (k : A → outcome B) (b : B) :
  o ≫= k = Ret b → ∃ a, o = Ret a ∧ k a = Ret b.
Proof. destruct o as [a|p]; [eauto|done]. Qed.

Lemma index_panic {A : Type} (l : list A) (i : Z) (p : fault) :
  index l i = Panic p → p = IndexOutOfRange.
Proof. unfold index. repeat case_match; congruence. Qed.

Lemma getCellRowCol_panic (k : string) (p : fault) :
  getCellRowCol k = Panic p → k = "" ∧ p = IndexOutOfRange.
Proof.
  unfold getCellRowCol. destruct k; [by intros [= <-]|].
  repeat case_match; done.
Qed.

Lemma splitColon_nonempty (s cur : string) : splitColon s cur ≠ [].
Proof.
  revert cur. induction s as [|a s IH]; intros cur; cbn [splitColon]; [done|].
  destruct (Ascii.eqb a ":"); [done|apply IH].
Qed.

Lemma splitColon_two (s cur : string) :
  containsColon s = true → ∃ c0 c1 rest, splitColon s cur = c0 :: c1 :: rest.
Proof.
  revert cur. induction s as [|a s IH]; intros cur; cbn [containsColon splitColon]; [done|].
  destruct (Ascii.eqb a ":"); cbn [orb].
  - intros _. pose proof (splitColon_nonempty s "") as Hne.
    destruct (splitColon s "") as [|c1 rest]; [done|eauto].
  - apply IH.
Qed.

(** The three shapes of what [getCellIdsFromRange] returns. *)
Lemma getCellIdsFromRange_inv (tok sg : string) (ids : list CellId) :
  getCellIdsFromRange tok sg = Ret ids →
  (∃ n, Atoi tok = Some n ∧ ids = [mkCellId 0 0 sg (Some n)])
  ∨ (∃ r c e, Atoi tok = None ∧ getCellRowCol tok = Ret (r, c, e)
            ∧ ids = [mkCellId r c sg None])
  ∨ (∃ c0 c1 rest t l b r e0 e1,
       splitColon tok "" = c0 :: c1 :: rest
       ∧ getCellRowCol c0 = Ret (t, l, e0)
       ∧ getCellRowCol c1 = Ret (b, r, e1)
       ∧ b ≠ max_int
       ∧ ids = rectangle t l b r sg).
Proof.
  intros H. pose proof H as H'. unfold getCellIdsFromRange in H.
  destruct (containsColon tok) eqn:Hc; cbn [negb] in H.
  - right. right.
    destruct (splitColon_two tok "" Hc) as (c0 & c1 & rest & Hs).
    rewrite Hs, index_head in H. cbn [mbind outcome_bind] in H.
    destruct (getCellRowCol c0) as [[[t l] e0]|] eqn:H0; [|done].
    cbn [mbind outcome_bind] in H.
    rewrite index_second in H. cbn [mbind outcome_bind] in H.
    destruct (getCellRowCol c1) as [[[b r] e1]|] eqn:H1; [|done].
    cbn [mbind outcome_bind] in H.
    unfold iterations in H.
    destruct (Z.eqb_spec b max_int) as [|Hb]; [done|].
    exists c0, c1, rest, t, l, b, r, e0, e1. split_and!; [done..|].
    rewrite (getCellIdsFromRange_rectangle _ _ _ _ _ _ _ _ _ _ _ Hs H0 H1 Hb) in H'.
    by injection H'.
  - destruct (Atoi tok) as [n|] eqn:Hn.
    + left. exists n. split; [done|]. by injection H.
    + right. left.
      destruct (getCellRowCol tok) as [[[r c] e]|] eqn:Hk; [|done].
      exists r, c, e. split_and!; [done..|]. by injection H.
Qed.

Lemma getCellIdsFromRange_terms (tok sg : string) (ids : list CellId) (id : CellId) :
  unsigned tok = true →
  getCellIdsFromRange tok sg = Ret ids → id ∈ ids →
  sign id = sg
  ∧ (∀ v, val id = Some v → row id = 0 ∧ col id = 0 ∧ 0 ≤ v ≤ max_int)
  ∧ -1 ≤ row id < max_int ∧ -1 ≤ col id ≤ 25.
Proof.
  intros Hu H Hin. assert (0 < max_int) by (unfold max_int; lia).
  apply getCellIdsFromRange_inv in H
    as [(n & Hn & ->)|[(r & c & e & Hn & Hk & ->)|
        (c0 & c1 & rest & t & l & b & r & e0 & e1 & Hs & Hc0 & Hc1 & Hb & ->)]].
  - apply list_elem_of_singleton in Hin as ->. cbn.
    split_and!; try lia; [done|]. intros v [= <-].
    by apply Atoi_unsigned_nonneg in Hn.
  - apply list_elem_of_singleton in Hin as ->. cbn.
    apply getCellRowCol_unsigned in Hk; [|done]. split_and!; try lia; done.
  - apply elem_of_rectangle in Hin as (i & j & -> & Hi & Hj). cbn.
    pose proof (splitColon_unsigned tok "" Hu eq_refl) as Hp. rewrite Hs in Hp.
    apply Forall_cons in Hp as [Hu0 [Hu1 _]%Forall_cons].
    apply getCellRowCol_unsigned in Hc0, Hc1; [|done..].
    split_and!; try lia; done.
Qed.

Lemma scanFormula_terms (rest tok sg : string) (ids : list CellId) (id : CellId) :
  unsigned tok = true → sg = "+" ∨ sg = "-" →
  scanFormula rest tok sg = Ret ids → id ∈ ids →
  (sign id = "+" ∨ sign id = "-")
  ∧ (∀ v, val id = Some v → row id = 0 ∧ col id = 0 ∧ 0 ≤ v ≤ max_int)
  ∧ -1 ≤ row id < max_int ∧ -1 ≤ col id ≤ 25.
Proof.
  revert tok sg ids. induction rest as [|ch rest IH]; intros tok sg ids Hu Hsg;
    cbn [scanFormula].
  - intros H Hin.
    destruct (getCellIdsFromRange_terms _ _ _ _ Hu H Hin) as (-> & ?). done.
  - destruct (negb (Ascii.eqb ch "+") && negb (Ascii.eqb ch "-")) eqn:Hch.
    + apply IH; [|done]. rewrite unsigned_append, Hu. cbn [unsigned]. by rewrite Hch.
    + intros (ids0 & H0 & (more & H1 & [= <-])%outcome_bind_Ret_inv)%outcome_bind_Ret_inv.
      intros [Hin|Hin]%elem_of_app.
      * destruct (getCellIdsFromRange_terms _ _ _ _ Hu H0 Hin) as (-> & ?). done.
      * revert H1 Hin. apply IH; [done|].
        destruct (Ascii.eqb_spec ch "+") as [->|]; [by left|].
        destruct (Ascii.eqb_spec ch "-") as [->|]; [by right|done].
Qed.

Lemma parsed_signs (f : string) (ids : list CellId) (id : CellId) :
  getCellIdsFromFormula f = Ret ids → id ∈ ids → sign id = "+" ∨ sign id = "-".
Proof.
  destruct f as [|eq f]; [done|]. cbn [getCellIdsFromFormula].
  intros H Hin. by destruct (scanFormula_terms f "" "+" ids id eq_refl (or_introl eq_refl) H Hin).
Qed.

(** X3: every term that [getCellIdsFromFormula] returns has the sign "+"
    or "-"; a literal term has the coordinates (0, 0) and a value that is
    not negative; the row of a term is at least -1 and below the largest
    [int], and its column is between -1 and 25. *)
Theorem getCellIdsFromFormula_terms (f : string) (ids : list CellId) (id : CellId) :
  getCellIdsFromFormula f = Ret ids → id ∈ ids →
  (sign id = "+" ∨ sign id = "-")
  ∧ (∀ v, val id = Some v → row id = 0 ∧ col id = 0 ∧ 0 ≤ v ≤ max_int)
  ∧ -1 ≤ row id < max_int ∧ -1 ≤ col id ≤ 25.
Proof.
  destruct f as [|eq f]; [done|]. cbn [getCellIdsFromFormula].
  apply scanFormula_terms; [done|by left].
Qed.

Lemma getCellIdsFromFormula_terms_witness :
  (sign (mkCellId 0 0 "-" (Some 5)) = "+" ∨ sign (mkCellId 0 0 "-" (Some 5)) = "-")
  ∧ (∀ v, val (mkCellId 0 0 "-" (Some 5)) = Some v →
       row (mkCellId 0 0 "-" (Some 5)) = 0 ∧ col (mkCellId 0 0 "-" (Some 5)) = 0
       ∧ 0 ≤ v ≤ max_int)
  ∧ -1 ≤ row (mkCellId 0 0 "-" (Some 5)) < max_int
  ∧ -1 ≤ col (mkCellId 0 0 "-" (Some 5)) ≤ 25.
Proof.
  apply (getCellIdsFromFormula_terms "=B2-5"
           [mkCellId 1 1 "+" None; mkCellId 0 0 "-" (Some 5)]).
  - reflexivity.
  - apply list_elem_of_further, list_elem_of_here.
Defined.

(** ** The calls return or panic on an index *)

Lemma getCellIdsFromRange_only_index (tok sg : string) (p : fault) :
  unsigned tok = true →
  getCellIdsFromRange tok sg = Panic p → p = IndexOutOfRange.
Proof.
  intros Hu. unfold getCellIdsFromRange.
  destruct (containsColon tok) eqn:Hc; cbn [negb].
  - destruct (splitColon_two tok "" Hc) as (c0 & c1 & rest & Hs).
    pose proof (splitColon_unsigned tok "" Hu eq_refl) as Hp. rewrite Hs in Hp.
    apply Forall_cons in Hp as [Hu0 [Hu1 _]%Forall_cons].
    rewrite Hs, index_head. cbn.
    destruct (getCellRowCol c0) as [[[t l] e0]|] eqn:H0; cbn;
      [|by intros [= <-]; apply getCellRowCol_panic in H0 as [_ ?]].
    rewrite index_second. cbn.
    destruct (getCellRowCol c1) as [[[b r] e1]|] eqn:H1; cbn;
      [|by intros [= <-]; apply getCellRowCol_panic in H1 as [_ ?]].
    apply getCellRowCol_unsigned in H1 as [Hb Hr]; [|done].
    unfold iterations.
    destruct (Z.eqb_spec b max_int) as [|_]; [lia|].
    destruct (Z.eqb_spec r max_int) as [Hm|_]; [unfold max_int in Hm; lia|].
    done.
  - destruct (Atoi tok); [done|].
    destruct (getCellRowCol tok) as [[[r c] e]|] eqn:Hk; cbn; [done|].
    intros [= <-]. by apply getCellRowCol_panic in Hk as [_ ?].
Qed.

Lemma scanFormula_only_index (rest tok sg : string) (p : fault) :
  unsigned tok = true →
  scanFormula rest tok sg = Panic p → p = IndexOutOfRange.
Proof.
  revert tok sg. induction rest as [|ch rest IH]; intros tok sg Hu; cbn [scanFormula].
  - by apply getCellIdsFromRange_only_index.
  - destruct (negb (Ascii.eqb ch "+") && negb (Ascii.eqb ch "-")) eqn:Hch.
    + apply IH. rewrite unsigned_append, Hu. cbn [unsigned]. by rewrite Hch.
    + destruct (getCellIdsFromRange tok sg) as [ids|q] eqn:H0; cbn.
      * destruct (scanFormula rest "" _) as [more|q] eqn:H1; cbn; [done|].
        intros [= <-]. exact (IH "" _ eq_refl H1).
      * intros [= <-]. by eapply getCellIdsFromRange_only_index.
Qed.

Lemma getCellIdsFromFormula_only_index (f : string) (p : fault) :
  getCellIdsFromFormula f = Panic p → p = IndexOutOfRange.
Proof.
  destruct f as [|eq f]; cbn [getCellIdsFromFormula]; [by intros [= <-]|].
  by apply scanFormula_only_index.
Qed.

Lemma only_index_ret {A : Type} (a : A) : only_index (mret a).
Proof. by intros s p s'. Qed.

Lemma only_index_lift {A : Type} (o : outcome A) :
  (∀ p, o = Panic p → p = IndexOutOfRange) → only_index (lift o).
Proof. intros Ho s p s' [= -> _]. by apply Ho. Qed.

Lemma only_index_bind {A B : Type} (m : M A) (f : A → M B) :
  only_index m → (∀ a, only_index (f a)) → only_index (m ≫= f).
Proof.
  intros Hm Hf s p s'. unfold mbind, M_bind.
  destruct (m s) as [[a|q] s1] eqn:H1.
  - apply Hf.
  - intros [= <- <-]. by eapply Hm.
Qed.

Lemma only_index_cellAt (r c : Z) : only_index (cellAt r c).
Proof.
  intros s p s'. unfold cellAt. intros [= H _].
  destruct (index (cells s) r) as [rw|q] eqn:Hr; cbn in H.
  - by eapply index_panic.
  - injection H as <-. by eapply index_panic.
Qed.

Lemma only_index_updCell (r c : Z) (f : Cell → Cell) : only_index (updCell r c f).
Proof.
  intros s p s' H. apply updCell_spec in H as [(H & _)|(? & H & _)]; congruence.
Qed.

Lemma only_index_forEach {A : Type} (l : list A) (body : A → M unit) :
  (∀ x, only_index (body x)) → only_index (forEach l body).
Proof.
  intros Hb. induction l as [|x l IH]; cbn [forEach].
  - apply only_index_ret.
  - by apply only_index_bind.
Qed.

Lemma only_index_terms (acc : Z) (ids : list CellId) : only_index (terms acc ids).
Proof.
  revert acc. induction ids as [|id ids IH]; intros acc; cbn [terms].
  - apply only_index_ret.
  - apply only_index_bind; [|done]. unfold term.
    repeat case_match;
      repeat (apply only_index_bind; [|intros ?]);
      apply only_index_ret || apply only_index_cellAt.
Qed.

Lemma only_index_parse (f : string) : only_index (lift (getCellIdsFromFormula f)).
Proof. apply only_index_lift, getCellIdsFromFormula_only_index. Qed.

Lemma only_index_resolve (k : string) : only_index (lift (getCellRowCol k)).
Proof. apply only_index_lift. intros p H. by apply getCellRowCol_panic in H as [_ ?]. Qed.

Lemma only_index_computeCellValue (k : string) : only_index (computeCellValue k).
Proof.
  unfold computeCellValue. apply only_index_bind; [apply only_index_resolve|].
  intros [[r c] [e|]]; [apply only_index_ret|].
  apply only_index_bind; [apply only_index_cellAt|]. intros x.
  destruct (formula x); [|apply only_index_updCell].
  apply only_index_bind; [apply only_index_parse|]. intros ids.
  apply only_index_bind; [apply only_index_terms|]. intros v.
  apply only_index_updCell.
Qed.

Lemma only_index_dependees (f : string) (g : CellId → Cell → Cell) :
  only_index (cellIds ← lift (getCellIdsFromFormula f);
              forEach cellIds (λ id, updCell (row id) (col id) (g id))).
Proof.
  apply only_index_bind; [apply only_index_parse|]. intros ids.
  apply only_index_forEach. intros id. apply only_index_updCell.
Qed.

Lemma only_index_SetCellValue visit (cellId value : string) :
  only_index (SetCellValue visit cellId value).
Proof.
  unfold SetCellValue. apply only_index_bind; [apply only_index_resolve|].
  intros [[r c] [e|]]; [apply only_index_ret|].
  apply only_index_bind; [apply only_index_cellAt|]. intros x.
  apply only_index_bind.
  { destruct (formula x); [|apply only_index_ret].
    apply (only_index_dependees _ (λ _ c, set_dependentCells (dependentCells c ∖ {[cellId]}) c)). }
  intros _. apply only_index_bind.
  { destruct (Atoi _).
    - apply only_index_bind; [|intros _]; apply only_index_updCell.
    - apply only_index_bind; [apply only_index_updCell|intros _].
      apply only_index_computeCellValue. }
  intros _. apply only_index_bind; [apply only_index_cellAt|]. intros x1.
  apply only_index_bind.
  { destruct (formula x1); [|apply only_index_ret].
    apply (only_index_dependees _ (λ _ c, set_dependentCells (dependentCells c ∪ {[cellId]}) c)). }
  intros _. apply only_index_bind; [apply only_index_cellAt|]. intros x2.
  apply only_index_bind; [|intros _; apply only_index_ret].
  apply only_index_forEach, only_index_computeCellValue.
Qed.

Lemma only_index_GetCellValue (cellId : string) : only_index (GetCellValue cellId).
Proof.
  unfold GetCellValue. apply only_index_bind; [apply only_index_resolve|].
  intros [[r c] [e|]]; [apply only_index_ret|].
  apply only_index_bind; [by intros s p s'|]. intros s0.
  destruct (r >=? _); [apply only_index_ret|].
  apply only_index_bind; [apply only_index_lift, index_panic|]. intros row0.
  destruct (c >=? _); [apply only_index_ret|].
  apply only_index_bind; [apply only_index_cellAt|]. intros x. apply only_index_ret.
Qed.

(** X4: the row loop of [getCellIdsFromRange] never ends when the last
    row is the largest [int], which the end point "A-9223372036854775808"
    gives.  No formula reaches that loop with such a bound, because
    [getCellIdsFromFormula] cuts its tokens at every "-": parsing a
    formula, [SetCellValue] and [GetCellValue] return or panic with an
    index out of range, whatever the sheet and the arguments. *)
Theorem formulas_never_hang :
  getCellIdsFromRange "A1:A-9223372036854775808" "+" = Panic NoTermination
  ∧ (∀ f p, getCellIdsFromFormula f = Panic p → p = IndexOutOfRange)
  ∧ (∀ visit cellId value s p s',
       SetCellValue visit cellId value s = (Panic p, s') → p = IndexOutOfRange)
  ∧ (∀ cellId s p s',
       GetCellValue cellId s = (Panic p, s') → p = IndexOutOfRange).
Proof.
  split_and!.
  - reflexivity.
  - apply getCellIdsFromFormula_only_index.
  - intros visit cellId value. apply only_index_SetCellValue.
  - intros cellId. apply only_index_GetCellValue.
Qed.

(** ** Ranges that hold no cell *)

Lemma rectangle_empty (t l b r : Z) (sg : string) :
  b < t ∨ r < l → rectangle t l b r sg = [].
Proof.
  intros H. apply nil_length_inv. rewrite rectangle_length. destruct H; lia.
Qed.

(** X5: a range whose last row is above its first row, or whose last
    column is left of its first column, expands to no cell at all and no
    error is raised; so does a range whose first end point resolves and
    whose second end point does not. *)
Theorem inverted_range_is_empty
    (tok sg c0 c1 : string) (rest : list string)
    (t l b r : Z) (e0 e1 : option error) :
  splitColon tok "" = c0 :: c1 :: rest →
  getCellRowCol c0 = Ret (t, l, e0) →
  getCellRowCol c1 = Ret (b, r, e1) →
  b ≠ max_int →
  b < t ∨ r < l ∨ (e0 = None ∧ is_Some e1) →
  getCellIdsFromRange tok sg = Ret [].
Proof.
  intros Hs H0 H1 Hb Hinv.
  rewrite (getCellIdsFromRange_rectangle _ _ _ _ _ _ _ _ _ _ _ Hs H0 H1 Hb).
  f_equal. apply rectangle_empty.
  destruct Hinv as [?|[?|[-> [e ->]]]]; [by left|by right|right].
  apply getCellRowCol_error in H1 as (_ & -> & _).
  destruct c0 as [|a c0]; [done|].
  unfold getCellRowCol in H0. destruct (_ || _) eqn:Hc; [done|].
  apply orb_false_iff in Hc as [Hc%Z.ltb_ge _].
  destruct (Atoi c0); [|done]. injection H0 as _ <-. lia.
Qed.

Lemma inverted_range_is_empty_witness :
  getCellIdsFromRange "B2:A1" "+" = Ret []
  ∧ getCellIdsFromRange "A1:zz" "-" = Ret [].
Proof.
  split.
  - apply (inverted_range_is_empty "B2:A1" "+" "B2" "A1" [] 1 1 0 0 None None);
      [reflexivity..|by vm_compute|lia].
  - apply (inverted_range_is_empty "A1:zz" "-" "A1" "zz" [] 0 0 (-1) (-1) None
             (Some InvalidCol)); [reflexivity..|by vm_compute|lia].
Defined.

(** ** The value of a formula *)

Lemma wrap_sub_l (a b : Z) : wrap (wrap a - b) = wrap (a - b).
Proof.
  replace (wrap a - b) with (wrap a + - b) by lia.
  rewrite wrap_add_l. f_equal; lia.
Qed.

Lemma terms_state (acc : Z) (ids : list CellId) (s s' : SpreadSheet) (o : outcome Z) :
  terms acc ids s = (o, s') → s' = s.
Proof.
  revert acc. induction ids as [|id ids IH]; intros acc; cbn [terms].
  - by intros [= _ <-].
  - run_bind. destruct (term acc id s) as [[v|p] s1] eqn:Ht.
    + assert (s1 = s) as ->; [|apply IH].
      unfold term in Ht.
      repeat case_match; try (by injection Ht);
        revert Ht; run_bind; unfold cellAt; repeat case_match; by intros [= _ <-].
    + intros [= _ <-].
      unfold term in Ht.
      repeat case_match; try (by injection Ht);
        revert Ht; run_bind; unfold cellAt; repeat case_match; by intros [= _ <-].
Qed.

Lemma cellAt_by_lookup (r c : Z) (s : SpreadSheet) :
  cellAt r c s =
  match lookupCell s r c with
  | Some x => (Ret x, s)
  | None => (Panic IndexOutOfRange, s)
  end.
Proof.
  destruct (lookupCell s r c) as [x|] eqn:Hx.
  - by apply lookupCell_Some.
  - by apply lookupCell_None.
Qed.

Lemma valueAt_lookup (s : SpreadSheet) (r c : Z) (x : Cell) :
  lookupCell s r c = Some x → valueAt s r c = value x.
Proof. intros Hx%lookupCell_Some. unfold valueAt. by rewrite Hx. Qed.

Lemma term_readable (acc : Z) (id : CellId) (s : SpreadSheet) :
  min_int ≤ acc ≤ max_int → readable s id →
  term acc id s = (Ret (wrap (acc + contribution s id)), s).
Proof.
  intros Hacc Hr. unfold term, contribution, operand, readable, inSheet in *.
  destruct (String.eqb (sign id) "+"); [|destruct (String.eqb (sign id) "-")].
  - destruct (val id) as [v|]; [done|]. destruct Hr as [x Hx]; [done|].
    run_bind. rewrite cellAt_by_lookup, Hx. by rewrite (valueAt_lookup _ _ _ x).
  - destruct (val id) as [v|].
    + by rewrite Z.add_opp_r.
    + destruct Hr as [x Hx]; [done|].
      run_bind. rewrite cellAt_by_lookup, Hx. rewrite (valueAt_lookup _ _ _ x) by done.
      by rewrite Z.add_opp_r.
  - cbv [mret M_ret]. by rewrite Z.add_0_r, wrap_id.
Qed.

Lemma term_unreadable (acc : Z) (id : CellId) (s : SpreadSheet) :
  sign id = "+" ∨ sign id = "-" → val id = None →
  lookupCell s (row id) (col id) = None →
  term acc id s = (Panic IndexOutOfRange, s).
Proof.
  intros Hs Hv Hx. unfold term. rewrite Hv.
  destruct Hs as [-> | ->]; cbn [String.eqb Ascii.eqb]; cbn;
    run_bind; by rewrite cellAt_by_lookup, Hx.
Qed.

Lemma terms_signedSum (acc : Z) (ids : list CellId) (s : SpreadSheet) :
  min_int ≤ acc ≤ max_int → Forall (readable s) ids →
  terms acc ids s = (Ret (wrap (acc + signedSum s ids)), s).
Proof.
  intros Hacc Hids. revert acc Hacc.
  induction Hids as [|id ids Hid _ IH]; intros acc Hacc; cbn [terms signedSum foldr].
  - by rewrite Z.add_0_r, wrap_id.
  - run_bind. rewrite term_readable by done.
    rewrite IH by apply wrap_range. fold (signedSum s ids).
    rewrite wrap_add_l. do 3 f_equal. lia.
Qed.

Lemma terms_unreadable (acc : Z) (ids : list CellId) (id : CellId) (s : SpreadSheet) :
  min_int ≤ acc ≤ max_int →
  (∀ i, i ∈ ids → sign i = "+" ∨ sign i = "-") →
  id ∈ ids → val id = None → lookupCell s (row id) (col id) = None →
  terms acc ids s = (Panic IndexOutOfRange, s).
Proof.
  intros Hacc Hsg Hin Hv Hx. revert acc Hacc.
  induction ids as [|i ids IH]; intros acc Hacc; [by apply elem_of_nil in Hin|].
  cbn [terms]. run_bind.
  assert (readable s i ∨ (val i = None ∧ lookupCell s (row i) (col i) = None)) as [Hr|[Hvi Hxi]].
  { unfold readable, inSheet. destruct (val i); [by left|].
    destruct (lookupCell s (row i) (col i)); [left; eauto|by right]. }
  - rewrite term_readable by done.
    apply elem_of_cons in Hin as [<-|Hin].
    + destruct Hr as [x Hx']; [done|]. congruence.
    + apply IH; [|done|apply wrap_range].
      intros j Hj. apply Hsg. by apply list_elem_of_further.
  - rewrite term_unreadable; [done| |done..]. apply Hsg, list_elem_of_here.
Qed.

Lemma term_ext (acc : Z) (id : CellId) (s s1 : SpreadSheet) :
  (val id = None → lookupCell s1 (row id) (col id) = lookupCell s (row id) (col id)) →
  fst (term acc id s1) = fst (term acc id s).
Proof.
  intros H. unfold term.
  destruct (String.eqb (sign id) "+"); [|destruct (String.eqb (sign id) "-")];
    [| |done];
    (destruct (val id); [done|]); run_bind; rewrite !cellAt_by_lookup, H by done;
    by destruct (lookupCell s (row id) (col id)).
Qed.

Lemma terms_ext (acc : Z) (ids : list CellId) (s s1 : SpreadSheet) :
  (∀ id, id ∈ ids → val id = None →
     lookupCell s1 (row id) (col id) = lookupCell s (row id) (col id)) →
  fst (terms acc ids s1) = fst (terms acc ids s).
Proof.
  revert acc. induction ids as [|id ids IH]; intros acc H; [done|].
  cbn [terms]. run_bind.
  pose proof (term_ext acc id s s1 (H id (list_elem_of_here _ _))) as Ht.
  destruct (term acc id s1) as [o1 s1'] eqn:H1.
  destruct (term acc id s) as [o s'] eqn:H0. cbn [fst] in Ht. subst o1.
  assert (s1' = s1) as ->.
  { by apply (terms_state acc [id] s1 s1' (o ≫= λ v, Ret v)); cbn [terms]; run_bind;
      rewrite H1; destruct o. }
  assert (s' = s) as ->.
  { by apply (terms_state acc [id] s s' (o ≫= λ v, Ret v)); cbn [terms]; run_bind;
      rewrite H0; destruct o. }
  destruct o as [v|p]; [|done].
  apply IH. intros j Hj. apply H. by apply list_elem_of_further.
Qed.

Lemma updCell_id (r c : Z) (f : Cell → Cell) (s : SpreadSheet) (x : Cell) :
  lookupCell s r c = Some x → f x = x → updCell r c f s = (Ret (), s).
Proof.
  intros Hx%lookupCell_Some Hf.
  apply cellAt_inv in Hx as (_ & Hr & Hc & rw & Hrw & Hrx).
  unfold updCell.
  rewrite (index_Some _ _ _ Hr Hrw). cbn. rewrite (index_Some _ _ _ Hc Hrx). cbn.
  rewrite Hf, (list_insert_id rw), (list_insert_id (cells s)) by done.
  by destruct s.
Qed.

Lemma updCell_lookup (r c : Z) (f : Cell → Cell) (s : SpreadSheet) (x : Cell) :
  lookupCell s r c = Some x →
  ∃ s', updCell r c f s = (Ret (), s')
      ∧ ∀ r' c', lookupCell s' r' c' =
                 if decide (r' = r ∧ c' = c) then Some (f x) else lookupCell s r' c'.
Proof.
  intros Hx. destruct (updCell r c f s) as [o s'] eqn:Hu. exists s'.
  apply updCell_spec in Hu as [(_ & _ & Hn)|(y & -> & Hy & Hs')]; [congruence|].
  assert (y = x) as -> by congruence. done.
Qed.

(** What [computeCellValue] does when it returns: it writes the value [v]
    of the formula, or 0 when there is none. *)
Lemma computeCellValue_run (k : string) (r c v : Z) (s : SpreadSheet) (x : Cell) :
  names k r c →
  lookupCell s r c = Some x →
  match formula x with
  | None => v = 0
  | Some f => ∃ ids, getCellIdsFromFormula f = Ret ids
                   ∧ Forall (readable s) ids ∧ v = wrap (signedSum s ids)
  end →
  ∃ s', computeCellValue k s = (Ret (), s')
      ∧ ∀ r' c', lookupCell s' r' c' =
                 if decide (r' = r ∧ c' = c) then Some (set_value v x)
                 else lookupCell s r' c'.
Proof.
  intros Hid Hx Hv. unfold computeCellValue.
  run_bind. unfold lift. rewrite Hid. run_bind.
  rewrite cellAt_by_lookup, Hx.
  destruct (formula x) as [f|].
  - destruct Hv as (ids & Hids & Hrefs & ->).
    run_bind. rewrite Hids. run_bind.
    rewrite terms_signedSum by (done || unfold min_int, max_int; lia).
    rewrite Z.add_0_l. by apply updCell_lookup.
  - subst v. by apply updCell_lookup.
Qed.

(** X6: when the cell of [cellId] is in the sheet, holds a formula that
    parses, and every reference of the formula is in the sheet,
    [computeCellValue] returns and stores in the cell the sum of the
    terms on 64 bits: each "+" term adds and each "-" term subtracts its
    literal or the stored value of its cell.  No other cell changes, and
    the cell keeps its formula and its dependents. *)
Theorem computeCellValue_signed_sum
    (cellId f : string) (s : SpreadSheet) (r c : Z) (x : Cell) (ids : list CellId) :
  names cellId r c →
  lookupCell s r c = Some x →
  formula x = Some f →
  getCellIdsFromFormula f = Ret ids →
  Forall (readable s) ids →
  ∃ s', computeCellValue cellId s = (Ret (), s')
      ∧ ∀ r' c', lookupCell s' r' c' =
                 if decide (r' = r ∧ c' = c)
                 then Some (mkCell (dependentCells x) (wrap (signedSum s ids)) (Some f))
                 else lookupCell s r' c'.
Proof.
  intros Hid Hx Hf Hids Hrefs.
  destruct (computeCellValue_run cellId r c (wrap (signedSum s ids)) s x Hid Hx)
    as (s' & Hrun & Hs').
  { rewrite Hf. eauto. }
  exists s'. split; [done|]. intros r' c'. rewrite Hs'.
  unfold set_value. by rewrite Hf.
Qed.

Lemma computeCellValue_signed_sum_witness :
  ∃ s', computeCellValue "C1"
          (mkSheet [[mkCell ∅ 10 None; mkCell ∅ 4 None; mkCell ∅ 0 (Some "=A1-B1+5")]])
        = (Ret (), s')
      ∧ ∀ r' c', lookupCell s' r' c' =
                 if decide (r' = 0 ∧ c' = 2)
                 then Some (mkCell ∅ 11 (Some "=A1-B1+5"))
                 else lookupCell
                        (mkSheet [[mkCell ∅ 10 None; mkCell ∅ 4 None;
                                   mkCell ∅ 0 (Some "=A1-B1+5")]]) r' c'.
Proof.
  destruct (computeCellValue_signed_sum "C1" "=A1-B1+5"
              (mkSheet [[mkCell ∅ 10 None; mkCell ∅ 4 None;
                         mkCell ∅ 0 (Some "=A1-B1+5")]]) 0 2
              (mkCell ∅ 0 (Some "=A1-B1+5"))
              [mkCellId 0 0 "+" None; mkCellId 0 1 "-" None; mkCellId 0 0 "+" (Some 5)])
    as (s' & Hrun & Hs'); [reflexivity..| |].
  - repeat apply Forall_cons_2; [| |discriminate|apply Forall_nil_2];
      intros _; eexists; reflexivity.
  - exists s'. split; [exact Hrun|exact Hs'].
Defined.

(** X7: when the formula of the cell has a reference outside the sheet,
    [computeCellValue] panics with an index out of range and the sheet is
    left as it was: the old value of the cell stays. *)
Theorem computeCellValue_reference_outside
    (cellId f : string) (s : SpreadSheet) (r c : Z) (x : Cell)
    (ids : list CellId) (id : CellId) :
  names cellId r c →
  lookupCell s r c = Some x →
  formula x = Some f →
  getCellIdsFromFormula f = Ret ids →
  id ∈ ids → val id = None → lookupCell s (row id) (col id) = None →
  computeCellValue cellId s = (Panic IndexOutOfRange, s).
Proof.
  intros Hid Hx Hf Hids Hin Hv Hout. unfold computeCellValue.
  run_bind. unfold lift. rewrite Hid. run_bind.
  rewrite cellAt_by_lookup, Hx, Hf. run_bind. rewrite Hids. run_bind.
  rewrite (terms_unreadable 0 ids id); [done| |  |done..].
  - unfold min_int, max_int. lia.
  - intros i Hi. exact (parsed_signs f ids i Hids Hi).
Qed.

Lemma computeCellValue_reference_outside_witness :
  computeCellValue "A1" (mkSheet [[mkCell ∅ 3 (Some "=B1+A2")]])
  = (Panic IndexOutOfRange, mkSheet [[mkCell ∅ 3 (Some "=B1+A2")]]).
Proof.
  apply (computeCellValue_reference_outside "A1" "=B1+A2" _ 0 0
           (mkCell ∅ 3 (Some "=B1+A2"))
           [mkCellId 0 1 "+" None; mkCellId 1 0 "+" None] (mkCellId 1 0 "+" None));
    try reflexivity.
  apply list_elem_of_further, list_elem_of_here.
Defined.

(** X8: the edge cases of [computeCellValue].  An identifier that does
    not resolve is skipped and the sheet stays as it is; an identifier
    that names a position outside the sheet panics; and a cell that has
    no formula is not left alone: its value is set to 0. *)
Theorem computeCellValue_without_formula (k : string) (s : SpreadSheet) :
  match getCellRowCol k with
  | Ret (r, c, Some _) => computeCellValue k s = (Ret (), s)
  | Ret (r, c, None) =>
      match lookupCell s r c with
      | None => computeCellValue k s = (Panic IndexOutOfRange, s)
      | Some x =>
          formula x = None →
          ∃ s', computeCellValue k s = (Ret (), s')
              ∧ ∀ r' c', lookupCell s' r' c' =
                         if decide (r' = r ∧ c' = c)
                         then Some (mkCell (dependentCells x) 0 None)
                         else lookupCell s r' c'
      end
  | Panic p => computeCellValue k s = (Panic IndexOutOfRange, s)
  end.
Proof.
  destruct (getCellRowCol k) as [[[r c] [e|]]|p] eqn:Hk.
  - unfold computeCellValue. run_bind. unfold lift. by rewrite Hk.
  - destruct (lookupCell s r c) as [x|] eqn:Hx.
    + intros Hf.
      destruct (computeCellValue_run k r c 0 s x Hk Hx) as (s' & Hrun & Hs').
      { by rewrite Hf. }
      exists s'. split; [done|]. intros r' c'. rewrite Hs'.
      unfold set_value. by rewrite Hf.
    + unfold computeCellValue. run_bind. unfold lift. rewrite Hk. run_bind.
      by rewrite cellAt_by_lookup, Hx.
  - unfold computeCellValue. run_bind. unfold lift. rewrite Hk.
    by apply getCellRowCol_panic in Hk as [_ ->].
Qed.

(** X9: recomputing a cell a second time changes nothing, provided its
    formula has no reference to the cell itself. *)
Theorem computeCellValue_stable (k : string) (r c : Z) (s s1 : SpreadSheet) :
  names k r c →
  computeCellValue k s = (Ret (), s1) →
  (∀ x f ids id,
     lookupCell s r c = Some x → formula x = Some f →
     getCellIdsFromFormula f = Ret ids → id ∈ ids → val id = None →
     ¬ (row id = r ∧ col id = c)) →
  computeCellValue k s1 = (Ret (), s1).
Proof.
  intros Hk H Hself. unfold computeCellValue in *.
  revert H. run_bind. unfold lift. rewrite Hk. run_bind.
  rewrite !cellAt_by_lookup.
  destruct (lookupCell s r c) as [x|] eqn:Hx; [|done].
  destruct (formula x) as [f|] eqn:Hf.
  - run_bind. destruct (getCellIdsFromFormula f) as [ids|p] eqn:Hids; [|done].
    run_bind. destruct (terms 0 ids s) as [[v|p] s0] eqn:Ht; [|done].
    assert (s0 = s) as -> by (by eapply terms_state).
    intros [(? & _)|(y & _ & Hy & Hs1)]%updCell_spec; [done|].
    assert (y = x) as -> by congruence.
    rewrite Hs1, decide_True by done. cbn [formula set_value]. rewrite Hf.
    run_bind. rewrite Hids. run_bind.
    pose proof (terms_ext 0 ids s s1) as Hext.
    destruct (terms 0 ids s1) as [o1 s1'] eqn:Ht1.
    assert (s1' = s1) as -> by (by eapply terms_state).
    rewrite Ht in Hext. cbn [fst] in Hext. rewrite Hext.
    + apply (updCell_id _ _ _ _ (set_value v x)); [|done].
      by rewrite Hs1, decide_True.
    + intros id Hin Hv. rewrite Hs1, decide_False; [done|].
      by eapply Hself.
  - intros [(? & _)|(y & _ & Hy & Hs1)]%updCell_spec; [done|].
    assert (y = x) as -> by congruence.
    rewrite Hs1, decide_True by done. cbn [formula set_value]. rewrite Hf.
    apply (updCell_id _ _ _ _ (set_value 0 x)); [|done].
    by rewrite Hs1, decide_True.
Qed.

Lemma computeCellValue_stable_witness :
  computeCellValue "B1" (mkSheet [[mkCell ∅ 10 None; mkCell ∅ 10 (Some "=A1")]])
  = (Ret (), mkSheet [[mkCell ∅ 10 None; mkCell ∅ 10 (Some "=A1")]]).
Proof.
  apply (computeCellValue_stable "B1" 0 1
           (mkSheet [[mkCell ∅ 10 None; mkCell ∅ 3 (Some "=A1")]])).
  - reflexivity.
  - reflexivity.
  - intros x f ids id [= <-] [= <-] [= <-] Hin _ [_ Hc].
    apply list_elem_of_singleton in Hin as ->. discriminate Hc.
Defined.

(** ** The shape of the sheet *)

Section Kept.
Context (R : SpreadSheet → SpreadSheet → Prop) `{!Reflexive R, !Transitive R}.

Lemma kept_ret {A : Type} (a : A) : preserves R (mret a).
Proof. intros s o s' [= <- <-]. reflexivity. Qed.

Lemma kept_lift {A : Type} (o : outcome A) : preserves R (lift o).
Proof. intros s o' s' [= <- <-]. reflexivity. Qed.

Lemma kept_cellAt (r c : Z) : preserves R (cellAt r c).
Proof. intros s o s' [= _ <-]. reflexivity. Qed.

Lemma kept_bind {A B : Type} (m : M A) (f : A → M B) :
  preserves R m → (∀ a, preserves R (f a)) → preserves R (m ≫= f).
Proof.
  intros Hm Hf s o s'. unfold mbind, M_bind.
  destruct (m s) as [[a|p] s1] eqn:H1.
  - intros H2. etrans; [by eapply Hm|by eapply Hf].
  - intros [= <- <-]. by eapply Hm.
Qed.

Lemma kept_forEach {A : Type} (l : list A) (body : A → M unit) :
  (∀ x, preserves R (body x)) → preserves R (forEach l body).
Proof.
  intros Hb. induction l as [|x l IH]; cbn [forEach].
  - apply kept_ret.
  - by apply kept_bind.
Qed.

Lemma kept_terms (acc : Z) (ids : list CellId) : preserves R (terms acc ids).
Proof.
  intros s o s' H. apply terms_state in H as ->. reflexivity.
Qed.

Hypothesis kept_updCell : ∀ r c f, preserves R (updCell r c f).

Lemma kept_computeCellValue (k : string) : preserves R (computeCellValue k).
Proof.
  unfold computeCellValue. apply kept_bind; [apply kept_lift|].
  intros [[r c] [e|]]; [apply kept_ret|].
  apply kept_bind; [apply kept_cellAt|]. intros x.
  destruct (formula x); [|apply kept_updCell].
  apply kept_bind; [apply kept_lift|]. intros ids.
  apply kept_bind; [apply kept_terms|]. intros v. apply kept_updCell.
Qed.

Lemma kept_deleteDependees (k f : string) : preserves R (deleteDependees k f).
Proof.
  unfold deleteDependees. apply kept_bind; [apply kept_lift|]. intros ids.
  apply kept_forEach. intros id. apply kept_updCell.
Qed.

Lemma kept_addDependees (k f : string) : preserves R (addDependees k f).
Proof.
  unfold addDependees. apply kept_bind; [apply kept_lift|]. intros ids.
  apply kept_forEach. intros id. apply kept_updCell.
Qed.

Lemma kept_SetCellValue visit (cellId value : string) :
  preserves R (SetCellValue visit cellId value).
Proof.
  unfold SetCellValue. apply kept_bind; [apply kept_lift|].
  intros [[r c] [e|]]; [apply kept_ret|].
  apply kept_bind; [apply kept_cellAt|]. intros x.
  apply kept_bind.
  { destruct (formula x); [apply kept_deleteDependees|apply kept_ret]. }
  intros _. apply kept_bind.
  { destruct (Atoi _).
    - apply kept_bind; [|intros _]; apply kept_updCell.
    - apply kept_bind; [apply kept_updCell|intros _]. apply kept_computeCellValue. }
  intros _. apply kept_bind; [apply kept_cellAt|]. intros x1.
  apply kept_bind.
  { destruct (formula x1); [apply kept_addDependees|apply kept_ret]. }
  intros _. apply kept_bind; [apply kept_cellAt|]. intros x2.
  apply kept_bind; [|intros _; apply kept_ret].
  apply kept_forEach, kept_computeCellValue.
Qed.
End Kept.

#[global] Instance sameShape_refl : Reflexive sameShape.
Proof. by intros s. Qed.

#[global] Instance sameShape_trans : Transitive sameShape.
Proof. unfold sameShape. intros s1 s2 s3 H12 H23. congruence. Qed.

Lemma sameShape_updCell (r c : Z) (f : Cell → Cell) : preserves sameShape (updCell r c f).
Proof.
  intros s o s'. unfold updCell.
  destruct (index (cells s) r) as [rw|p] eqn:Hr; cbn; [|by intros [= _ <-]].
  destruct (index rw c) as [x|p] eqn:Hc; cbn; [|by intros [= _ <-]].
  intros [= _ <-]. unfold sameShape. cbn [cells].
  apply index_inv in Hr as [_ Hr].
  rewrite list_fmap_insert, length_insert. apply list_insert_id.
  by rewrite list_lookup_fmap, Hr.
Qed.

Lemma sameShape_dims (s s' : SpreadSheet) (nr nc : nat) :
  sameShape s s' → dims s nr nc → dims s' nr nc.
Proof.
  unfold sameShape, dims. intros H [Hl Hf].
  assert (length (cells s') = length (cells s)) as Hlen.
  { by rewrite <- (length_fmap length (cells s')), H, length_fmap. }
  split; [congruence|].
  apply Forall_lookup. intros i rw' Hi.
  assert ((length <$> cells s') !! i = Some (length rw')) as Hi'.
  { by rewrite list_lookup_fmap, Hi. }
  rewrite H, list_lookup_fmap in Hi'.
  destruct (cells s !! i) as [rw|] eqn:Hrw; [|done].
  injection Hi' as <-. by eapply (Forall_lookup_1 _ _ _ _ Hf).
Qed.

Lemma dims_inSheet (s : SpreadSheet) (nr nc : nat) (r c : Z) :
  dims s nr nc →
  inSheet s r c ↔ 0 ≤ r < Z.of_nat nr ∧ 0 ≤ c < Z.of_nat nc.
Proof.
  intros [Hl Hf]. unfold inSheet. rewrite lookupCell_nat.
  destruct (decide (0 ≤ r ∧ 0 ≤ c)) as [[Hr Hc]|Hn].
  2: { split; [by intros []|lia]. }
  destruct (cells s !! Z.to_nat r) as [rw|] eqn:Hrw; cbn.
  - apply lookup_lt_Some in Hrw as Hlt.
    pose proof (Forall_lookup_1 _ _ _ _ Hf Hrw) as Hlen. cbn beta in Hlen.
    rewrite lookup_lt_is_Some, Hlen. lia.
  - apply lookup_ge_None in Hrw. split; [by intros []|lia].
Qed.

Lemma sameShape_lookup (s s' : SpreadSheet) (r c : Z) :
  sameShape s s' → inSheet s' r c ↔ inSheet s r c.
Proof.
  intros H. unfold inSheet. rewrite !lookupCell_nat.
  destruct (decide (0 ≤ r ∧ 0 ≤ c)) as [[Hr Hc]|Hn]; [|done].
  assert ((length <$> cells s') !! Z.to_nat r = (length <$> cells s) !! Z.to_nat r) as Hl
    by (by rewrite H).
  rewrite !list_lookup_fmap in Hl.
  destruct (cells s' !! Z.to_nat r) as [rw'|], (cells s !! Z.to_nat r) as [rw|];
    cbn in *; try done.
  injection Hl as Hl. by rewrite !lookup_lt_is_Some, Hl.
Qed.

(** Two sheets of the same shape with the same cells are the same sheet. *)
Lemma sheet_ext (s s' : SpreadSheet) :
  sameShape s s' →
  (∀ r c, lookupCell s' r c = lookupCell s r c) →
  s' = s.
Proof.
  intros Hsh Hl. destruct s as [l], s' as [l']. f_equal.
  unfold sameShape in Hsh. cbn [cells] in Hsh.
  apply list_eq. intros i.
  assert ((length <$> l') !! i = (length <$> l) !! i) as Hi by (by rewrite Hsh).
  rewrite !list_lookup_fmap in Hi.
  destruct (l' !! i) as [rw'|] eqn:Hrw', (l !! i) as [rw|] eqn:Hrw; cbn in Hi; try done.
  f_equal. apply list_eq. intros j.
  specialize (Hl (Z.of_nat i) (Z.of_nat j)). rewrite !lookupCell_nat in Hl.
  rewrite !decide_True in Hl by lia. cbn [cells] in Hl.
  by rewrite !Nat2Z.id, Hrw, Hrw' in Hl.
Qed.

(** X10: [SetCellValue] never changes the number of rows of the sheet
    nor the length of any row, whatever its arguments and whether it
    returns nil, returns an error or panics. *)
Theorem SetCellValue_keeps_shape visit (cellId value : string) (s s' : SpreadSheet)
    (o : outcome (option error)) :
  SetCellValue visit cellId value s = (o, s') →
  length <$> cells s' = length <$> cells s.
Proof.
  apply (kept_SetCellValue sameShape sameShape_updCell).
Qed.

Lemma SetCellValue_keeps_shape_witness :
  length <$> cells (snd (SetCellValue elements "B2" "=A1+Z9" sheet33))
  = length <$> cells sheet33.
Proof.
  apply (SetCellValue_keeps_shape elements "B2" "=A1+Z9" sheet33 _
           (fst (SetCellValue elements "B2" "=A1+Z9" sheet33))).
  by destruct (SetCellValue elements "B2" "=A1+Z9" sheet33).
Defined.

(** ** The bookkeeping of dependents *)

Lemma termAt_dec (ids : list CellId) (r c : Z) : termAt ids r c ∨ ¬ termAt ids r c.
Proof.
  induction ids as [|id ids [IH|IH]].
  - right. intros (id & Hin & _). by apply elem_of_nil in Hin.
  - left. destruct IH as (i & Hi & ?). exists i. split; [by apply list_elem_of_further|done].
  - destruct (decide (row id = r ∧ col id = c)) as [Heq|Hne].
    + left. exists id. split; [apply list_elem_of_here|done].
    + right. intros (i & [->|Hi]%elem_of_cons & Hrc); [done|].
      apply IH. by exists i.
Qed.

Lemma termAt_cons (id : CellId) (ids : list CellId) (r c : Z) :
  termAt (id :: ids) r c ↔ (row id = r ∧ col id = c) ∨ termAt ids r c.
Proof.
  split.
  - intros (i & [->|Hi]%elem_of_cons & Hrc); [by left|right; by exists i].
  - intros [Hrc|(i & Hi & Hrc)].
    + exists id. split; [apply list_elem_of_here|done].
    + exists i. split; [by apply list_elem_of_further|done].
Qed.

(** A loop of writes [f] over the terms: exactly the cells of the terms
    are written, once as far as an idempotent [f] can tell. *)
Lemma forEach_updCell_exact (f : Cell → Cell) (ids : list CellId)
    (s s' : SpreadSheet) (r c : Z) :
  (∀ x, f (f x) = f x) →
  forEach ids (λ id, updCell (row id) (col id) f) s = (Ret (), s') →
  (termAt ids r c →
     ∃ x, lookupCell s r c = Some x ∧ lookupCell s' r c = Some (f x))
  ∧ (¬ termAt ids r c → lookupCell s' r c = lookupCell s r c).
Proof.
  intros Hf. revert s. induction ids as [|id ids IH]; intros s H; cbn [forEach] in H.
  { injection H as <-. split; [|done]. intros (id & Hin & _). by apply elem_of_nil in Hin. }
  apply bind_Ret_inv in H as ([] & s1 & Hu & H).
  apply updCell_spec in Hu as [(? & _)|(x0 & _ & Hx0 & Hs1)]; [done|].
  destruct (IH s1 H) as [IHin IHout]. rewrite termAt_cons. split.
  - intros Hat. destruct (termAt_dec ids r c) as [Hids|Hids].
    + destruct (IHin Hids) as (x1 & Hx1 & Hx'). rewrite Hs1 in Hx1.
      destruct (decide (r = row id ∧ c = col id)) as [[-> ->]|Hne].
      * injection Hx1 as <-. exists x0. by rewrite Hx', Hf.
      * by exists x1.
    + destruct Hat as [[<- <-]|Hat]; [|done].
      exists x0. split; [done|]. by rewrite (IHout Hids), Hs1, decide_True.
  - intros Hn. rewrite IHout, Hs1 by tauto.
    rewrite decide_False; [done|]. intros [-> ->]. tauto.
Qed.

Lemma forEach_updCell_total (f : Cell → Cell) (ids : list CellId) (s : SpreadSheet) :
  (∀ id, id ∈ ids → inSheet s (row id) (col id)) →
  ∃ s', forEach ids (λ id, updCell (row id) (col id) f) s = (Ret (), s').
Proof.
  revert s. induction ids as [|id ids IH]; intros s Hin; cbn [forEach]; [by eexists|].
  destruct (Hin id (list_elem_of_here _ _)) as [x Hx].
  destruct (updCell (row id) (col id) f s) as [o s1] eqn:Hu.
  pose proof (sameShape_updCell _ _ _ _ _ _ Hu) as Hsh.
  apply updCell_spec in Hu as Hu'. destruct Hu' as [(_ & _ & Hn)|(_ & -> & _)]; [congruence|].
  run_bind. rewrite Hu. apply IH. intros i Hi.
  apply (sameShape_lookup s s1); [done|]. by apply Hin, list_elem_of_further.
Qed.

Lemma forEach_updCell_returns (f : Cell → Cell) (ids : list CellId) (s s' : SpreadSheet) :
  forEach ids (λ id, updCell (row id) (col id) f) s = (Ret (), s') →
  ∀ id, id ∈ ids → inSheet s (row id) (col id).
Proof.
  revert s. induction ids as [|id ids IH]; intros s H i Hi; [by apply elem_of_nil in Hi|].
  cbn [forEach] in H. apply bind_Ret_inv in H as ([] & s1 & Hu & H).
  pose proof (sameShape_updCell _ _ _ _ _ _ Hu) as Hsh.
  apply elem_of_cons in Hi as [->|Hi].
  - apply updCell_spec in Hu as [(? & _)|(x0 & _ & Hx0 & _)]; [done|]. by exists x0.
  - apply (sameShape_lookup s s1); [done|]. by eapply IH.
Qed.

Lemma addDependees_run (cellId f : string) (ids : list CellId) (s : SpreadSheet) :
  getCellIdsFromFormula f = Ret ids →
  addDependees cellId f s =
  forEach ids (λ id, updCell (row id) (col id)
                       (λ c, set_dependentCells (dependentCells c ∪ {[cellId]}) c)) s.
Proof. intros Hids. unfold addDependees. run_bind. unfold lift. by rewrite Hids. Qed.

Lemma deleteDependees_run (cellId f : string) (ids : list CellId) (s : SpreadSheet) :
  getCellIdsFromFormula f = Ret ids →
  deleteDependees cellId f s =
  forEach ids (λ id, updCell (row id) (col id)
                       (λ c, set_dependentCells (dependentCells c ∖ {[cellId]}) c)) s.
Proof. intros Hids. unfold deleteDependees. run_bind. unfold lift. by rewrite Hids. Qed.

Lemma add_key_idem (k : string) (x : Cell) :
  set_dependentCells (dependentCells (set_dependentCells (dependentCells x ∪ {[k]}) x)
                      ∪ {[k]}) (set_dependentCells (dependentCells x ∪ {[k]}) x)
  = set_dependentCells (dependentCells x ∪ {[k]}) x.
Proof.
  unfold set_dependentCells. cbn. f_equal. apply set_eq. intros j.
  rewrite !elem_of_union. tauto.
Qed.

Lemma del_key_idem (k : string) (x : Cell) :
  set_dependentCells (dependentCells (set_dependentCells (dependentCells x ∖ {[k]}) x)
                      ∖ {[k]}) (set_dependentCells (dependentCells x ∖ {[k]}) x)
  = set_dependentCells (dependentCells x ∖ {[k]}) x.
Proof.
  unfold set_dependentCells. cbn. f_equal. apply set_eq. intros j.
  rewrite !elem_of_difference. tauto.
Qed.

(** X11: when the formula parses, [addDependees] returns exactly when
    the coordinates of all its terms are in the sheet; it then adds the
    key [cellId] to the dependents of the cells at those coordinates and
    changes nothing else: no value, no formula, no other key, no other
    cell. *)
Theorem addDependees_exact (cellId f : string) (ids : list CellId) (s : SpreadSheet) :
  getCellIdsFromFormula f = Ret ids →
  ((∃ s', addDependees cellId f s = (Ret (), s'))
   ↔ ∀ id, id ∈ ids → inSheet s (row id) (col id))
  ∧ ∀ s' r c,
      addDependees cellId f s = (Ret (), s') →
      (termAt ids r c →
         ∃ x, lookupCell s r c = Some x
            ∧ lookupCell s' r c
              = Some (mkCell (dependentCells x ∪ {[cellId]}) (value x) (formula x)))
      ∧ (¬ termAt ids r c → lookupCell s' r c = lookupCell s r c).
Proof.
  intros Hids. rewrite (addDependees_run _ _ _ _ Hids). split.
  - split.
    + intros [s' H]. by eapply forEach_updCell_returns.
    + apply forEach_updCell_total.
  - intros s' r c H.
    apply (forEach_updCell_exact _ _ _ _ r c (add_key_idem cellId) H).
Qed.

Lemma addDependees_exact_witness :
  ((∃ s', addDependees "C1" "=A1+B1" sheet33 = (Ret (), s'))
   ↔ ∀ id, id ∈ [mkCellId 0 0 "+" None; mkCellId 0 1 "+" None] →
       inSheet sheet33 (row id) (col id))
  ∧ ∀ s' r c,
      addDependees "C1" "=A1+B1" sheet33 = (Ret (), s') →
      (termAt [mkCellId 0 0 "+" None; mkCellId 0 1 "+" None] r c →
         ∃ x, lookupCell sheet33 r c = Some x
            ∧ lookupCell s' r c
              = Some (mkCell (dependentCells x ∪ {["C1"]}) (value x) (formula x)))
      ∧ (¬ termAt [mkCellId 0 0 "+" None; mkCellId 0 1 "+" None] r c →
         lookupCell s' r c = lookupCell sheet33 r c).
Proof. apply (addDependees_exact "C1" "=A1+B1"). reflexivity. Defined.

(** X12: when the formula parses, [deleteDependees] returns exactly when
    the coordinates of all its terms are in the sheet; it then removes
    the key [cellId] from the dependents of the cells at those
    coordinates, a key that is not there being no error, and changes
    nothing else. *)
Theorem deleteDependees_exact (cellId f : string) (ids : list CellId) (s : SpreadSheet) :
  getCellIdsFromFormula f = Ret ids →
  ((∃ s', deleteDependees cellId f s = (Ret (), s'))
   ↔ ∀ id, id ∈ ids → inSheet s (row id) (col id))
  ∧ ∀ s' r c,
      deleteDependees cellId f s = (Ret (), s') →
      (termAt ids r c →
         ∃ x, lookupCell s r c = Some x
            ∧ lookupCell s' r c
              = Some (mkCell (dependentCells x ∖ {[cellId]}) (value x) (formula x)))
      ∧ (¬ termAt ids r c → lookupCell s' r c = lookupCell s r c).
Proof.
  intros Hids. rewrite (deleteDependees_run _ _ _ _ Hids). split.
  - split.
    + intros [s' H]. by eapply forEach_updCell_returns.
    + apply forEach_updCell_total.
  - intros s' r c H.
    apply (forEach_updCell_exact _ _ _ _ r c (del_key_idem cellId) H).
Qed.

Lemma deleteDependees_exact_witness :
  ((∃ s', deleteDependees "C1" "=A1+B1" sheet33 = (Ret (), s'))
   ↔ ∀ id, id ∈ [mkCellId 0 0 "+" None; mkCellId 0 1 "+" None] →
       inSheet sheet33 (row id) (col id))
  ∧ ∀ s' r c,
      deleteDependees "C1" "=A1+B1" sheet33 = (Ret (), s') →
      (termAt [mkCellId 0 0 "+" None; mkCellId 0 1 "+" None] r c →
         ∃ x, lookupCell sheet33 r c = Some x
            ∧ lookupCell s' r c
              = Some (mkCell (dependentCells x ∖ {["C1"]}) (value x) (formula x)))
      ∧ (¬ termAt [mkCellId 0 0 "+" None; mkCellId 0 1 "+" None] r c →
         lookupCell s' r c = lookupCell sheet33 r c).
Proof. apply (deleteDependees_exact "C1" "=A1+B1"). reflexivity. Defined.

(** X13: [deleteDependees] undoes [addDependees].  If the key is in the
    dependents of none of the cells of the terms, adding it and then
    deleting it for the same formula gives back the very same sheet. *)
Theorem add_then_delete_restores (cellId f : string) (ids : list CellId)
    (s s1 : SpreadSheet) :
  getCellIdsFromFormula f = Ret ids →
  (∀ r c x, termAt ids r c → lookupCell s r c = Some x → cellId ∉ dependentCells x) →
  addDependees cellId f s = (Ret (), s1) →
  deleteDependees cellId f s1 = (Ret (), s).
Proof.
  intros Hids Hfresh Hadd.
  pose proof (kept_addDependees sameShape sameShape_updCell _ _ _ _ _ Hadd) as Hsh1.
  rewrite (addDependees_run _ _ _ _ Hids) in Hadd.
  rewrite (deleteDependees_run _ _ _ _ Hids).
  destruct (forEach_updCell_total
              (λ c, set_dependentCells (dependentCells c ∖ {[cellId]}) c) ids s1)
    as [s2 Hdel].
  { intros id Hin. apply (sameShape_lookup s s1); [done|].
    by eapply forEach_updCell_returns. }
  rewrite Hdel. f_equal. apply sheet_ext.
  - pose proof (kept_deleteDependees sameShape sameShape_updCell cellId f s1 (Ret ()) s2) as Hsh2.
    rewrite (deleteDependees_run _ _ _ _ Hids) in Hsh2.
    etrans; [exact Hsh1|]. by apply Hsh2.
  - intros r c.
    destruct (forEach_updCell_exact _ _ _ _ r c (add_key_idem cellId) Hadd) as [Ain Aout].
    destruct (forEach_updCell_exact _ _ _ _ r c (del_key_idem cellId) Hdel) as [Din Dout].
    destruct (termAt_dec ids r c) as [Hat|Hat].
    + destruct (Ain Hat) as (x & Hx & Hx1). destruct (Din Hat) as (x1 & Hx1' & Hx2).
      rewrite Hx1 in Hx1'. injection Hx1' as <-. rewrite Hx2, Hx.
      f_equal. destruct x as [d v fo]. unfold set_dependentCells. cbn. f_equal.
      specialize (Hfresh r c _ Hat Hx). cbn in Hfresh. apply set_eq. intros j.
      rewrite elem_of_difference, elem_of_union, elem_of_singleton.
      split; [tauto|]. intros Hj. split; [by left|]. by intros ->.
    + by rewrite Dout, Aout.
Qed.

Lemma add_then_delete_restores_witness :
  ∃ s1, addDependees "C1" "=A1+B1" sheet33 = (Ret (), s1)
      ∧ lookupCell s1 0 0 = Some (mkCell {["C1"]} 0 None)
      ∧ deleteDependees "C1" "=A1+B1" s1 = (Ret (), sheet33).
Proof.
  exists (snd (addDependees "C1" "=A1+B1" sheet33)).
  split; [vm_compute; reflexivity|]. split; [vm_compute; reflexivity|].
  apply (add_then_delete_restores "C1" "=A1+B1"
           [mkCellId 0 0 "+" None; mkCellId 0 1 "+" None] sheet33).
  - reflexivity.
  - intros r c x (id & Hin & <- & <-) Hx.
    repeat (apply elem_of_cons in Hin as [->|Hin]);
      [| |by apply elem_of_nil in Hin];
      vm_compute in Hx; injection Hx as <-; apply not_elem_of_empty.
  - vm_compute. reflexivity.
Defined.

(** ** Sheets on which the calls return *)

Lemma names_inj (k : string) (r c r' c' : Z) :
  names k r c → names k r' c' → r' = r ∧ c' = c.
Proof. unfold names. intros -> [= -> ->]. done. Qed.

Lemma names_dec (k : string) (r c : Z) : names k r c ∨ ¬ names k r c.
Proof.
  unfold names. destruct (getCellRowCol k) as [[[r' c'] [e|]]|p]; [by right| |by right].
  destruct (decide (r' = r ∧ c' = c)) as [[-> ->]|Hne]; [by left|right].
  intros [= -> ->]. tauto.
Qed.

Lemma formulasResolve_step (K : gset string) (W F : Z → Z → Prop) (s s' : SpreadSheet) :
  formulasResolve s → sameShape s s' → evolves K W F s s' →
  (∀ r c, F r c ∨ ¬ F r c) →
  (∀ r c x' f, F r c → lookupCell s' r c = Some x' → formula x' = Some f →
     ∃ ids, getCellIdsFromFormula f = Ret ids
          ∧ ∀ id, id ∈ ids → inSheet s (row id) (col id)) →
  formulasResolve s'.
Proof.
  intros HF Hsh Hev Hdec Hnew r c x' f Hx' Hf.
  assert (∃ ids, getCellIdsFromFormula f = Ret ids
               ∧ ∀ id, id ∈ ids → inSheet s (row id) (col id)) as (ids & Hids & Hin).
  { destruct (Hdec r c) as [HFrc|HFrc]; [by eapply Hnew|].
    specialize (Hev r c). destruct (lookupCell s r c) as [x|] eqn:Hx; [|congruence].
    destruct Hev as (x'' & Hx'' & _ & _ & Hfor).
    assert (x'' = x') as -> by congruence.
    apply (HF r c x f Hx). by rewrite <- Hfor. }
  exists ids. split; [done|]. intros id Hid. apply (sameShape_lookup s s'); auto.
Qed.

Lemma keysResolve_step (K : gset string) (W F : Z → Z → Prop) (s s' : SpreadSheet) :
  keysResolve s → sameShape s s' → evolves K W F s s' →
  (∀ k, k ∈ K → ∃ r c, names k r c ∧ inSheet s r c) →
  keysResolve s'.
Proof.
  intros HK Hsh Hev Hnew r c x' k Hx' Hk.
  assert (∃ r' c', names k r' c' ∧ inSheet s r' c') as (r' & c' & Hn & Hin).
  { destruct (decide (k ∈ K)) as [HkK|HkK]; [by apply Hnew|].
    specialize (Hev r c). destruct (lookupCell s r c) as [x|] eqn:Hx; [|congruence].
    destruct Hev as (x'' & Hx'' & Hdeps & _).
    assert (x'' = x') as -> by congruence.
    apply (HK r c x k Hx). by apply Hdeps. }
  exists r', c'. split; [done|]. by apply (sameShape_lookup s s').
Qed.

Lemma nowhere_dec (r c : Z) : nowhere r c ∨ ¬ nowhere r c.
Proof. right. by intros []. Qed.

Lemma computeCellValue_total (k : string) (r c : Z) (s : SpreadSheet) :
  formulasResolve s → names k r c → inSheet s r c →
  ∃ s', computeCellValue k s = (Ret (), s').
Proof.
  intros HF Hk [x Hx]. unfold computeCellValue.
  run_bind. unfold lift. rewrite Hk. run_bind. rewrite cellAt_by_lookup, Hx.
  destruct (formula x) as [f|] eqn:Hf.
  - destruct (HF r c x f Hx Hf) as (ids & Hids & Hin).
    run_bind. rewrite Hids. run_bind.
    rewrite terms_signedSum.
    + destruct (updCell_lookup r c (set_value (wrap (0 + signedSum s ids))) s x Hx)
        as (s' & Hu & _). eauto.
    + unfold min_int, max_int. lia.
    + apply Forall_forall. intros id Hid _. by apply Hin.
  - destruct (updCell_lookup r c (set_value 0) s x Hx) as (s' & Hu & _). eauto.
Qed.

(** The last loop on a sheet whose formulas resolve. *)
Lemma loop_total (keys : list string) (s : SpreadSheet) :
  formulasResolve s →
  (∀ k, k ∈ keys → ∃ r c, names k r c ∧ inSheet s r c) →
  ∃ s', forEach keys computeCellValue s = (Ret (), s').
Proof.
  revert s. induction keys as [|k keys IH]; intros s HF Hkeys; cbn [forEach]; [by eexists|].
  destruct (Hkeys k (list_elem_of_here _ _)) as (r & c & Hk & Hin).
  destruct (computeCellValue_total k r c s HF Hk Hin) as [s1 H1].
  run_bind. rewrite H1.
  pose proof (kept_computeCellValue sameShape sameShape_updCell _ _ _ _ H1) as Hsh.
  apply IH.
  - apply (formulasResolve_step ∅ (names k) nowhere s); [done..| |apply nowhere_dec|by intros ? ? ? ? []].
    revert H1. by apply preserves_computeCellValue.
  - intros k' Hk'. destruct (Hkeys k' (list_elem_of_further _ _ _ Hk')) as (r' & c' & ? & ?).
    exists r', c'. split; [done|]. by apply (sameShape_lookup s s1).
Qed.

Lemma valueAt_by_lookup (s : SpreadSheet) (r c : Z) :
  valueAt s r c = match lookupCell s r c with Some x => value x | None => 0 end.
Proof. unfold valueAt. rewrite cellAt_by_lookup. by destruct (lookupCell s r c). Qed.

Lemma evolves_valueAt (K : gset string) (W F : Z → Z → Prop) (s s' : SpreadSheet)
    (r c : Z) :
  evolves K W F s s' → ¬ W r c → valueAt s' r c = valueAt s r c.
Proof.
  intros Hev HW. specialize (Hev r c). rewrite !valueAt_by_lookup.
  destruct (lookupCell s r c) as [x|].
  - destruct Hev as (x' & -> & _ & Hval & _). by apply Hval.
  - by rewrite Hev.
Qed.

Lemma signedSum_ext (s s1 : SpreadSheet) (ids : list CellId) :
  (∀ id, id ∈ ids → val id = None →
     valueAt s1 (row id) (col id) = valueAt s (row id) (col id)) →
  signedSum s1 ids = signedSum s ids.
Proof.
  induction ids as [|id ids IH]; intros H; [done|].
  cbn [signedSum foldr]. fold (signedSum s1 ids). fold (signedSum s ids).
  rewrite IH by (intros i Hi; apply H; by apply list_elem_of_further).
  f_equal. unfold contribution, operand.
  destruct (val id) eqn:Hv; [done|]. by rewrite H by (apply list_elem_of_here || done).
Qed.

(** The first step of [SetCellValue]: the edges of the old formula go. *)
Lemma delete_step (cellId : string) (r c : Z) (s : SpreadSheet) (x : Cell) :
  formulasResolve s → lookupCell s r c = Some x →
  ∃ sB xB,
    match formula x with
    | Some f => deleteDependees cellId f
    | None => mret ()
    end s = (Ret (), sB)
    ∧ sameShape s sB
    ∧ evolves {[cellId]} nowhere nowhere s sB
    ∧ lookupCell sB r c = Some xB
    ∧ (∀ k, k ∈ dependentCells xB → k ∈ dependentCells x)
    ∧ (∀ r' c' y', lookupCell sB r' c' = Some y' → cellId ∈ dependentCells y' →
         keyLeft cellId s x r' c').
Proof.
  intros HF Hx. destruct (formula x) as [f|] eqn:Hf.
  - destruct (HF r c x f Hx Hf) as (ids & Hids & Hin).
    destruct (forEach_updCell_total
                (λ c, set_dependentCells (dependentCells c ∖ {[cellId]}) c) ids s Hin)
      as [sB HB].
    pose proof HB as HB'.
    rewrite <- (deleteDependees_run cellId f ids s Hids) in HB.
    assert (sameShape s sB) as Hsh
      by (by eapply (kept_deleteDependees sameShape sameShape_updCell)).
    assert (evolves {[cellId]} nowhere nowhere s sB) as Hev.
    { revert HB. apply preserves_deleteDependees. by apply elem_of_singleton. }
    destruct (forEach_updCell_keeps
                (λ y, ∀ k, k ∈ dependentCells y → k ∈ dependentCells x)
                (λ c, set_dependentCells (dependentCells c ∖ {[cellId]}) c) ids s sB r c)
      as (xB & HxB & Hsub); [|done|by exists x|].
    { intros y Hy k. cbn. rewrite elem_of_difference. intros [? _]. by apply Hy. }
    exists sB, xB. split_and!; [done..|].
    intros r' c' y' Hy' Hkin.
    destruct (forEach_updCell_exact _ _ _ _ r' c' (del_key_idem cellId) HB') as [Din Dout].
    destruct (termAt_dec ids r' c') as [Hat|Hat].
    + destruct (Din Hat) as (y & _ & Hy''). rewrite Hy' in Hy''. injection Hy'' as ->.
      cbn in Hkin. apply elem_of_difference in Hkin as [_ Hkin].
      destruct Hkin. by apply elem_of_singleton.
    + rewrite (Dout Hat) in Hy'. split; [eauto|].
      intros f' ids' Hf' Hids'. rewrite Hf in Hf'. injection Hf' as <-.
      by assert (ids' = ids) as -> by congruence.
  - exists s, x. split_and!; [done|reflexivity|reflexivity|done|done|].
    intros r' c' y' Hy' Hkin. split; [eauto|]. intros f ids Hf'. congruence.
Qed.

Lemma prefix_literal (cellId v : string) (n r c : Z) (s : SpreadSheet) (x : Cell) :
  formulasResolve s → names cellId r c → lookupCell s r c = Some x →
  Atoi (if blank v then "0" else v) = Some n →
  ∃ s1 d, SetCellValue (λ _, []) cellId v s = (Ret None, s1)
        ∧ lookupCell s1 r c = Some (mkCell d n None)
        ∧ (∀ k, k ∈ d → k ∈ dependentCells x)
        ∧ (∀ r' c' y1, lookupCell s1 r' c' = Some y1 → cellId ∈ dependentCells y1 →
             keyLeft cellId s x r' c').
Proof.
  intros HF Hk Hx Hn.
  destruct (delete_step cellId r c s x HF Hx)
    as (sB & xB & HB & HshB & _ & HxB & Hsub & Hleft).
  destruct (updCell_lookup r c (set_value n) sB xB HxB) as (sC1 & HC1 & HsC1).
  destruct (updCell_lookup r c (set_formula None) sC1 (set_value n xB)) as (sC & HC & HsC).
  { by rewrite HsC1, decide_True. }
  exists sC, (dependentCells xB).
  assert (lookupCell sC r c = Some (mkCell (dependentCells xB) n None)) as HxC.
  { by rewrite HsC, decide_True. }
  split_and!; [|done..|].
  - unfold SetCellValue. run_bind. unfold lift. rewrite Hk. run_bind.
    rewrite cellAt_by_lookup, Hx. run_bind. rewrite HB, Hn. run_bind.
    rewrite HC1. cbv beta iota. rewrite HC. cbv beta iota.
    run_bind. rewrite cellAt_by_lookup, HxC. cbn [formula]. run_bind.
    cbv [mret M_ret]. run_bind. rewrite cellAt_by_lookup, HxC. done.
  - intros r' c' y1 Hy1 Hkin. rewrite HsC in Hy1.
    destruct (decide (r' = r ∧ c' = c)) as [[-> ->]|Hne].
    + injection Hy1 as <-. by apply (Hleft r c xB).
    + rewrite HsC1, decide_False in Hy1 by done. by apply (Hleft r' c' y1).
Qed.

Lemma prefix_formula (cellId v : string) (r c : Z) (s : SpreadSheet) (x : Cell)
    (ids : list CellId) :
  formulasResolve s → names cellId r c → lookupCell s r c = Some x →
  blank v = false → Atoi v = None →
  getCellIdsFromFormula v = Ret ids →
  (∀ id, id ∈ ids → inSheet s (row id) (col id)) →
  ∃ s1 d, SetCellValue (λ _, []) cellId v s = (Ret None, s1)
        ∧ lookupCell s1 r c = Some (mkCell d (wrap (signedSum s ids)) (Some v))
        ∧ (∀ k, k ∈ d → k ∈ dependentCells x ∨ (k = cellId ∧ termAt ids r c))
        ∧ (∀ r' c' y1, lookupCell s1 r' c' = Some y1 → cellId ∈ dependentCells y1 →
             termAt ids r' c' ∨ keyLeft cellId s x r' c').
Proof.
  intros HF Hk Hx Hb Hn Hids Hin.
  destruct (delete_step cellId r c s x HF Hx)
    as (sB & xB & HB & HshB & HevB & HxB & Hsub & Hleft).
  destruct (updCell_lookup r c (set_formula (Some v)) sB xB HxB) as (sB1 & HB1 & HsB1).
  pose proof (sameShape_updCell _ _ _ _ _ _ HB1) as HshB1.
  assert (∀ id, id ∈ ids → inSheet sB1 (row id) (col id)) as Hin1.
  { intros id Hid. apply (sameShape_lookup sB sB1), (sameShape_lookup s sB); auto. }
  assert (∀ r' c', valueAt sB1 r' c' = valueAt s r' c') as Hval.
  { intros r' c'. rewrite <- (evolves_valueAt _ _ _ _ _ r' c' HevB) by (by intros []).
    rewrite !valueAt_by_lookup, HsB1.
    destruct (decide (r' = r ∧ c' = c)) as [[-> ->]|]; [by rewrite HxB|done]. }
  destruct (computeCellValue_run cellId r c (wrap (signedSum s ids)) sB1
              (set_formula (Some v) xB) Hk) as (sC & HC & HsC).
  { by rewrite HsB1, decide_True. }
  { cbn [formula set_formula]. exists ids. split_and!; [done| |].
    - apply Forall_forall. intros id Hid _. by apply Hin1.
    - f_equal. symmetry. apply signedSum_ext. intros id _ _. apply Hval. }
  pose proof (kept_computeCellValue sameShape sameShape_updCell _ _ _ _ HC) as HshC.
  set (xC := set_value (wrap (signedSum s ids)) (set_formula (Some v) xB)) in *.
  assert (lookupCell sC r c = Some xC) as HxC by (by rewrite HsC, decide_True).
  destruct (forEach_updCell_total
              (λ c, set_dependentCells (dependentCells c ∪ {[cellId]}) c) ids sC)
    as [sD HD].
  { intros id Hid. apply (sameShape_lookup sB1 sC); auto. }
  destruct (forEach_updCell_exact _ _ _ _ r c (add_key_idem cellId) HD) as [Din Dout].
  pose proof HD as HD'.
  rewrite <- (addDependees_run cellId v ids sC Hids) in HD.
  assert (∃ d, lookupCell sD r c = Some (mkCell d (wrap (signedSum s ids)) (Some v))
             ∧ ∀ k, k ∈ d → k ∈ dependentCells x ∨ (k = cellId ∧ termAt ids r c))
    as (d & HxD & Hd).
  { destruct (termAt_dec ids r c) as [Hat|Hat].
    - destruct (Din Hat) as (y & Hy & Hy'). rewrite HxC in Hy. injection Hy as <-.
      eexists. split; [exact Hy'|]. cbn. intros k [Hkx| ->%elem_of_singleton]%elem_of_union.
      + left. by apply Hsub.
      + by right.
    - exists (dependentCells xB). rewrite (Dout Hat), HxC. split; [done|].
      intros k Hkx. left. by apply Hsub. }
  exists sD, d. split_and!; [|done..|].
  - unfold SetCellValue. run_bind. unfold lift. rewrite Hk. run_bind.
    rewrite cellAt_by_lookup, Hx. run_bind. rewrite HB, Hb, Hn. run_bind.
    rewrite HB1. cbv beta iota. rewrite HC. cbv beta iota.
    run_bind. rewrite cellAt_by_lookup, HxC. cbn [formula xC set_value set_formula].
    run_bind. rewrite HD. run_bind. rewrite cellAt_by_lookup, HxD. done.
  - intros r' c' y1 Hy1 Hkin.
    destruct (termAt_dec ids r' c') as [Hat|Hat]; [by left|right].
    destruct (forEach_updCell_exact _ _ _ _ r' c' (add_key_idem cellId) HD') as [_ Dout'].
    rewrite (Dout' Hat), HsC in Hy1.
    destruct (decide (r' = r ∧ c' = c)) as [[-> ->]|Hne].
    + injection Hy1 as <-. by apply (Hleft r c xB).
    + rewrite HsB1, decide_False in Hy1 by done. by apply (Hleft r' c' y1).
Qed.

Lemma wellFormed_prefix (cellId v : string) (r c : Z) (s s1 : SpreadSheet)
    (o : outcome (option error)) :
  wellFormed s → names cellId r c → inSheet s r c →
  SetCellValue (λ _, []) cellId v s = (o, s1) →
  (∀ x1 f, lookupCell s1 r c = Some x1 → formula x1 = Some f →
     ∃ ids, getCellIdsFromFormula f = Ret ids
          ∧ ∀ id, id ∈ ids → inSheet s (row id) (col id)) →
  wellFormed s1.
Proof.
  intros [HF HK] Hk Hin H1 Hnew.
  pose proof (kept_SetCellValue sameShape sameShape_updCell _ _ _ _ _ _ H1) as Hsh.
  apply evolves_prefix in H1. split.
  - apply (formulasResolve_step _ _ _ s s1 HF Hsh H1).
    + intros r' c'. apply names_dec.
    + intros r' c' x' f Hk' Hx' Hf.
      destruct (names_inj _ _ _ _ _ Hk Hk') as [-> ->]. by eapply Hnew.
  - apply (keysResolve_step _ _ _ s s1 HK Hsh H1).
    intros k ->%elem_of_singleton. eauto.
Qed.

(** The call from its last loop on. *)
Lemma SetCellValue_from_loop visit (cellId value : string) (r c : Z)
    (s s1 : SpreadSheet) (x1 : Cell) :
  range_order visit →
  names cellId r c →
  SetCellValue (λ _, []) cellId value s = (Ret None, s1) →
  wellFormed s1 → lookupCell s1 r c = Some x1 →
  ∃ s', SetCellValue visit cellId value s = (Ret None, s')
      ∧ wellFormed s'
      ∧ sameShape s1 s'
      ∧ evolves ∅ (λ r' c', ∃ k, k ∈ dependentCells x1 ∧ names k r' c') nowhere s1 s'.
Proof.
  intros Hv Hk H1 [HF HK] Hx1. rewrite SetCellValue_loop, Hk, H1.
  rewrite cellAt_by_lookup, Hx1.
  destruct (loop_total (visit (dependentCells x1)) s1 HF) as [s' Hs'].
  { intros k Hkin. rewrite (Hv _) in Hkin. apply elem_of_elements in Hkin.
    by apply (HK r c x1). }
  assert ((forEach (visit (dependentCells x1)) computeCellValue;;
           mret (None : option error)) s1 = (Ret None, s')) as Hloop.
  { run_bind. by rewrite Hs'. }
  exists s'. split; [done|].
  assert (sameShape s1 s') as Hsh.
  { revert Hs'. apply (kept_forEach sameShape). intros k.
    apply (kept_computeCellValue sameShape sameShape_updCell). }
  assert (evolves ∅ (λ r' c', ∃ k, k ∈ dependentCells x1 ∧ names k r' c') nowhere s1 s')
    as Hev.
  { apply loop_evolves in Hloop. intros r' c'. specialize (Hloop r' c').
    destruct (lookupCell s1 r' c') as [y|]; [|done].
    destruct Hloop as (y' & Hy' & Hd & Hval & Hfor). exists y'.
    split_and!; [done..| |done].
    intros HW. apply Hval. intros (k & Hkin & Hkn). apply HW. exists k.
    split; [|done]. rewrite (Hv _) in Hkin. by apply elem_of_elements in Hkin. }
  split_and!; [|done..]. split.
  - apply (formulasResolve_step _ _ _ s1 s' HF Hsh Hev nowhere_dec). by intros ? ? ? ? [].
  - apply (keysResolve_step _ _ _ s1 s' HK Hsh Hev). intros k Hkin.
    by apply elem_of_empty in Hkin.
Qed.

Lemma SetCellValue_Ret_inv visit (cellId v : string) (s s' : SpreadSheet) :
  SetCellValue visit cellId v s = (Ret None, s') →
  ∃ r c, names cellId r c ∧ inSheet s r c.
Proof.
  unfold SetCellValue. run_bind. unfold lift.
  destruct (getCellRowCol cellId) as [[[r c] [e|]]|p] eqn:Hk; [done| |done].
  run_bind. rewrite cellAt_by_lookup.
  destruct (lookupCell s r c) as [x|] eqn:Hx; [|done]. intros _.
  exists r, c. split; [done|by exists x].
Qed.

(** A call that installs a formula and returns: the formula parses and
    its terms are in the sheet. *)
Lemma SetCellValue_formula_inv visit (cellId v : string) (r c : Z)
    (s s' : SpreadSheet) :
  names cellId r c → blank v = false → Atoi v = None →
  SetCellValue visit cellId v s = (Ret None, s') →
  ∃ ids, getCellIdsFromFormula v = Ret ids
       ∧ ∀ id, id ∈ ids → inSheet s (row id) (col id).
Proof.
  intros Hk Hb Hn H. rewrite SetCellValue_loop, Hk in H.
  destruct (SetCellValue _ cellId v s) as [[o1|p] s1] eqn:H1; [|done].
  pose proof (kept_SetCellValue sameShape sameShape_updCell _ _ _ _ _ _ H1) as Hsh.
  apply (SetCellValue_formula_prefix _ _ r c) in H1 as (sC & Hadd); [|done..].
  pose proof (kept_addDependees sameShape sameShape_updCell _ _ _ _ _ Hadd) as HshC.
  destruct (getCellIdsFromFormula v) as [ids|p] eqn:Hids.
  - exists ids. split; [done|]. intros id Hid.
    rewrite (addDependees_run _ _ _ _ Hids) in Hadd.
    apply (sameShape_lookup s s1), (sameShape_lookup sC s1); [done..|].
    by eapply forEach_updCell_returns.
  - unfold addDependees in Hadd. revert Hadd. run_bind. unfold lift. by rewrite Hids.
Qed.

Lemma literal_returns visit (cellId v : string) (n r c : Z) (s : SpreadSheet) (x : Cell) :
  range_order visit → wellFormed s → names cellId r c → lookupCell s r c = Some x →
  Atoi (if blank v then "0" else v) = Some n →
  ∃ s1 s' d,
    SetCellValue visit cellId v s = (Ret None, s')
    ∧ wellFormed s'
    ∧ lookupCell s1 r c = Some (mkCell d n None)
    ∧ (∀ k, k ∈ d → k ∈ dependentCells x)
    ∧ sameShape s s'
    ∧ evolves ∅ (λ r' c', ∃ k, k ∈ d ∧ names k r' c') nowhere s1 s'
    ∧ (∀ r' c' y1, lookupCell s1 r' c' = Some y1 → cellId ∈ dependentCells y1 →
         keyLeft cellId s x r' c').
Proof.
  intros Hv HW Hk Hx Hn.
  destruct (prefix_literal cellId v n r c s x (proj1 HW) Hk Hx Hn)
    as (s1 & d & H1 & Hx1 & Hd & Hleft).
  assert (wellFormed s1) as HW1.
  { apply (wellFormed_prefix cellId v r c s s1 (Ret None) HW Hk); [by eexists|done|].
    intros x1 f Hx1' Hf. rewrite Hx1 in Hx1'. by injection Hx1' as <-. }
  destruct (SetCellValue_from_loop visit cellId v r c s s1 _ Hv Hk H1 HW1 Hx1)
    as (s' & H & HW' & Hsh' & Hev).
  exists s1, s', d. split_and!; [done..| |done|done].
  etrans; [|exact Hsh'].
  by apply (kept_SetCellValue sameShape sameShape_updCell _ _ _ _ _ _ H1).
Qed.

Lemma formula_returns visit (cellId v : string) (r c : Z) (s : SpreadSheet) (x : Cell)
    (ids : list CellId) :
  range_order visit → wellFormed s → names cellId r c → lookupCell s r c = Some x →
  blank v = false → Atoi v = None →
  getCellIdsFromFormula v = Ret ids →
  (∀ id, id ∈ ids → inSheet s (row id) (col id)) →
  ∃ s1 s' d,
    SetCellValue visit cellId v s = (Ret None, s')
    ∧ wellFormed s'
    ∧ lookupCell s1 r c = Some (mkCell d (wrap (signedSum s ids)) (Some v))
    ∧ (∀ k, k ∈ d → k ∈ dependentCells x ∨ (k = cellId ∧ termAt ids r c))
    ∧ sameShape s s'
    ∧ evolves ∅ (λ r' c', ∃ k, k ∈ d ∧ names k r' c') nowhere s1 s'
    ∧ (∀ r' c' y1, lookupCell s1 r' c' = Some y1 → cellId ∈ dependentCells y1 →
         termAt ids r' c' ∨ keyLeft cellId s x r' c').
Proof.
  intros Hv HW Hk Hx Hb Hn Hids Hin.
  destruct (prefix_formula cellId v r c s x ids (proj1 HW) Hk Hx Hb Hn Hids Hin)
    as (s1 & d & H1 & Hx1 & Hd & Hleft).
  assert (wellFormed s1) as HW1.
  { apply (wellFormed_prefix cellId v r c s s1 (Ret None) HW Hk); [by eexists|done|].
    intros x1 f Hx1' Hf. rewrite Hx1 in Hx1'. injection Hx1' as <-.
    injection Hf as <-. eauto. }
  destruct (SetCellValue_from_loop visit cellId v r c s s1 _ Hv Hk H1 HW1 Hx1)
    as (s' & H & HW' & Hsh' & Hev).
  exists s1, s', d. split_and!; [done..| |done|done].
  etrans; [|exact Hsh'].
  by apply (kept_SetCellValue sameShape sameShape_updCell _ _ _ _ _ _ H1).
Qed.

Lemma wellFormed_kept visit (cellId v : string) (s s' : SpreadSheet) :
  range_order visit → wellFormed s →
  SetCellValue visit cellId v s = (Ret None, s') → wellFormed s'.
Proof.
  intros Hv HW H.
  destruct (SetCellValue_Ret_inv _ _ _ _ _ H) as (r & c & Hk & [x Hx]).
  destruct (Atoi (if blank v then "0" else v)) as [n|] eqn:Hn.
  - destruct (literal_returns visit cellId v n r c s x Hv HW Hk Hx Hn)
      as (s1 & s'' & d & H' & HW' & _). congruence.
  - destruct (blank v) eqn:Hb; [done|].
    destruct (SetCellValue_formula_inv _ _ _ _ _ _ _ Hk Hb Hn H) as (ids & Hids & Hin).
    destruct (formula_returns visit cellId v r c s x ids Hv HW Hk Hx Hb Hn Hids Hin)
      as (s1 & s'' & d & H' & HW' & _). congruence.
Qed.

Lemma fresh_lookup (nr nc : nat) (r c : Z) (x : Cell) :
  lookupCell (mkSheet (replicate nr (replicate nc newCell))) r c = Some x → x = newCell.
Proof.
  rewrite lookupCell_nat. destruct (decide _); [|done]. cbn [cells].
  destruct (replicate nr _ !! Z.to_nat r) as [rw|] eqn:Hrw; [|done]. cbn.
  apply lookup_replicate in Hrw as [-> _].
  by intros [-> _]%lookup_replicate.
Qed.

Lemma CreateSpreadSheet_inv (numRows numCols : Z) (s : SpreadSheet) :
  CreateSpreadSheet numRows numCols = Ret s →
  s = mkSheet (replicate (Z.to_nat numRows)
                 (replicate (Z.to_nat (Z.min numCols 26)) newCell)).
Proof.
  unfold CreateSpreadSheet. destruct (numRows <? 0); [done|].
  assert ((if numCols >? 26 then 26 else numCols) = Z.min numCols 26) as ->.
  { destruct (Z.gtb_spec numCols 26); lia. }
  destruct (_ && _); [done|]. by intros [= <-].
Qed.

Lemma fresh_wellFormed (nr nc : nat) :
  wellFormed (mkSheet (replicate nr (replicate nc newCell))).
Proof.
  split.
  - intros r c x f Hx%fresh_lookup Hf. by subst x.
  - intros r c x k Hx%fresh_lookup Hkin. subst x. by apply elem_of_empty in Hkin.
Qed.

(** X14: every sheet reached from [CreateSpreadSheet] by calls of
    [SetCellValue] that return nil keeps its rows and columns (the
    columns at most 26), and on it every stored formula parses with all
    its terms inside the sheet and every key of every dependents set
    names a cell of the sheet. *)
Theorem reachable_wellFormed visit (numRows numCols : Z) (s0 s : SpreadSheet)
    (calls : list (string * string)) :
  range_order visit →
  CreateSpreadSheet numRows numCols = Ret s0 →
  runs visit calls s0 s →
  dims s (Z.to_nat numRows) (Z.to_nat (Z.min numCols 26)) ∧ wellFormed s.
Proof.
  intros Hv Hs0 Hruns. apply CreateSpreadSheet_inv in Hs0.
  assert (dims s0 (Z.to_nat numRows) (Z.to_nat (Z.min numCols 26)) ∧ wellFormed s0)
    as Hinit.
  { subst s0. split; [|apply fresh_wellFormed].
    split; cbn [cells]; [by rewrite length_replicate|].
    apply Forall_forall. intros rw [-> _]%elem_of_replicate.
    by rewrite length_replicate. }
  clear Hs0. induction Hruns as [s|cellId v calls s s1 s2 H _ IH]; [done|].
  apply IH. destruct Hinit as [Hd HW]. split.
  - apply (sameShape_dims s s1); [|done].
    by apply (kept_SetCellValue sameShape sameShape_updCell _ _ _ _ _ _ H).
  - by eapply wellFormed_kept.
Qed.

Lemma reachable_wellFormed_witness :
  dims sheetC3 3 3 ∧ wellFormed sheetC3.
Proof.
  apply (reachable_wellFormed elements 3 3 sheet33 sheetC3
           [("A1", "10"); ("C3", "=A1:C2")]).
  - intros m. reflexivity.
  - reflexivity.
  - do 2 (eapply runs_cons; [vm_compute; reflexivity|]). apply runs_nil.
Defined.

(** X15: on a sheet whose formulas and keys resolve, [SetCellValue] with
    a value that is blank or the text of an integer, for an identifier
    that names a cell of the sheet, returns nil: it does not panic. *)
Theorem SetCellValue_integer_returns visit (cellId v : string) (n r c : Z)
    (s : SpreadSheet) :
  range_order visit → wellFormed s → names cellId r c → inSheet s r c →
  Atoi (if blank v then "0" else v) = Some n →
  ∃ s', SetCellValue visit cellId v s = (Ret None, s').
Proof.
  intros Hv HW Hk [x Hx] Hn.
  destruct (literal_returns visit cellId v n r c s x Hv HW Hk Hx Hn)
    as (s1 & s' & d & H & _). eauto.
Qed.

Lemma SetCellValue_integer_returns_witness :
  ∃ s', SetCellValue elements "B2" " " sheet33 = (Ret None, s').
Proof.
  apply (SetCellValue_integer_returns elements "B2" " " 0 1 1 sheet33).
  - intros m. reflexivity.
  - apply (fresh_wellFormed 3 3).
  - reflexivity.
  - exists newCell. reflexivity.
  - reflexivity.
Defined.

(** X16: on such a sheet, [SetCellValue] with a formula, for an
    identifier that names a cell of the sheet, returns nil exactly when
    the formula parses and the coordinates of all its terms, (0, 0) for
    the literals, are in the sheet. *)
Theorem SetCellValue_formula_returns_iff visit (cellId v : string) (r c : Z)
    (s : SpreadSheet) :
  range_order visit → wellFormed s → names cellId r c → inSheet s r c →
  blank v = false → Atoi v = None →
  (∃ s', SetCellValue visit cellId v s = (Ret None, s'))
  ↔ ∃ ids, getCellIdsFromFormula v = Ret ids
         ∧ ∀ id, id ∈ ids → inSheet s (row id) (col id).
Proof.
  intros Hv HW Hk [x Hx] Hb Hn. split.
  - intros [s' H]. by eapply SetCellValue_formula_inv.
  - intros (ids & Hids & Hin).
    destruct (formula_returns visit cellId v r c s x ids Hv HW Hk Hx Hb Hn Hids Hin)
      as (s1 & s' & d & H & _). eauto.
Qed.

Lemma SetCellValue_formula_returns_iff_witness :
  (∃ s', SetCellValue elements "B2" "=A1+D1" sheet33 = (Ret None, s'))
  ↔ ∃ ids, getCellIdsFromFormula "=A1+D1" = Ret ids
         ∧ ∀ id, id ∈ ids → inSheet sheet33 (row id) (col id).
Proof.
  apply (SetCellValue_formula_returns_iff elements "B2" "=A1+D1" 1 1 sheet33).
  - intros m. reflexivity.
  - apply (fresh_wellFormed 3 3).
  - reflexivity.
  - exists newCell. reflexivity.
  - reflexivity.
  - reflexivity.
Defined.

(** ** Writing, then reading *)

Lemma dims_first_row (s : SpreadSheet) (nr nc : nat) :
  dims s nr nc → (0 < nr)%nat →
  ∃ row0, cells s !! 0%nat = Some row0 ∧ length row0 = nc.
Proof.
  intros [Hl Hf] Hnr.
  destruct (cells s !! 0%nat) as [row0|] eqn:H0.
  - exists row0. split; [done|]. by apply (Forall_lookup_1 _ _ _ _ Hf H0).
  - apply lookup_ge_None in H0. lia.
Qed.

Lemma GetCellValue_inSheet (cellId : string) (s : SpreadSheet) (nr nc : nat)
    (r c : Z) (x : Cell) :
  dims s nr nc → names cellId r c → lookupCell s r c = Some x →
  GetCellValue cellId s = (Ret (value x, None), s).
Proof.
  intros Hd Hk Hx.
  assert (inSheet s r c) as Hin by (by exists x).
  apply (dims_inSheet s nr nc r c Hd) in Hin as [Hr Hc].
  destruct (dims_first_row s nr nc Hd) as (row0 & H0 & Hlen); [lia|].
  rewrite (GetCellValue_checked cellId s r c None row0 Hk H0).
  destruct Hd as [Hl _]. rewrite Hl, Hlen.
  destruct (Z.geb_spec r (Z.of_nat nr)); [lia|].
  destruct (Z.geb_spec c (Z.of_nat nc)); [lia|].
  by rewrite Hx.
Qed.

(** X17: writing an integer and reading it back.  On a sheet of [nr]
    rows of [nc] cells whose formulas and keys resolve, if no key among
    the dependents of the cell names the cell itself, [SetCellValue] with
    a value that is blank (taken as 0) or the text of the integer [n]
    returns nil, and [GetCellValue] with the same identifier then returns
    [n] and nil. *)
Theorem integer_written_is_read visit (cellId v : string) (n r c : Z)
    (s : SpreadSheet) (x : Cell) (nr nc : nat) :
  range_order visit → wellFormed s → dims s nr nc →
  names cellId r c → lookupCell s r c = Some x →
  (∀ k, k ∈ dependentCells x → ¬ names k r c) →
  Atoi (if blank v then "0" else v) = Some n →
  ∃ s', SetCellValue visit cellId v s = (Ret None, s')
      ∧ GetCellValue cellId s' = (Ret (n, None), s').
Proof.
  intros Hv HW Hd Hk Hx Hself Hn.
  destruct (literal_returns visit cellId v n r c s x Hv HW Hk Hx Hn)
    as (s1 & s' & d & H & _ & Hx1 & Hsub & Hsh & Hev & _).
  exists s'. split; [done|].
  specialize (Hev r c). rewrite Hx1 in Hev. destruct Hev as (x' & Hx' & _ & Hval & _).
  rewrite (GetCellValue_inSheet cellId s' nr nc r c x');
    [|by apply (sameShape_dims s s')|done..].
  rewrite Hval; [done|]. intros (k & Hkd & Hkn). by apply (Hself k); [apply Hsub|].
Qed.

Lemma integer_written_is_read_witness :
  ∃ s', SetCellValue elements "B2" "-42" sheetC3 = (Ret None, s')
      ∧ GetCellValue "B2" s' = (Ret (-42, None), s').
Proof.
  apply (integer_written_is_read elements "B2" "-42" (-42) 1 1 sheetC3
           (mkCell {["C3"]} 0 None) 3 3).
  - intros m. reflexivity.
  - apply (wellFormed_kept elements "C3" "=A1:C2"
             (snd (SetCellValue elements "A1" "10" sheet33)));
      [intros m; reflexivity| |vm_compute; reflexivity].
    apply (wellFormed_kept elements "A1" "10" sheet33);
      [intros m; reflexivity|apply (fresh_wellFormed 3 3)|vm_compute; reflexivity].
  - split; [reflexivity|]. repeat apply Forall_cons_2; [reflexivity..|apply Forall_nil_2].
  - reflexivity.
  - vm_compute. reflexivity.
  - intros k Hkin. cbn [dependentCells] in Hkin.
    apply elem_of_singleton in Hkin as ->. discriminate.
  - reflexivity.
Defined.

(** X18: writing a formula and reading its value.  On such a sheet, if
    no key among the dependents of the cell names the cell itself, and
    the formula parses into terms that are all inside the sheet and none
    at the cell itself, [SetCellValue] returns nil and [GetCellValue]
    with the same identifier then returns the signed sum of the terms,
    on 64 bits, taken over the values the sheet held before the call. *)
Theorem formula_written_is_evaluated visit (cellId v : string) (r c : Z)
    (s : SpreadSheet) (x : Cell) (ids : list CellId) (nr nc : nat) :
  range_order visit → wellFormed s → dims s nr nc →
  names cellId r c → lookupCell s r c = Some x →
  (∀ k, k ∈ dependentCells x → ¬ names k r c) →
  blank v = false → Atoi v = None →
  getCellIdsFromFormula v = Ret ids →
  (∀ id, id ∈ ids → inSheet s (row id) (col id)) →
  ¬ termAt ids r c →
  ∃ s', SetCellValue visit cellId v s = (Ret None, s')
      ∧ GetCellValue cellId s' = (Ret (wrap (signedSum s ids), None), s').
Proof.
  intros Hv HW Hd Hk Hx Hself Hb Hn Hids Hin Hat.
  destruct (formula_returns visit cellId v r c s x ids Hv HW Hk Hx Hb Hn Hids Hin)
    as (s1 & s' & d & H & _ & Hx1 & Hsub & Hsh & Hev & _).
  exists s'. split; [done|].
  specialize (Hev r c). rewrite Hx1 in Hev. destruct Hev as (x' & Hx' & _ & Hval & _).
  rewrite (GetCellValue_inSheet cellId s' nr nc r c x');
    [|by apply (sameShape_dims s s')|done..].
  rewrite Hval; [done|]. intros (k & Hkd & Hkn).
  destruct (Hsub k Hkd) as [Hkx|[_ ?]]; [|done]. by apply (Hself k).
Qed.

Lemma formula_written_is_evaluated_witness :
  ∃ s', SetCellValue elements "B2" "=A1-C3+5" sheetC3 = (Ret None, s')
      ∧ GetCellValue "B2" s' = (Ret (5, None), s').
Proof.
  apply (formula_written_is_evaluated elements "B2" "=A1-C3+5" 1 1 sheetC3
           (mkCell {["C3"]} 0 None)
           [mkCellId 0 0 "+" None; mkCellId 2 2 "-" None; mkCellId 0 0 "+" (Some 5)] 3 3).
  - intros m. reflexivity.
  - apply (wellFormed_kept elements "C3" "=A1:C2"
             (snd (SetCellValue elements "A1" "10" sheet33)));
      [intros m; reflexivity| |vm_compute; reflexivity].
    apply (wellFormed_kept elements "A1" "10" sheet33);
      [intros m; reflexivity|apply (fresh_wellFormed 3 3)|vm_compute; reflexivity].
  - split; [reflexivity|]. repeat apply Forall_cons_2; [reflexivity..|apply Forall_nil_2].
  - reflexivity.
  - vm_compute. reflexivity.
  - intros k Hkin. cbn [dependentCells] in Hkin.
    apply elem_of_singleton in Hkin as ->. discriminate.
  - reflexivity.
  - reflexivity.
  - reflexivity.
  - intros id Hin. repeat (apply elem_of_cons in Hin as [->|Hin]);
      [..|by apply elem_of_nil in Hin]; eexists; vm_compute; reflexivity.
  - intros (id & Hin & Hr & Hc).
    repeat (apply elem_of_cons in Hin as [->|Hin]);
      [..|by apply elem_of_nil in Hin]; discriminate.
Defined.

(** ** The dependents after a call *)

Lemma terms_Ret_readable (acc v : Z) (ids : list CellId) (s s' : SpreadSheet) :
  min_int ≤ acc ≤ max_int →
  (∀ i, i ∈ ids → sign i = "+" ∨ sign i = "-") →
  terms acc ids s = (Ret v, s') → Forall (readable s) ids.
Proof.
  intros Hacc Hsg H. apply Forall_forall. intros id Hin Hv. unfold inSheet.
  destruct (lookupCell s (row id) (col id)) as [y|] eqn:Hy; [by eexists|].
  by rewrite (terms_unreadable acc ids id s) in H.
Qed.

Lemma computeCellValue_inv (k : string) (r c : Z) (s s' : SpreadSheet) :
  names k r c → computeCellValue k s = (Ret (), s') →
  ∃ x v, lookupCell s r c = Some x
       ∧ (∀ r' c', lookupCell s' r' c' =
                   if decide (r' = r ∧ c' = c) then Some (set_value v x)
                   else lookupCell s r' c')
       ∧ match formula x with
         | None => v = 0
         | Some f => ∃ ids, getCellIdsFromFormula f = Ret ids
                          ∧ v = wrap (signedSum s ids)
         end.
Proof.
  intros Hk. unfold computeCellValue. run_bind. unfold lift. rewrite Hk. run_bind.
  rewrite cellAt_by_lookup.
  destruct (lookupCell s r c) as [x|] eqn:Hx; [|done].
  destruct (formula x) as [f|] eqn:Hf.
  - run_bind. destruct (getCellIdsFromFormula f) as [ids|p] eqn:Hids; [|done].
    run_bind. destruct (terms 0 ids s) as [[v|p] s0] eqn:Ht; [|done].
    assert (s0 = s) as -> by (by eapply terms_state).
    assert (min_int ≤ 0 ≤ max_int) as H0 by (unfold min_int, max_int; lia).
    pose proof (terms_Ret_readable 0 v ids s s H0) as Hr.
    rewrite terms_signedSum in Ht; [|done|].
    2: { apply Hr; [|done]. intros i Hi. exact (parsed_signs f ids i Hids Hi). }
    injection Ht as <-. rewrite Z.add_0_l.
    intros [(? & _)|(y & _ & Hy & Hs')]%updCell_spec; [done|].
    rewrite Hx in Hy. injection Hy as <-.
    exists x, (wrap (signedSum s ids)). rewrite Hf. eauto.
  - intros [(? & _)|(y & _ & Hy & Hs')]%updCell_spec; [done|].
    rewrite Hx in Hy. injection Hy as <-. exists x, 0. by rewrite Hf.
Qed.

Lemma named_dec (l : list string) (r c : Z) :
  (∃ k, k ∈ l ∧ names k r c) ∨ ¬ (∃ k, k ∈ l ∧ names k r c).
Proof.
  induction l as [|k l [IH|IH]].
  - right. intros (k & Hk & _). by apply elem_of_nil in Hk.
  - left. destruct IH as (k' & Hk' & ?). exists k'. split; [by apply list_elem_of_further|done].
  - destruct (names_dec k r c) as [Hk|Hk].
    + left. exists k. split; [apply list_elem_of_here|done].
    + right. intros (k' & [->|Hk']%elem_of_cons & Hn); [done|]. apply IH. eauto.
Qed.

Lemma forEach_compute_evolves (l : list string) (s s' : SpreadSheet) (o : outcome unit) :
  forEach l computeCellValue s = (o, s') →
  evolves ∅ (λ r c, ∃ k, k ∈ l ∧ names k r c) nowhere s s'.
Proof.
  apply preserves_forEach. intros k Hk. apply preserves_computeCellValue. eauto.
Qed.

Lemma loop_consistent (l : list string) (s1 s' : SpreadSheet) (k : string)
    (rk ck : Z) (xk : Cell) (fk : string) (idsk : list CellId) :
  forEach l computeCellValue s1 = (Ret (), s') →
  k ∈ l → names k rk ck →
  lookupCell s' rk ck = Some xk → formula xk = Some fk →
  getCellIdsFromFormula fk = Ret idsk →
  (∀ id k', id ∈ idsk → val id = None → k' ∈ l → ¬ names k' (row id) (col id)) →
  value xk = wrap (signedSum s' idsk).
Proof.
  intros H Hkin Hk Hxk Hfk Hids. revert s1 k H Hkin Hk.
  induction l as [|k0 l IH]; intros s1 k H Hkin Hk Hind; [by apply elem_of_nil in Hkin|].
  pose proof (forEach_compute_evolves _ _ _ _ H) as Hall.
  cbn [forEach] in H. apply bind_Ret_inv in H as ([] & s2 & H0 & H).
  destruct (named_dec l rk ck) as [(k' & Hk'in & Hk')|Hnone].
  { apply (IH s2 k' H Hk'in Hk'). intros id k'' Hid Hv Hk''.
    apply Hind; [done..|]. by apply list_elem_of_further. }
  apply elem_of_cons in Hkin as [->|Hkin]; [|destruct Hnone; eauto].
  destruct (computeCellValue_inv k0 rk ck s1 s2 Hk H0) as (x0 & v & Hx0 & Hs2 & Hv).
  pose proof (forEach_compute_evolves _ _ _ _ H) as Hrest.
  specialize (Hrest rk ck). rewrite Hs2, decide_True in Hrest by done.
  destruct Hrest as (x' & Hx' & _ & Hval & Hfor).
  assert (x' = xk) as -> by congruence.
  rewrite Hval by done. rewrite Hfor in Hfk by (by intros []).
  cbn [value formula set_value] in *. rewrite Hfk in Hv.
  destruct Hv as (ids & Hids' & ->). assert (ids = idsk) as -> by congruence.
  f_equal. symmetry. apply signedSum_ext. intros id Hid Hvid.
  apply (evolves_valueAt _ _ _ _ _ _ _ Hall). intros (k' & Hk'in & Hk'n).
  by apply (Hind id k').
Qed.

(** X19: what the last loop of [SetCellValue] achieves.  After a call
    that returns nil, take a key of the dependents of the target cell,
    the cell it names and the formula of that cell: if no reference of
    that formula is to a cell that some key of the loop names, the value
    of the cell is the signed sum of its terms over the sheet as the call
    leaves it.  The direct dependents that do not depend on one another
    are up to date. *)
Theorem direct_dependents_recomputed visit (cellId v : string) (s s' : SpreadSheet)
    (k : string) (rk ck : Z) (xk : Cell) (fk : string) (idsk : list CellId) :
  range_order visit →
  SetCellValue visit cellId v s = (Ret None, s') →
  k ∈ loopKeys cellId v s → names k rk ck →
  lookupCell s' rk ck = Some xk → formula xk = Some fk →
  getCellIdsFromFormula fk = Ret idsk →
  (∀ id k', id ∈ idsk → val id = None → k' ∈ loopKeys cellId v s →
     ¬ names k' (row id) (col id)) →
  value xk = wrap (signedSum s' idsk).
Proof.
  intros Hv H Hkin Hk Hxk Hfk Hids Hind.
  rewrite SetCellValue_loop in H. unfold loopKeys, atLoop in Hkin, Hind.
  destruct (getCellRowCol cellId) as [[[r c] [e|]]|p];
    try (by apply elem_of_empty in Hkin).
  destruct (SetCellValue _ cellId v s) as [[o1|p] s1]; [|done]. cbn [snd] in Hkin, Hind.
  destruct (cellAt r c s1) as [[c1|p] s1']; [|done].
  revert H. run_bind.
  destruct (forEach (visit (dependentCells c1)) computeCellValue s1) as [[[]|p] s2] eqn:Hl;
    [|done].
  intros [= <-].
  apply (loop_consistent _ _ _ k rk ck xk fk idsk Hl); [|done..|].
  - rewrite (Hv _). by apply elem_of_elements.
  - intros id k' Hid Hvid Hk'. apply Hind; [done..|].
    rewrite (Hv _) in Hk'. by apply elem_of_elements in Hk'.
Qed.

Lemma direct_dependents_recomputed_witness :
  value (mkCell ∅ 99 (Some "=A1"))
  = wrap (signedSum
            (snd (SetCellValue elements "A1" "99"
                    (snd (SetCellValue elements "B1" "=A1" sheet33))))
            [mkCellId 0 0 "+" None]).
Proof.
  assert (loopKeys "A1" "99" (snd (SetCellValue elements "B1" "=A1" sheet33)) = {["B1"]})
    as Hkeys by (vm_compute; reflexivity).
  apply (direct_dependents_recomputed elements "A1" "99"
           (snd (SetCellValue elements "B1" "=A1" sheet33)) _ "B1" 0 1
           (mkCell ∅ 99 (Some "=A1")) "=A1").
  - intros m. reflexivity.
  - vm_compute. reflexivity.
  - rewrite Hkeys. by apply elem_of_singleton.
  - reflexivity.
  - vm_compute. reflexivity.
  - reflexivity.
  - reflexivity.
  - intros id k' Hid _ Hk'. rewrite Hkeys in Hk'.
    apply elem_of_singleton in Hk' as ->.
    apply list_elem_of_singleton in Hid as ->. discriminate.
Defined.

(** ** Reading, case by case *)

(** X20: what [GetCellValue] returns on a sheet of [nr] rows of [nc]
    cells, for an identifier that [getCellRowCol] resolves to row [r] and
    column [c] or rejects with the error [e].  The error of the
    identifier comes first, then the row is checked against the number of
    rows and the column against the length of the first row, both from
    above only: a negative row passes the checks and panics, and the
    sheet is never changed. *)
Theorem GetCellValue_table (cellId : string) (s : SpreadSheet) (nr nc : nat)
    (r c : Z) (e : option error) :
  dims s nr nc →
  getCellRowCol cellId = Ret (r, c, e) →
  GetCellValue cellId s =
  match e with
  | Some e => (Ret (0, Some e), s)
  | None =>
      if r >=? Z.of_nat nr then (Ret (0, Some RowOutOfBounds), s)
      else if Z.of_nat nr =? 0 then (Panic IndexOutOfRange, s)
      else if c >=? Z.of_nat nc then (Ret (0, Some ColOutOfBounds), s)
      else if r <? 0 then (Panic IndexOutOfRange, s)
      else (Ret (valueAt s r c, None), s)
  end.
Proof.
  intros Hd Hk. destruct e as [e|].
  { unfold GetCellValue. run_bind. unfold lift. by rewrite Hk. }
  destruct (Z.eqb_spec (Z.of_nat nr) 0) as [Hz|Hz].
  - unfold GetCellValue. run_bind. unfold lift. rewrite Hk. run_bind. unfold theSheet.
    destruct Hd as [Hl _]. rewrite Hl.
    destruct (r >=? Z.of_nat nr); [done|]. run_bind. unfold lift.
    by rewrite index_out by lia.
  - destruct (dims_first_row s nr nc Hd) as (row0 & H0 & Hlen); [lia|].
    rewrite (GetCellValue_checked cellId s r c None row0 Hk H0).
    pose proof (getCellRowCol_range _ _ _ _ Hk) as [_ Hc].
    destruct Hd as [Hl Hf]. rewrite Hl, Hlen.
    destruct (Z.geb_spec r (Z.of_nat nr)); [done|].
    destruct (Z.geb_spec c (Z.of_nat nc)); [done|].
    rewrite valueAt_by_lookup.
    destruct (Z.ltb_spec r 0).
    + rewrite lookupCell_nat, decide_False; [done|lia].
    + destruct (lookupCell s r c) as [x|] eqn:Hx; [done|].
      assert (inSheet s r c) as [y Hy]; [|congruence].
      apply (dims_inSheet s nr nc); [done|].
      unfold getCellRowCol in Hk. destruct cellId as [|c0 rest]; [done|].
      destruct (_ || _) eqn:Hb; [done|]. apply orb_false_iff in Hb as [Hb%Z.ltb_ge _].
      destruct (Atoi rest); [|done]. injection Hk as _ <-. lia.
Qed.

Lemma GetCellValue_table_witness :
  GetCellValue "D1" sheet33 = (Ret (0, Some ColOutOfBounds), sheet33)
  ∧ GetCellValue "A4" sheet33 = (Ret (0, Some RowOutOfBounds), sheet33)
  ∧ GetCellValue "D0" sheet33 = (Ret (0, Some ColOutOfBounds), sheet33)
  ∧ GetCellValue "c3" sheet33 = (Ret (0, Some InvalidCol), sheet33).
Proof.
  assert (dims sheet33 3 3) as Hd.
  { split; [reflexivity|]. repeat apply Forall_cons_2; [reflexivity..|apply Forall_nil_2]. }
  split_and!.
  - apply (GetCellValue_table "D1" sheet33 3 3 0 3 None Hd). reflexivity.
  - apply (GetCellValue_table "A4" sheet33 3 3 3 0 None Hd). reflexivity.
  - apply (GetCellValue_table "D0" sheet33 3 3 (-1) 3 None Hd). reflexivity.
  - apply (GetCellValue_table "c3" sheet33 3 3 (-1) (-1) (Some InvalidCol) Hd). reflexivity.
Defined.

(** ** Calls that panic *)

(** X21: [SetCellValue] checks no bound.  On a sheet of [nr] rows of
    [nc] cells, a call for an identifier that resolves to a position
    outside the sheet panics with an index out of range, whatever the
    value, and leaves the sheet as it was. *)
Theorem SetCellValue_outside_panics visit (cellId v : string) (s : SpreadSheet)
    (nr nc : nat) (r c : Z) :
  dims s nr nc → names cellId r c →
  ¬ (0 ≤ r < Z.of_nat nr ∧ c < Z.of_nat nc) →
  SetCellValue visit cellId v s = (Panic IndexOutOfRange, s).
Proof.
  intros Hd Hk Hout.
  assert (lookupCell s r c = None) as Hx.
  { destruct (lookupCell s r c) as [x|] eqn:Hx; [|done]. destruct Hout.
    assert (inSheet s r c) as Hin by (by exists x).
    apply (dims_inSheet s nr nc r c Hd) in Hin. lia. }
  unfold SetCellValue. run_bind. unfold lift. rewrite Hk. run_bind.
  by rewrite cellAt_by_lookup, Hx.
Qed.

Lemma SetCellValue_outside_panics_witness :
  SetCellValue elements "D2" "5" sheet33 = (Panic IndexOutOfRange, sheet33).
Proof.
  apply (SetCellValue_outside_panics elements "D2" "5" sheet33 3 3 1 3).
  - split; [reflexivity|]. repeat apply Forall_cons_2; [reflexivity..|apply Forall_nil_2].
  - reflexivity.
  - lia.
Defined.

Lemma tail_keeps_formulas visit (cellId : string) (r c : Z) :
  preserves (evolves {[cellId]} (λ _ _, True) nowhere)
    (c1 ← cellAt r c;
     match formula c1 with
     | Some f => addDependees cellId f
     | None => mret ()
     end;;
     c2 ← cellAt r c;
     forEach (visit (dependentCells c2)) computeCellValue;;
     mret (None : option error)).
Proof.
  apply preserves_bind; [apply preserves_cellAt|]. intros x1.
  apply preserves_bind.
  { destruct (formula x1); [|apply preserves_ret].
    apply preserves_addDependees. by apply elem_of_singleton. }
  intros _. apply preserves_bind; [apply preserves_cellAt|]. intros x2.
  apply preserves_bind; [|intros _; apply preserves_ret].
  apply preserves_forEach. intros k _. by apply preserves_computeCellValue.
Qed.

(** A call with a formula, on a sheet whose formulas resolve: whatever
    its outcome, the formula text is in the cell afterwards. *)
Lemma formula_always_stored visit (cellId v : string) (r c : Z) (s s' : SpreadSheet)
    (o : outcome (option error)) :
  formulasResolve s → names cellId r c → inSheet s r c →
  blank v = false → Atoi v = None →
  SetCellValue visit cellId v s = (o, s') →
  ∃ x', lookupCell s' r c = Some x' ∧ formula x' = Some v.
Proof.
  intros HF Hk [x Hx] Hb Hn.
  destruct (delete_step cellId r c s x HF Hx) as (sB & xB & HB & _ & _ & HxB & _).
  destruct (updCell_lookup r c (set_formula (Some v)) sB xB HxB) as (sB1 & HB1 & HsB1).
  unfold SetCellValue. run_bind. unfold lift. rewrite Hk. run_bind.
  rewrite cellAt_by_lookup, Hx. run_bind. rewrite HB, Hb, Hn. run_bind.
  rewrite HB1. cbv beta iota.
  destruct (computeCellValue cellId sB1) as [oC sC] eqn:HC.
  assert (evolves {[cellId]} (λ _ _, True) nowhere sB1 sC) as HevC.
  { revert HC. by apply preserves_computeCellValue. }
  assert (evolves {[cellId]} (λ _ _, True) nowhere sB1 s' →
          ∃ x', lookupCell s' r c = Some x' ∧ formula x' = Some v) as Hend.
  { intros Hev. specialize (Hev r c). rewrite HsB1, decide_True in Hev by done.
    destruct Hev as (x' & Hx' & _ & _ & Hfor). exists x'. split; [done|].
    by rewrite Hfor by (by intros []). }
  destruct oC as [[]|p]; [|by intros [= <- <-]; apply Hend].
  intros H. apply Hend. etrans; [exact HevC|].
  revert H. apply tail_keeps_formulas.
Qed.

(** X22: a formula that is refused is stored all the same.  On a sheet
    whose formulas and keys resolve, a call for a cell of the sheet with
    a formula that does not parse, or that has a term outside the sheet,
    panics with an index out of range; the sheet it leaves has the
    formula text in the cell; and on that sheet every later call of
    [SetCellValue] for the same cell panics as well, whatever the value. *)
Theorem refused_formula_is_stored visit (cellId v : string) (r c : Z) (s : SpreadSheet) :
  range_order visit → wellFormed s → names cellId r c → inSheet s r c →
  blank v = false → Atoi v = None →
  ¬ (∃ ids, getCellIdsFromFormula v = Ret ids
          ∧ ∀ id, id ∈ ids → inSheet s (row id) (col id)) →
  ∃ s' x',
    SetCellValue visit cellId v s = (Panic IndexOutOfRange, s')
    ∧ lookupCell s' r c = Some x' ∧ formula x' = Some v
    ∧ ∀ visit' k v', names k r c →
        ∃ s'', SetCellValue visit' k v' s' = (Panic IndexOutOfRange, s'').
Proof.
  intros Hv HW Hk Hin Hb Hn Hbad.
  destruct (SetCellValue visit cellId v s) as [o s'] eqn:H.
  pose proof (kept_SetCellValue sameShape sameShape_updCell _ _ _ _ _ _ H) as Hsh.
  destruct (formula_always_stored visit cellId v r c s s' o (proj1 HW) Hk Hin Hb Hn H)
    as (x' & Hx' & Hf').
  assert (o = Panic IndexOutOfRange) as ->.
  { destruct o as [[e|]|p].
    - apply SetCellValue_error in H as (He & _). unfold names in Hk. congruence.
    - destruct Hbad. by eapply SetCellValue_formula_inv.
    - f_equal. by eapply only_index_SetCellValue. }
  exists s', x'. split_and!; [done..|].
  intros visit' k v' Hk'.
  destruct (deleteDependees k v s') as [oD sD] eqn:HD.
  assert (oD = Panic IndexOutOfRange) as ->.
  { destruct oD as [[]|p].
    - destruct Hbad. unfold deleteDependees in HD. revert HD. run_bind. unfold lift.
      destruct (getCellIdsFromFormula v) as [ids|p]; [|done].
      intros HD. exists ids. split; [done|]. intros id Hid.
      apply (sameShape_lookup s s'); [done|]. by eapply forEach_updCell_returns.
    - f_equal. revert HD.
      apply (only_index_dependees v
               (λ _ c, set_dependentCells (dependentCells c ∖ {[k]}) c)). }
  exists sD. unfold SetCellValue. run_bind. unfold lift. rewrite Hk'. run_bind.
  rewrite cellAt_by_lookup, Hx', Hf'. run_bind. by rewrite HD.
Qed.

Lemma refused_formula_is_stored_witness :
  ∃ s' x',
    SetCellValue elements "A1" "=B1+" sheet33 = (Panic IndexOutOfRange, s')
    ∧ lookupCell s' 0 0 = Some x' ∧ formula x' = Some "=B1+"
    ∧ ∀ visit' k v', names k 0 0 →
        ∃ s'', SetCellValue visit' k v' s' = (Panic IndexOutOfRange, s'').
Proof.
  apply (refused_formula_is_stored elements "A1" "=B1+" 0 0 sheet33).
  - intros m. reflexivity.
  - apply (fresh_wellFormed 3 3).
  - reflexivity.
  - exists newCell. reflexivity.
  - reflexivity.
  - reflexivity.
  - intros (ids & Hids & _). discriminate Hids.
Defined.

(** ** One identifier per cell *)

Lemma evolves_back (K : gset string) (W F : Z → Z → Prop) (s s' : SpreadSheet)
    (r c : Z) (x' : Cell) :
  evolves K W F s s' → lookupCell s' r c = Some x' →
  ∃ x, lookupCell s r c = Some x
     ∧ (∀ k, k ∉ K → k ∈ dependentCells x' ↔ k ∈ dependentCells x)
     ∧ (¬ W r c → value x' = value x)
     ∧ (¬ F r c → formula x' = formula x).
Proof.
  intros Hev Hx'. specialize (Hev r c).
  destruct (lookupCell s r c) as [x|]; [|congruence].
  destruct Hev as (x'' & Hx'' & ?). assert (x'' = x') as -> by congruence. eauto.
Qed.

Lemma evolves_forth (K : gset string) (W F : Z → Z → Prop) (s s' : SpreadSheet)
    (r c : Z) (x : Cell) :
  evolves K W F s s' → lookupCell s r c = Some x →
  ∃ x', lookupCell s' r c = Some x'
      ∧ (∀ k, k ∉ K → k ∈ dependentCells x' ↔ k ∈ dependentCells x)
      ∧ (¬ W r c → value x' = value x)
      ∧ (¬ F r c → formula x' = formula x).
Proof. intros Hev Hx. specialize (Hev r c). by rewrite Hx in Hev. Qed.

(** The key [cellId] after a call through [cellId]: it is where the new
    formula has a term, or where it was and the old formula had none. *)
Lemma key_after_call visit (cellId v : string) (r c : Z) (s s' : SpreadSheet) (x : Cell) :
  range_order visit → wellFormed s → names cellId r c → lookupCell s r c = Some x →
  SetCellValue visit cellId v s = (Ret None, s') →
  (∃ xT, lookupCell s' r c = Some xT
       ∧ ∀ f, formula xT = Some f →
           Atoi (if blank v then "0" else v) = None ∧ f = v)
  ∧ ∀ r' c' y', lookupCell s' r' c' = Some y' → cellId ∈ dependentCells y' →
      (∃ ids, formula <$> lookupCell s' r c = Some (Some v)
            ∧ getCellIdsFromFormula v = Ret ids ∧ termAt ids r' c')
      ∨ keyLeft cellId s x r' c'.
Proof.
  intros Hv HW Hk Hx H.
  destruct (Atoi (if blank v then "0" else v)) as [n|] eqn:Hn.
  - destruct (literal_returns visit cellId v n r c s x Hv HW Hk Hx Hn)
      as (s1 & s'' & d & H' & _ & Hx1 & _ & _ & Hev & Hleft).
    assert (s'' = s') as -> by congruence.
    destruct (evolves_forth _ _ _ _ _ _ _ _ Hev Hx1) as (xT & HxT & _ & _ & HfT).
    split.
    + exists xT. split; [done|]. intros f. by rewrite HfT by (by intros []).
    + intros r' c' y' Hy' Hkin. right.
      destruct (evolves_back _ _ _ _ _ _ _ _ Hev Hy') as (y1 & Hy1 & Hd1 & _).
      apply (Hleft r' c' y1 Hy1). by apply Hd1; [apply not_elem_of_empty|].
  - destruct (blank v) eqn:Hb; [done|].
    destruct (SetCellValue_formula_inv _ _ _ _ _ _ _ Hk Hb Hn H) as (ids & Hids & Hin).
    destruct (formula_returns visit cellId v r c s x ids Hv HW Hk Hx Hb Hn Hids Hin)
      as (s1 & s'' & d & H' & _ & Hx1 & _ & _ & Hev & Hleft).
    assert (s'' = s') as -> by congruence.
    destruct (evolves_forth _ _ _ _ _ _ _ _ Hev Hx1) as (xT & HxT & _ & _ & HfT).
    rewrite HxT. cbn [fmap option_fmap option_map].
    rewrite HfT by (by intros []). cbn [formula].
    split.
    + exists xT. split; [done|]. rewrite HfT by (by intros []). cbn [formula].
      by intros f [= <-].
    + intros r' c' y' Hy' Hkin.
      destruct (evolves_back _ _ _ _ _ _ _ _ Hev Hy') as (y1 & Hy1 & Hd1 & _).
      destruct (Hleft r' c' y1 Hy1) as [Hat|Hl]; [|left; eauto|by right].
      by apply Hd1; [apply not_elem_of_empty|].
Qed.

Lemma edgesSound_kept (S : string → Prop) visit (cellId v : string) (s s' : SpreadSheet) :
  unambiguous S → range_order visit → wellFormed s → edgesSound S s → S cellId →
  SetCellValue visit cellId v s = (Ret None, s') →
  edgesSound S s'.
Proof.
  intros HS Hv HW Hsound HSc H.
  destruct (SetCellValue_Ret_inv _ _ _ _ _ H) as (r & c & Hk & [x Hx]).
  destruct (key_after_call visit cellId v r c s s' x Hv HW Hk Hx H)
    as [(xT & HxT & HfT) Hkey].
  pose proof (SetCellValue_frame _ _ _ _ _ _ Hv H) as Hframe.
  intros r0 c0 x' k Hx' Hkin.
  destruct (decide (k = cellId)) as [->|Hne].
  - split; [done|].
    destruct (Hkey r0 c0 x' Hx' Hkin) as [(ids & Hf & Hids & Hat)|[(y & Hy & Hyin) Hno]].
    + rewrite HxT in Hf. injection Hf as Hf. exists r, c, xT, v, ids. done.
    + destruct (Hsound r0 c0 y cellId Hy Hyin)
        as (_ & rk & ck & xk & f & ids & Hk' & Hxk & Hf & Hids & Hat).
      destruct (names_inj _ _ _ _ _ Hk Hk') as [-> ->].
      assert (xk = x) as -> by congruence. destruct (Hno f ids Hf Hids Hat).
  - destruct (evolves_back _ _ _ _ _ _ _ _ Hframe Hx') as (x0 & Hx0 & Hd0 & _).
    assert (k ∈ dependentCells x0) as Hkin0.
    { apply Hd0; [|done]. by rewrite elem_of_singleton. }
    destruct (Hsound r0 c0 x0 k Hx0 Hkin0)
      as (HSk & rk & ck & xk & f & ids & Hk' & Hxk & Hf & Hids & Hat).
    split; [done|].
    destruct (evolves_forth _ _ _ _ _ _ _ _ Hframe Hxk) as (xk' & Hxk' & _ & _ & Hfk').
    exists rk, ck, xk', f, ids. split_and!; [done..| |done|done].
    rewrite Hfk'; [done|]. intros Hk''. apply Hne. by apply (HS k cellId rk ck).
Qed.

Lemma edgesComplete_kept (S : string → Prop) visit (cellId v : string)
    (s s' : SpreadSheet) :
  range_order visit → wellFormed s → edgesComplete S s → S cellId →
  SetCellValue visit cellId v s = (Ret None, s') →
  edgesComplete S s'.
Proof.
  intros Hv HW Hcomp HSc H.
  destruct (SetCellValue_Ret_inv _ _ _ _ _ H) as (r & c & Hk & [x Hx]).
  destruct (key_after_call visit cellId v r c s s' x Hv HW Hk Hx H)
    as [(xT & HxT & HfT) _].
  pose proof (SetCellValue_frame _ _ _ _ _ _ Hv H) as Hframe.
  intros rk ck xk' f ids Hxk' Hf Hids.
  destruct (decide (rk = r ∧ ck = c)) as [[-> ->]|Hne].
  - assert (xk' = xT) as -> by congruence.
    destruct (HfT f Hf) as [Hn ->].
    destruct (blank v) eqn:Hb; [done|].
    exists cellId. split_and!; [done..|]. intros r0 c0 (id & Hid & <- & <-).
    by apply (formula_adds_edge_per_term visit cellId v r c s s' ids id None).
  - destruct (evolves_back _ _ _ _ _ _ _ _ Hframe Hxk') as (xk & Hxk & _ & _ & Hfk).
    rewrite Hfk in Hf.
    2: { intros Hk'. apply Hne. by apply (names_inj cellId). }
    destruct (Hcomp rk ck xk f ids Hxk Hf Hids) as (k & HSk & Hk' & Hall).
    exists k. split_and!; [done..|]. intros r0 c0 Hat.
    destruct (Hall r0 c0 Hat) as (x0 & Hx0 & Hkin).
    destruct (evolves_forth _ _ _ _ _ _ _ _ Hframe Hx0) as (x0' & Hx0' & Hd0 & _).
    exists x0'. split; [done|]. apply Hd0; [|done].
    rewrite elem_of_singleton. intros ->. apply Hne. by apply (names_inj cellId).
Qed.

Lemma reached_facts (S : string → Prop) visit (s : SpreadSheet) :
  unambiguous S → range_order visit → reached S visit s →
  (∃ nr nc, dims s nr nc) ∧ wellFormed s ∧ edgesSound S s ∧ edgesComplete S s.
Proof.
  intros HS Hv (numRows & numCols & s0 & calls & Hs0 & Hcalls & Hruns).
  apply CreateSpreadSheet_inv in Hs0.
  assert ((∃ nr nc, dims s0 nr nc) ∧ wellFormed s0 ∧ edgesSound S s0 ∧ edgesComplete S s0)
    as Hinit.
  { subst s0. split_and!.
    - eexists _, _. split; cbn [cells]; [reflexivity|].
      apply Forall_forall. intros rw [-> _]%elem_of_replicate.
      by rewrite length_replicate.
    - apply fresh_wellFormed.
    - intros r c x k Hx%fresh_lookup Hkin. subst x. by apply elem_of_empty in Hkin.
    - intros r c x f ids Hx%fresh_lookup Hf. by subst x. }
  clear Hs0. induction Hruns as [s|cellId v calls s s1 s2 H _ IH]; [done|].
  apply Forall_cons in Hcalls as [HSc Hcalls]. cbn in HSc.
  apply IH; [done|]. destruct Hinit as ((nr & nc & Hd) & HW & Hso & Hco). split_and!.
  - exists nr, nc. apply (sameShape_dims s s1); [|done].
    by apply (kept_SetCellValue sameShape sameShape_updCell _ _ _ _ _ _ H).
  - by eapply wellFormed_kept.
  - by eapply edgesSound_kept.
  - by eapply edgesComplete_kept.
Qed.

Lemma reached_step (S : string → Prop) visit (cellId v : string) (s s' : SpreadSheet) :
  reached S visit s → S cellId →
  SetCellValue visit cellId v s = (Ret None, s') →
  reached S visit s'.
Proof.
  intros (numRows & numCols & s0 & calls & Hs0 & Hcalls & Hruns) HSc H.
  exists numRows, numCols, s0, (calls ++ [(cellId, v)]). split_and!; [done| |].
  - apply Forall_app. split; [done|]. by apply Forall_singleton.
  - clear Hs0 Hcalls. induction Hruns as [s|k w calls s s1 s2 Hkw _ IH].
    + eapply runs_cons; [exact H|apply runs_nil].
    + eapply runs_cons; [exact Hkw|by apply IH].
Qed.

(** X23: the dependents are the cells that refer to the cell.  Take a
    set of identifiers no two of which name the same cell, and a sheet
    reached from a fresh one by calls that return nil and use those
    identifiers only.  Then a key is among the dependents of a cell
    exactly when it is the identifier under which a cell was given its
    present formula and that formula has a term, a literal counting as a
    term at (0, 0), at the coordinates of the cell. *)
Theorem dependents_are_referrers (S : string → Prop) visit (s : SpreadSheet) :
  unambiguous S → range_order visit → reached S visit s →
  edgesSound S s ∧ edgesComplete S s.
Proof.
  intros HS Hv Hr.
  by destruct (reached_facts S visit s HS Hv Hr) as (_ & _ & ? & ?).
Qed.

(** X24: with one identifier per cell the integer written is the
    integer read.  On a sheet reached as above, [SetCellValue] with such
    an identifier, for a cell of the sheet, and a value that is blank or
    the text of an integer [n] returns nil, and [GetCellValue] then
    returns [n]. *)
Theorem integer_is_read_back (S : string → Prop) visit (cellId v : string) (n r c : Z)
    (s : SpreadSheet) :
  unambiguous S → range_order visit → reached S visit s →
  S cellId → names cellId r c → inSheet s r c →
  Atoi (if blank v then "0" else v) = Some n →
  ∃ s', SetCellValue visit cellId v s = (Ret None, s')
      ∧ GetCellValue cellId s' = (Ret (n, None), s').
Proof.
  intros HS Hv Hr HSc Hk [x Hx] Hn.
  destruct (reached_facts S visit s HS Hv Hr) as ((nr & nc & Hd) & HW & Hsound & _).
  destruct (literal_returns visit cellId v n r c s x Hv HW Hk Hx Hn)
    as (s1 & s' & d & H & _ & Hx1 & Hsub & Hsh & Hev & Hleft).
  exists s'. split; [done|].
  destruct (evolves_forth _ _ _ _ _ _ _ _ Hev Hx1) as (x' & Hx' & _ & Hval & _).
  rewrite (GetCellValue_inSheet cellId s' nr nc r c x');
    [|by apply (sameShape_dims s s')|done..].
  rewrite Hval; [done|]. intros (k & Hkd & Hkn).
  destruct (Hsound r c x k Hx (Hsub k Hkd)) as (HSk & _).
  assert (k = cellId) as -> by (by apply (HS k cellId r c)).
  destruct (Hleft r c _ Hx1 Hkd) as [(y & Hy & Hyin) Hno].
  destruct (Hsound r c y cellId Hy Hyin)
    as (_ & rk & ck & xk & f & ids & Hk' & Hxk & Hf & Hids & Hat).
  destruct (names_inj _ _ _ _ _ Hk Hk') as [-> ->].
  assert (xk = x) as -> by congruence. by destruct (Hno f ids Hf Hids).
Qed.

(** X25: with one identifier per cell the cells that refer to the target
    follow it.  After a call that returns nil on a sheet reached as above,
    every cell whose formula has a term at the target, and no reference to
    a cell whose own formula has a term at the target, holds the signed
    sum of its terms over the sheet as the call leaves it. *)
Theorem referrers_are_recomputed (S : string → Prop) visit (cellId v : string)
    (r c : Z) (s s' : SpreadSheet) (rk ck : Z) (xk : Cell) (fk : string)
    (idsk : list CellId) :
  unambiguous S → range_order visit → reached S visit s →
  S cellId → names cellId r c →
  SetCellValue visit cellId v s = (Ret None, s') →
  lookupCell s' rk ck = Some xk → formula xk = Some fk →
  getCellIdsFromFormula fk = Ret idsk →
  termAt idsk r c →
  (∀ id y f ids, id ∈ idsk → val id = None →
     lookupCell s' (row id) (col id) = Some y → formula y = Some f →
     getCellIdsFromFormula f = Ret ids → ¬ termAt ids r c) →
  value xk = wrap (signedSum s' idsk).
Proof.
  intros HS Hv Hr HSc Hk H Hxk Hfk Hidsk Hat Hind.
  pose proof (reached_step S visit cellId v s s' Hr HSc H) as Hr'.
  destruct (reached_facts S visit s' HS Hv Hr') as (_ & _ & Hsound & Hcomp).
  destruct (Hcomp rk ck xk fk idsk Hxk Hfk Hidsk) as (k & HSk & Hkk & Hall).
  destruct (Hall r c Hat) as (xT & HxT & HkT).
  rewrite SetCellValue_loop, Hk in H.
  destruct (SetCellValue _ cellId v s) as [[o1|p] s1]; [|done].
  rewrite cellAt_by_lookup in H.
  destruct (lookupCell s1 r c) as [c1|] eqn:Hc1; [|done].
  pose proof (loop_evolves _ _ _ _ H) as Hev.
  destruct (evolves_forth _ _ _ _ _ _ _ _ Hev Hc1) as (xT' & HxT' & HdT & _).
  assert (xT' = xT) as -> by congruence.
  assert (∀ k', k' ∈ visit (dependentCells c1) ↔ k' ∈ dependentCells xT) as Hkeys.
  { intros k'. rewrite (Hv _), elem_of_elements. symmetry. apply HdT, not_elem_of_empty. }
  revert H. run_bind.
  destruct (forEach (visit (dependentCells c1)) computeCellValue s1) as [[[]|p] s2] eqn:Hl;
    [|done].
  intros [= <-].
  apply (loop_consistent _ _ _ k rk ck xk fk idsk Hl); [by apply Hkeys|done..|].
  intros id k' Hid Hvid Hk'in Hk'n. apply Hkeys in Hk'in.
  destruct (Hsound r c xT k' HxT Hk'in)
    as (_ & rk' & ck' & xk' & f' & ids' & Hk'' & Hxk' & Hf' & Hids' & Hat').
  destruct (names_inj _ _ _ _ _ Hk'n Hk'') as [-> ->].
  by apply (Hind id xk' f' ids').
Qed.

Lemma firstRow_unambiguous : unambiguous firstRow.
Proof.
  intros k1 k2 r c [->|[->| ->]] [->|[->| ->]] H1 H2; try reflexivity;
    unfold names in H1, H2; vm_compute in H1, H2; congruence.
Qed.

Lemma dependents_are_referrers_witness :
  edgesSound firstRow
    (snd (SetCellValue elements "C1" "=A1+B1"
            (snd (SetCellValue elements "B1" "=A1" sheet33))))
  ∧ edgesComplete firstRow
      (snd (SetCellValue elements "C1" "=A1+B1"
              (snd (SetCellValue elements "B1" "=A1" sheet33)))).
Proof.
  apply (dependents_are_referrers firstRow elements).
  - apply firstRow_unambiguous.
  - intros m. reflexivity.
  - exists 3, 3, sheet33, [("B1", "=A1"); ("C1", "=A1+B1")]. split_and!.
    + reflexivity.
    + repeat apply Forall_cons_2; [right; left; reflexivity|right; right; reflexivity|].
      apply Forall_nil_2.
    + do 2 (eapply runs_cons; [vm_compute; reflexivity|]). apply runs_nil.
Defined.

Lemma integer_is_read_back_witness :
  ∃ s', SetCellValue elements "A1" "7"
          (snd (SetCellValue elements "A1" "=B1+5" sheet33)) = (Ret None, s')
      ∧ GetCellValue "A1" s' = (Ret (7, None), s').
Proof.
  apply (integer_is_read_back firstRow elements "A1" "7" 7 0 0).
  - apply firstRow_unambiguous.
  - intros m. reflexivity.
  - exists 3, 3, sheet33, [("A1", "=B1+5")]. split_and!.
    + reflexivity.
    + apply Forall_singleton. left. reflexivity.
    + eapply runs_cons; [vm_compute; reflexivity|]. apply runs_nil.
  - left. reflexivity.
  - reflexivity.
  - eexists. vm_compute. reflexivity.
  - reflexivity.
Defined.

Lemma referrers_are_recomputed_witness :
  value (mkCell ∅ 99 (Some "=A1"))
  = wrap (signedSum
            (snd (SetCellValue elements "A1" "99"
                    (snd (SetCellValue elements "B1" "=A1" sheet33))))
            [mkCellId 0 0 "+" None]).
Proof.
  apply (referrers_are_recomputed firstRow elements "A1" "99" 0 0
           (snd (SetCellValue elements "B1" "=A1" sheet33)) _ 0 1
           (mkCell ∅ 99 (Some "=A1")) "=A1").
  - apply firstRow_unambiguous.
  - intros m. reflexivity.
  - exists 3, 3, sheet33, [("B1", "=A1")]. split_and!.
    + reflexivity.
    + apply Forall_singleton. right. left. reflexivity.
    + eapply runs_cons; [vm_compute; reflexivity|]. apply runs_nil.
  - left. reflexivity.
  - reflexivity.
  - vm_compute. reflexivity.
  - vm_compute. reflexivity.
  - reflexivity.
  - reflexivity.
  - exists (mkCellId 0 0 "+" None). split; [apply list_elem_of_here|done].
  - intros id y f ids ->%list_elem_of_singleton _ Hy Hf.
    vm_compute in Hy. injection Hy as <-. discriminate Hf.
Defined.

(** ** The tokens of a formula *)

Lemma scanFormula_skip (t rest tok sg : string) :
  unsigned t = true →
  scanFormula (t +:+ rest) tok sg = scanFormula rest (tok +:+ t) sg.
Proof.
  revert tok. induction t as [|a t IH]; intros tok Hu.
  - by rewrite append_empty.
  - apply unsigned_head in Hu as (Hm & Hp & Hu).
    change (String a t +:+ rest) with (String a (t +:+ rest)). cbn [scanFormula].
    destruct (Ascii.eqb_spec a "+") as [->|_]; [done|].
    destruct (Ascii.eqb_spec a "-") as [->|_]; [done|]. cbn [negb andb].
    rewrite IH by done. by rewrite append_snoc.
Qed.

Lemma scan_tokens (more : list (ascii * string)) (tok sg : string) :
  Forall (λ ot, (ot.1 = "+"%char ∨ ot.1 = "-"%char) ∧ unsigned ot.2 = true) more →
  scanFormula (foldr (λ ot acc, String ot.1 (ot.2 +:+ acc)) "" more) tok sg
  = ids ← getCellIdsFromRange tok sg; rest ← expandTokens more; Ret (ids ++ rest).
Proof.
  intros Hmore. revert tok sg.
  induction Hmore as [|[op t] more [Hop Hu] _ IH]; intros tok sg; cbn [foldr expandTokens].
  - cbn [scanFormula]. destruct (getCellIdsFromRange tok sg) as [ids|p]; [|done].
    cbn. by rewrite app_nil_r.
  - cbn [fst snd] in *. cbn [scanFormula].
    assert (negb (Ascii.eqb op "+") && negb (Ascii.eqb op "-") = false) as ->.
    { by destruct Hop as [-> | ->]. }
    rewrite scanFormula_skip by done. by rewrite IH.
Qed.

(** X26: how a formula is cut into terms.  The first byte is dropped
    whatever it is; the rest is a first token followed by operators "+"
    or "-", each with its token.  The terms of the formula are the terms
    of the first token with the sign "+", then those of each other token
    with the operator before it as its sign, in the order of the text;
    the first token that makes [getCellIdsFromRange] panic makes the whole
    parse panic. *)
Theorem getCellIdsFromFormula_tokens (eq : ascii) (first : string)
    (more : list (ascii * string)) :
  unsigned first = true →
  Forall (λ ot, (ot.1 = "+"%char ∨ ot.1 = "-"%char) ∧ unsigned ot.2 = true) more →
  getCellIdsFromFormula (String eq (formulaText first more))
  = ids ← getCellIdsFromRange first "+"; rest ← expandTokens more; Ret (ids ++ rest).
Proof.
  intros Hu Hmore. cbn [getCellIdsFromFormula]. unfold formulaText.
  rewrite scanFormula_skip by done. by apply scan_tokens.
Qed.

Lemma getCellIdsFromFormula_tokens_witness :
  getCellIdsFromFormula "=A1-B2:C2+5"
  = Ret [mkCellId 0 0 "+" None; mkCellId 1 1 "-" None; mkCellId 1 2 "-" None;
         mkCellId 0 0 "+" (Some 5)].
Proof.
  apply (getCellIdsFromFormula_tokens "=" "A1" [("-"%char, "B2:C2"); ("+"%char, "5")]).
  - reflexivity.
  - repeat apply Forall_cons_2; [split; [by right|reflexivity]|split; [by left|reflexivity]|].
    apply Forall_nil_2.
Defined.
